(** * A discrete-time simulator of threads, cores and synchronisation

    Shallow embedding of [script.js]: the classes [Thread], [Semaphore],
    [Monitor], [CPUCore], [Scheduler] and [SimulationEngine].

    JavaScript objects are shared by reference.  A [Thread] object is reached
    from the engine's thread list, the ready and blocked queues, the cores and
    the queues of semaphores and monitors at the same time, so threads live in
    a store ([heap]) and every collection holds references ([ref], an index of
    the store).  Semaphores and monitors are reached through the name-keyed
    registries only, so the registries hold them by value.  Numbers are
    integers ([Z]); the execution cursor indexes an array and is a [nat]. *)

From stdpp Require Import gmap gmultiset strings list fin_maps pretty.

Local Open Scope Z_scope.

(** A reference to a [Thread] object: its index in the store. *)
Abbreviation ref := nat (only parsing).

(** ** Instructions: [{ type, resource }] *)

Inductive InstrType :=
  | compute | wait | signal
  | enter_monitor | exit_monitor | monitor_wait | monitor_signal.

Record Instruction := { type : InstrType; resource : option string }.

Inductive ThreadState := NEW | READY | RUNNING | BLOCKED | TERMINATED.

#[global] Instance ThreadState_eq_dec : EqDecision ThreadState.
Proof. solve_decision. Defined.

#[global] Instance InstrType_eq_dec : EqDecision InstrType.
Proof. solve_decision. Defined.

(** ** class Thread *)

Module Thread.

Record t := {
  id : Z;
  name : string;
  priority : Z;
  state : ThreadState;
  instructions : list Instruction;
  currentInstruction : nat;
  arrivalTime : Z;
  burstTime : Z;
  remainingTime : Z;
  waitTime : Z;
  turnaroundTime : Z;
  completionTime : Z;
  timeInCurrentState : Z;
  quantum : Z;
  kernelThreadId : option Z
}.

(** [constructor(name, priority, instructions)] with [id = Thread.nextId++]
    done by the caller of this function; [name || `T${id}`] takes the
    default for a null or empty name. *)
Definition make (id : Z) (name : option string) (priority : Z)
    (instructions : list Instruction) : t :=
  {| id := id;
     name := match name with
             | Some n => if decide (n = "") then "T" +:+ pretty id else n
             | None => "T" +:+ pretty id
             end;
     priority := priority;
     state := NEW;
     instructions := instructions;
     currentInstruction := 0;
     arrivalTime := 0;
     burstTime := Z.of_nat (length instructions);
     remainingTime := Z.of_nat (length instructions);
     waitTime := 0;
     turnaroundTime := 0;
     completionTime := 0;
     timeInCurrentState := 0;
     quantum := 0;
     kernelThreadId := None |}.

(** [execute()]: [None] is [{ done: true }], [Some i] is
    [{ done: false, instruction: i }]. *)
Definition execute (th : t) : option Instruction * t :=
  match instructions th !! currentInstruction th with
  | None => (None, th)
  | Some instruction =>
      (Some instruction,
       {| id := id th; name := name th; priority := priority th;
          state := state th; instructions := instructions th;
          currentInstruction := S (currentInstruction th);
          arrivalTime := arrivalTime th; burstTime := burstTime th;
          remainingTime := remainingTime th - 1;
          waitTime := waitTime th; turnaroundTime := turnaroundTime th;
          completionTime := completionTime th;
          timeInCurrentState := timeInCurrentState th;
          quantum := quantum th + 1;
          kernelThreadId := kernelThreadId th |})
  end.

Definition isComplete (th : t) : bool :=
  bool_decide (length (instructions th) ≤ currentInstruction th)%nat.

Definition setState (newState : ThreadState) (th : t) : t :=
  {| id := id th; name := name th; priority := priority th;
     state := newState; instructions := instructions th;
     currentInstruction := currentInstruction th;
     arrivalTime := arrivalTime th; burstTime := burstTime th;
     remainingTime := remainingTime th;
     waitTime := waitTime th; turnaroundTime := turnaroundTime th;
     completionTime := completionTime th;
     timeInCurrentState := 0;
     quantum := quantum th;
     kernelThreadId := kernelThreadId th |}.

Definition tick (th : t) : t :=
  {| id := id th; name := name th; priority := priority th;
     state := state th; instructions := instructions th;
     currentInstruction := currentInstruction th;
     arrivalTime := arrivalTime th; burstTime := burstTime th;
     remainingTime := remainingTime th;
     waitTime := if bool_decide (state th = READY ∨ state th = BLOCKED)
                 then waitTime th + 1 else waitTime th;
     turnaroundTime := turnaroundTime th;
     completionTime := completionTime th;
     timeInCurrentState := timeInCurrentState th + 1;
     quantum := quantum th;
     kernelThreadId := kernelThreadId th |}.

(** Field assignments made by the engine from outside the class. *)
Definition set_quantum (q : Z) (th : t) : t :=
  {| id := id th; name := name th; priority := priority th;
     state := state th; instructions := instructions th;
     currentInstruction := currentInstruction th;
     arrivalTime := arrivalTime th; burstTime := burstTime th;
     remainingTime := remainingTime th;
     waitTime := waitTime th; turnaroundTime := turnaroundTime th;
     completionTime := completionTime th;
     timeInCurrentState := timeInCurrentState th;
     quantum := q;
     kernelThreadId := kernelThreadId th |}.

Definition set_arrivalTime (a : Z) (th : t) : t :=
  {| id := id th; name := name th; priority := priority th;
     state := state th; instructions := instructions th;
     currentInstruction := currentInstruction th;
     arrivalTime := a; burstTime := burstTime th;
     remainingTime := remainingTime th;
     waitTime := waitTime th; turnaroundTime := turnaroundTime th;
     completionTime := completionTime th;
     timeInCurrentState := timeInCurrentState th;
     quantum := quantum th;
     kernelThreadId := kernelThreadId th |}.

Definition set_kernelThreadId (k : option Z) (th : t) : t :=
  {| id := id th; name := name th; priority := priority th;
     state := state th; instructions := instructions th;
     currentInstruction := currentInstruction th;
     arrivalTime := arrivalTime th; burstTime := burstTime th;
     remainingTime := remainingTime th;
     waitTime := waitTime th; turnaroundTime := turnaroundTime th;
     completionTime := completionTime th;
     timeInCurrentState := timeInCurrentState th;
     quantum := quantum th;
     kernelThreadId := k |}.

(** [completionTime = c; turnaroundTime = completionTime - arrivalTime]. *)
Definition set_completion (c : Z) (th : t) : t :=
  {| id := id th; name := name th; priority := priority th;
     state := state th; instructions := instructions th;
     currentInstruction := currentInstruction th;
     arrivalTime := arrivalTime th; burstTime := burstTime th;
     remainingTime := remainingTime th;
     waitTime := waitTime th; turnaroundTime := c - arrivalTime th;
     completionTime := c;
     timeInCurrentState := timeInCurrentState th;
     quantum := quantum th;
     kernelThreadId := kernelThreadId th |}.

End Thread.

(** ** class Semaphore *)

Module Semaphore.

Record t := { name : string; value : Z; waitQueue : list ref }.

Definition make (name : string) (initialValue : Z) : t :=
  {| name := name; value := initialValue; waitQueue := [] |}.

(** [wait(thread)]: the result is [true] when the caller may proceed. *)
Definition wait (thread : ref) (s : t) : bool * t :=
  let v := value s - 1 in
  if bool_decide (v < 0)
  then (false, {| name := name s; value := v;
                  waitQueue := waitQueue s ++ [thread] |})
  else (true, {| name := name s; value := v; waitQueue := waitQueue s |}).

(** [signal()]: the thread taken from the head of the queue, or [null]. *)
Definition signal (s : t) : option ref * t :=
  let v := value s + 1 in
  match waitQueue s with
  | th :: rest => (Some th, {| name := name s; value := v; waitQueue := rest |})
  | [] => (None, {| name := name s; value := v; waitQueue := waitQueue s |})
  end.

End Semaphore.

(** ** class Monitor *)

Module Monitor.

Record t := {
  name : string;
  owner : option ref;
  entryQueue : list ref;
  conditionQueue : list ref
}.

Definition make (name : string) : t :=
  {| name := name; owner := None; entryQueue := []; conditionQueue := [] |}.

Definition enter (thread : ref) (m : t) : bool * t :=
  match owner m with
  | None => (true, {| name := name m; owner := Some thread;
                      entryQueue := entryQueue m;
                      conditionQueue := conditionQueue m |})
  | Some _ => (false, {| name := name m; owner := owner m;
                         entryQueue := entryQueue m ++ [thread];
                         conditionQueue := conditionQueue m |})
  end.

(** [exit()]: the pair is [(nextThread, wasWaiting)]. *)
Definition exit (m : t) : (option ref * bool) * t :=
  match conditionQueue m with
  | th :: rest =>
      ((Some th, true), {| name := name m; owner := Some th;
                           entryQueue := entryQueue m;
                           conditionQueue := rest |})
  | [] =>
      match entryQueue m with
      | th :: rest =>
          ((Some th, false), {| name := name m; owner := Some th;
                                entryQueue := rest;
                                conditionQueue := conditionQueue m |})
      | [] =>
          ((None, false), {| name := name m; owner := None;
                             entryQueue := entryQueue m;
                             conditionQueue := conditionQueue m |})
      end
  end.

(** [wait(thread)]: the pair is [(nextThread, currentBlocked)]. *)
Definition wait (thread : ref) (m : t) : (option ref * bool) * t :=
  if decide (owner m = Some thread) then
    match entryQueue m with
    | th :: rest =>
        ((Some th, true), {| name := name m; owner := Some th;
                             entryQueue := rest;
                             conditionQueue := conditionQueue m ++ [thread] |})
    | [] =>
        ((None, true), {| name := name m; owner := None;
                          entryQueue := entryQueue m;
                          conditionQueue := conditionQueue m ++ [thread] |})
    end
  else ((None, false), m).

Definition signal (m : t) : option ref * t :=
  match conditionQueue m with
  | th :: rest => (Some th, {| name := name m; owner := owner m;
                               entryQueue := entryQueue m;
                               conditionQueue := rest |})
  | [] => (None, m)
  end.

End Monitor.

(** ** class CPUCore *)

Module CPUCore.

Record t := {
  id : Z;
  currentThread : option ref;
  isIdle : bool;
  totalBusyTime : Z
}.

Definition make (id : Z) : t :=
  {| id := id; currentThread := None; isIdle := true; totalBusyTime := 0 |}.

(** The part of [assignThread] that writes the core; the engine applies
    [thread.setState('RUNNING')] to the store. *)
Definition assignThread (thread : ref) (c : t) : t :=
  {| id := id c; currentThread := Some thread; isIdle := false;
     totalBusyTime := totalBusyTime c |}.

Definition releaseThread (c : t) : option ref * t :=
  (currentThread c,
   {| id := id c; currentThread := None; isIdle := true;
      totalBusyTime := totalBusyTime c |}).

Definition tick (c : t) : t :=
  if isIdle c then c
  else {| id := id c; currentThread := currentThread c; isIdle := isIdle c;
          totalBusyTime := totalBusyTime c + 1 |}.

(** The assignment [core.isIdle = b]. *)
Definition set_isIdle (b : bool) (c : t) : t :=
  {| id := id c; currentThread := currentThread c; isIdle := b;
     totalBusyTime := totalBusyTime c |}.

End CPUCore.

(** ** class Scheduler *)

Module Scheduler.

Record t := { algorithm : string; timeQuantum : Z }.

(** [readyQueue[i].priority]; absent when the index or the reference is. *)
Definition priorityAt (heap : list Thread.t) (readyQueue : list ref)
    (i : nat) : option Z :=
  r ← readyQueue !! i; th ← heap !! r; Some (Thread.priority th).

(** One round of the loop of the priority case: the comparison
    [readyQueue[i].priority > readyQueue[highestPriorityIndex].priority]. *)
Definition scanStep (heap : list Thread.t) (readyQueue : list ref)
    (acc : option nat) (i : nat) : option nat :=
  highestPriorityIndex ← acc;
  pi ← priorityAt heap readyQueue i;
  ph ← priorityAt heap readyQueue highestPriorityIndex;
  Some (if bool_decide (ph < pi) then i else highestPriorityIndex).

(** [for (let i = 1; i < readyQueue.length; i++)] from index 0. *)
Definition highestPriorityIndex (heap : list Thread.t)
    (readyQueue : list ref) : option nat :=
  foldl (scanStep heap readyQueue) (Some 0%nat)
        (seq 1 (length readyQueue - 1)).

(** [selectNextThread(readyQueue)]: the selected thread ([None] is [null])
    and the queue that is left.  The outer [option] is [None] when the scan
    reads a field of an absent object, a TypeError in JavaScript. *)
Definition selectNextThread (s : t) (heap : list Thread.t)
    (readyQueue : list ref) : option (option ref * list ref) :=
  match readyQueue with
  | [] => Some (None, [])
  | head :: rest =>
      if decide (algorithm s = "fcfs") then Some (Some head, rest)
      else if decide (algorithm s = "priority") then
        i ← highestPriorityIndex heap readyQueue;
        Some (readyQueue !! i, delete i readyQueue)
      else Some (Some head, rest)
  end.

Definition shouldPreempt (s : t) (thread : Thread.t) : bool :=
  if decide (algorithm s = "round-robin")
  then bool_decide (timeQuantum s ≤ Thread.quantum thread)
  else false.

End Scheduler.

(** ** class SimulationEngine *)

(** An entry of the event log; [tick_] is its field [tick]. *)
Record LogEntry := { tick_ : Z; message : string; level : string }.

(** The fields of the engine, and with them the state that the class reaches
    from outside itself: the store of [Thread] objects, the static counter
    [Thread.nextId] and the callbacks registered with [setTimeout] that have
    not run yet (each one closes over a thread). *)
Record SimulationEngine := {
  heap : list Thread.t;
  nextId : Z;
  timers : list ref;
  threads : list ref;
  readyQueue : list ref;
  blockedQueue : list ref;
  terminatedThreads : list ref;
  cpuCores : list CPUCore.t;
  semaphores : gmap string Semaphore.t;
  monitors : gmap string Monitor.t;
  scheduler : Scheduler.t;
  clockTick : Z;
  isRunning : bool;
  threadingModel : string;
  userThreadCount : Z;
  kernelThreadCount : Z;
  eventLog : list LogEntry
}.

Section Setters.

Definition set_heap (f : list Thread.t → list Thread.t) (e : SimulationEngine) :=
  {| heap := f (heap e); nextId := nextId e; timers := timers e;
     threads := threads e; readyQueue := readyQueue e;
     blockedQueue := blockedQueue e;
     terminatedThreads := terminatedThreads e; cpuCores := cpuCores e;
     semaphores := semaphores e; monitors := monitors e;
     scheduler := scheduler e; clockTick := clockTick e;
     isRunning := isRunning e; threadingModel := threadingModel e;
     userThreadCount := userThreadCount e;
     kernelThreadCount := kernelThreadCount e; eventLog := eventLog e |}.

Definition set_nextId (f : Z → Z) (e : SimulationEngine) :=
  {| heap := heap e; nextId := f (nextId e); timers := timers e;
     threads := threads e; readyQueue := readyQueue e;
     blockedQueue := blockedQueue e;
     terminatedThreads := terminatedThreads e; cpuCores := cpuCores e;
     semaphores := semaphores e; monitors := monitors e;
     scheduler := scheduler e; clockTick := clockTick e;
     isRunning := isRunning e; threadingModel := threadingModel e;
     userThreadCount := userThreadCount e;
     kernelThreadCount := kernelThreadCount e; eventLog := eventLog e |}.

Definition set_timers (f : list ref → list ref) (e : SimulationEngine) :=
  {| heap := heap e; nextId := nextId e; timers := f (timers e);
     threads := threads e; readyQueue := readyQueue e;
     blockedQueue := blockedQueue e;
     terminatedThreads := terminatedThreads e; cpuCores := cpuCores e;
     semaphores := semaphores e; monitors := monitors e;
     scheduler := scheduler e; clockTick := clockTick e;
     isRunning := isRunning e; threadingModel := threadingModel e;
     userThreadCount := userThreadCount e;
     kernelThreadCount := kernelThreadCount e; eventLog := eventLog e |}.

Definition set_threads (f : list ref → list ref) (e : SimulationEngine) :=
  {| heap := heap e; nextId := nextId e; timers := timers e;
     threads := f (threads e); readyQueue := readyQueue e;
     blockedQueue := blockedQueue e;
     terminatedThreads := terminatedThreads e; cpuCores := cpuCores e;
     semaphores := semaphores e; monitors := monitors e;
     scheduler := scheduler e; clockTick := clockTick e;
     isRunning := isRunning e; threadingModel := threadingModel e;
     userThreadCount := userThreadCount e;
     kernelThreadCount := kernelThreadCount e; eventLog := eventLog e |}.

Definition set_readyQueue (f : list ref → list ref) (e : SimulationEngine) :=
  {| heap := heap e; nextId := nextId e; timers := timers e;
     threads := threads e; readyQueue := f (readyQueue e);
     blockedQueue := blockedQueue e;
     terminatedThreads := terminatedThreads e; cpuCores := cpuCores e;
     semaphores := semaphores e; monitors := monitors e;
     scheduler := scheduler e; clockTick := clockTick e;
     isRunning := isRunning e; threadingModel := threadingModel e;
     userThreadCount := userThreadCount e;
     kernelThreadCount := kernelThreadCount e; eventLog := eventLog e |}.

Definition set_blockedQueue (f : list ref → list ref) (e : SimulationEngine) :=
  {| heap := heap e; nextId := nextId e; timers := timers e;
     threads := threads e; readyQueue := readyQueue e;
     blockedQueue := f (blockedQueue e);
     terminatedThreads := terminatedThreads e; cpuCores := cpuCores e;
     semaphores := semaphores e; monitors := monitors e;
     scheduler := scheduler e; clockTick := clockTick e;
     isRunning := isRunning e; threadingModel := threadingModel e;
     userThreadCount := userThreadCount e;
     kernelThreadCount := kernelThreadCount e; eventLog := eventLog e |}.

Definition set_terminatedThreads (f : list ref → list ref)
    (e : SimulationEngine) :=
  {| heap := heap e; nextId := nextId e; timers := timers e;
     threads := threads e; readyQueue := readyQueue e;
     blockedQueue := blockedQueue e;
     terminatedThreads := f (terminatedThreads e); cpuCores := cpuCores e;
     semaphores := semaphores e; monitors := monitors e;
     scheduler := scheduler e; clockTick := clockTick e;
     isRunning := isRunning e; threadingModel := threadingModel e;
     userThreadCount := userThreadCount e;
     kernelThreadCount := kernelThreadCount e; eventLog := eventLog e |}.

Definition set_cpuCores (f : list CPUCore.t → list CPUCore.t)
    (e : SimulationEngine) :=
  {| heap := heap e; nextId := nextId e; timers := timers e;
     threads := threads e; readyQueue := readyQueue e;
     blockedQueue := blockedQueue e;
     terminatedThreads := terminatedThreads e; cpuCores := f (cpuCores e);
     semaphores := semaphores e; monitors := monitors e;
     scheduler := scheduler e; clockTick := clockTick e;
     isRunning := isRunning e; threadingModel := threadingModel e;
     userThreadCount := userThreadCount e;
     kernelThreadCount := kernelThreadCount e; eventLog := eventLog e |}.

Definition set_semaphores
    (f : gmap string Semaphore.t → gmap string Semaphore.t)
    (e : SimulationEngine) :=
  {| heap := heap e; nextId := nextId e; timers := timers e;
     threads := threads e; readyQueue := readyQueue e;
     blockedQueue := blockedQueue e;
     terminatedThreads := terminatedThreads e; cpuCores := cpuCores e;
     semaphores := f (semaphores e); monitors := monitors e;
     scheduler := scheduler e; clockTick := clockTick e;
     isRunning := isRunning e; threadingModel := threadingModel e;
     userThreadCount := userThreadCount e;
     kernelThreadCount := kernelThreadCount e; eventLog := eventLog e |}.

Definition set_monitors
    (f : gmap string Monitor.t → gmap string Monitor.t)
    (e : SimulationEngine) :=
  {| heap := heap e; nextId := nextId e; timers := timers e;
     threads := threads e; readyQueue := readyQueue e;
     blockedQueue := blockedQueue e;
     terminatedThreads := terminatedThreads e; cpuCores := cpuCores e;
     semaphores := semaphores e; monitors := f (monitors e);
     scheduler := scheduler e; clockTick := clockTick e;
     isRunning := isRunning e; threadingModel := threadingModel e;
     userThreadCount := userThreadCount e;
     kernelThreadCount := kernelThreadCount e; eventLog := eventLog e |}.

Definition set_clockTick (f : Z → Z) (e : SimulationEngine) :=
  {| heap := heap e; nextId := nextId e; timers := timers e;
     threads := threads e; readyQueue := readyQueue e;
     blockedQueue := blockedQueue e;
     terminatedThreads := terminatedThreads e; cpuCores := cpuCores e;
     semaphores := semaphores e; monitors := monitors e;
     scheduler := scheduler e; clockTick := f (clockTick e);
     isRunning := isRunning e; threadingModel := threadingModel e;
     userThreadCount := userThreadCount e;
     kernelThreadCount := kernelThreadCount e; eventLog := eventLog e |}.

Definition set_userThreadCount (f : Z → Z) (e : SimulationEngine) :=
  {| heap := heap e; nextId := nextId e; timers := timers e;
     threads := threads e; readyQueue := readyQueue e;
     blockedQueue := blockedQueue e;
     terminatedThreads := terminatedThreads e; cpuCores := cpuCores e;
     semaphores := semaphores e; monitors := monitors e;
     scheduler := scheduler e; clockTick := clockTick e;
     isRunning := isRunning e; threadingModel := threadingModel e;
     userThreadCount := f (userThreadCount e);
     kernelThreadCount := kernelThreadCount e; eventLog := eventLog e |}.

Definition set_kernelThreadCount (f : Z → Z) (e : SimulationEngine) :=
  {| heap := heap e; nextId := nextId e; timers := timers e;
     threads := threads e; readyQueue := readyQueue e;
     blockedQueue := blockedQueue e;
     terminatedThreads := terminatedThreads e; cpuCores := cpuCores e;
     semaphores := semaphores e; monitors := monitors e;
     scheduler := scheduler e; clockTick := clockTick e;
     isRunning := isRunning e; threadingModel := threadingModel e;
     userThreadCount := userThreadCount e;
     kernelThreadCount := f (kernelThreadCount e); eventLog := eventLog e |}.

Definition set_eventLog (f : list LogEntry → list LogEntry)
    (e : SimulationEngine) :=
  {| heap := heap e; nextId := nextId e; timers := timers e;
     threads := threads e; readyQueue := readyQueue e;
     blockedQueue := blockedQueue e;
     terminatedThreads := terminatedThreads e; cpuCores := cpuCores e;
     semaphores := semaphores e; monitors := monitors e;
     scheduler := scheduler e; clockTick := clockTick e;
     isRunning := isRunning e; threadingModel := threadingModel e;
     userThreadCount := userThreadCount e;
     kernelThreadCount := kernelThreadCount e; eventLog := f (eventLog e) |}.

End Setters.

(** ** Computations of the engine

    A method either returns a value in a new engine state or throws (a
    TypeError, raised by reading or writing a field of an absent object) and
    leaves the state as it was at that point. *)

Inductive Res (A : Type) :=
  | Ok (a : A) (e : SimulationEngine)
  | Throw (e : SimulationEngine).
Arguments Ok {A} a e.
Arguments Throw {A} e.

Definition M (A : Type) : Type := SimulationEngine → Res A.

Definition ret {A} (a : A) : M A := λ e, Ok a e.

Definition bind {A B} (m : M A) (k : A → M B) : M B :=
  λ e, match m e with
       | Ok a e' => k a e'
       | Throw e' => Throw e'
       end.

Definition throw {A} : M A := λ e, Throw e.
Definition gets {A} (f : SimulationEngine → A) : M A := λ e, Ok (f e) e.
Definition modify (f : SimulationEngine → SimulationEngine) : M unit :=
  λ e, Ok () (f e).

Declare Scope engine_scope.
Delimit Scope engine_scope with M.
Notation "'let*' x := m 'in' k" := (bind m (λ x, k))
  (at level 10, x pattern, m at level 100, k at level 200) : engine_scope.
Notation "m ;; k" := (bind m (λ _, k))
  (at level 100, k at level 200, right associativity) : engine_scope.
Local Open Scope engine_scope.

(** The state a computation ends in, also when it throws. *)
Definition final {A} (r : Res A) : SimulationEngine :=
  match r with Ok _ e => e | Throw e => e end.

Definition threw {A} (r : Res A) : bool :=
  match r with Ok _ _ => false | Throw _ => true end.

(** [list.forEach(f)] *)
Fixpoint forEach {A} (l : list A) (f : A → M unit) : M unit :=
  match l with
  | [] => ret ()
  | x :: l' => f x ;; forEach l' f
  end.

Definition when (b : bool) (m : M unit) : M unit := if b then m else ret ().

(** Reading a thread object through a reference. *)
Definition deref (r : ref) : M Thread.t :=
  λ e, match heap e !! r with
       | Some th => Ok th e
       | None => Throw e
       end.

(** A method call or field assignment on a thread object. *)
Definition update (r : ref) (f : Thread.t → Thread.t) : M unit :=
  let* th := deref r in modify (set_heap (λ h, <[r := f th]> h)).

Definition getCore (i : nat) : M CPUCore.t :=
  λ e, match cpuCores e !! i with
       | Some c => Ok c e
       | None => Throw e
       end.

Definition setCore (i : nat) (c : CPUCore.t) : M unit :=
  modify (set_cpuCores (λ cs, <[i := c]> cs)).

(** [log(message, level)]; the wall-clock [timestamp] field is left out. *)
Definition log (message level : string) : M unit :=
  modify (λ e, set_eventLog
    (λ l, l ++ [{| tick_ := clockTick e; message := message; level := level |}]) e).

(** [new SimulationEngine()], in a world with no thread object yet. *)
Definition newEngine : SimulationEngine :=
  {| heap := []; nextId := 1; timers := [];
     threads := []; readyQueue := []; blockedQueue := [];
     terminatedThreads := []; cpuCores := [];
     semaphores := ∅; monitors := ∅;
     scheduler := {| Scheduler.algorithm := "round-robin";
                     Scheduler.timeQuantum := 3 |};
     clockTick := 0; isRunning := false; threadingModel := "one-to-one";
     userThreadCount := 0; kernelThreadCount := 0; eventLog := [] |}.

(** [reset()]: thread objects and pending timer callbacks outlive it. *)
Definition reset : M unit :=
  modify (λ e,
    {| heap := heap e; nextId := 1; timers := timers e;
       threads := []; readyQueue := []; blockedQueue := [];
       terminatedThreads := []; cpuCores := [];
       semaphores := ∅; monitors := ∅;
       scheduler := scheduler e;
       clockTick := 0; isRunning := false;
       threadingModel := threadingModel e;
       userThreadCount := 0; kernelThreadCount := 0; eventLog := [] |}).

Definition initialize (numCores : nat) (schedulingAlgo : string)
    (timeQuantum : Z) (threadingModel' : string) : M unit :=
  reset ;;
  modify (λ e,
    {| heap := heap e; nextId := nextId e; timers := timers e;
       threads := threads e; readyQueue := readyQueue e;
       blockedQueue := blockedQueue e;
       terminatedThreads := terminatedThreads e;
       cpuCores := (λ i, CPUCore.make (Z.of_nat i)) <$> seq 0 numCores;
       semaphores := semaphores e; monitors := monitors e;
       scheduler := {| Scheduler.algorithm := schedulingAlgo;
                       Scheduler.timeQuantum := timeQuantum |};
       clockTick := clockTick e; isRunning := isRunning e;
       threadingModel := threadingModel';
       userThreadCount := userThreadCount e;
       kernelThreadCount := kernelThreadCount e; eventLog := eventLog e |}) ;;
  log ("Initialized with " +:+ pretty numCores +:+ " cores, " +:+ schedulingAlgo
       +:+ " scheduling, " +:+ threadingModel' +:+ " model") "info".

(** [new Thread(name, priority, instructions)]: a fresh object in the store. *)
Definition newThread (name : option string) (priority : Z)
    (instructions : list Instruction) : M ref :=
  let* i := gets nextId in
  modify (set_nextId (λ n, n + 1)) ;;
  let* r := gets (λ e, length (heap e)) in
  modify (set_heap (λ h, h ++ [Thread.make i name priority instructions])) ;;
  ret r.

Definition mapThreadToKernel (thread : ref) : M unit :=
  let* model := gets threadingModel in
  if decide (model = "one-to-one") then
    modify (set_kernelThreadCount (λ k, k + 1)) ;;
    let* k := gets kernelThreadCount in
    update thread (Thread.set_kernelThreadId (Some k))
  else if decide (model = "many-to-one") then
    let* k := gets kernelThreadCount in
    when (bool_decide (k = 0)) (modify (set_kernelThreadCount (λ _, 1))) ;;
    update thread (Thread.set_kernelThreadId (Some 1))
  else if decide (model = "many-to-many") then
    let* u := gets userThreadCount in
    let* n := gets (λ e, length (cpuCores e)) in
    (* with no core the remainder is NaN, and [NaN > k] is false *)
    if decide (n = 0%nat) then update thread (Thread.set_kernelThreadId None)
    else
      let kid := u `mod` Z.of_nat n + 1 in
      update thread (Thread.set_kernelThreadId (Some kid)) ;;
      let* k := gets kernelThreadCount in
      when (bool_decide (k < kid)) (modify (set_kernelThreadCount (λ _, kid)))
  else ret ().

Definition moveToReady (thread : ref) : M unit :=
  update thread (Thread.setState READY) ;;
  modify (set_readyQueue (λ q, q ++ [thread])) ;;
  let* th := deref thread in
  log ("Thread " +:+ Thread.name th +:+ " moved to READY queue") "info".

Definition moveToBlocked (thread : ref) (reason : string) : M unit :=
  update thread (Thread.setState BLOCKED) ;;
  let* bq := gets blockedQueue in
  when (negb (bool_decide (thread ∈ bq)))
       (modify (set_blockedQueue (λ q, q ++ [thread]))) ;;
  let* th := deref thread in
  log ("Thread " +:+ Thread.name th +:+ " blocked (" +:+ reason +:+ ")") "warning".

Definition moveToTerminated (thread : ref) : M unit :=
  update thread (Thread.setState TERMINATED) ;;
  let* c := gets clockTick in
  update thread (Thread.set_completion c) ;;
  modify (set_terminatedThreads (λ q, q ++ [thread])) ;;
  let* th := deref thread in
  log ("Thread " +:+ Thread.name th +:+ " terminated (Turnaround: "
       +:+ pretty (Thread.turnaroundTime th) +:+ ")") "success".

(** The callback that [addThread] hands to [setTimeout]. *)
Definition timeoutCallback (thread : ref) : M unit :=
  let* th := deref thread in
  if decide (Thread.state th = NEW) then moveToReady thread else ret ().

(** [addThread(thread)]; [setTimeout] registers the callback, to be run by the
    event loop when the delay has passed in real time. *)
Definition addThread (thread : ref) : M unit :=
  let* c := gets clockTick in
  update thread (Thread.set_arrivalTime c) ;;
  modify (set_threads (λ l, l ++ [thread])) ;;
  modify (set_userThreadCount (λ n, n + 1)) ;;
  mapThreadToKernel thread ;;
  update thread (Thread.setState NEW) ;;
  let* th := deref thread in
  log ("Thread " +:+ Thread.name th +:+ " created (Priority: "
       +:+ pretty (Thread.priority th) +:+ ", Burst: "
       +:+ pretty (Thread.burstTime th) +:+ ")") "success" ;;
  modify (set_timers (λ l, l ++ [thread])).

(** The event loop runs the oldest pending timer callback. *)
Definition fireTimer : M unit :=
  let* ts := gets timers in
  match ts with
  | [] => ret ()
  | thread :: rest => modify (set_timers (λ _, rest)) ;; timeoutCallback thread
  end.

Definition addSemaphore (name : string) (initialValue : Z) : M unit :=
  modify (set_semaphores (λ m, <[name := Semaphore.make name initialValue]> m)) ;;
  log ("Semaphore " +:+ name +:+ " created (Initial value: "
       +:+ pretty initialValue +:+ ")") "info".

Definition addMonitor (name : string) : M unit :=
  modify (set_monitors (λ m, <[name := Monitor.make name]> m)) ;;
  log ("Monitor " +:+ name +:+ " created") "info".

(** [cpuCores.find(c => c.currentThread === thread)] followed by
    [if (core) core.releaseThread()]. *)
Definition releaseCoreOf (thread : ref) : M unit :=
  let* cores := gets cpuCores in
  match list_find (λ c, CPUCore.currentThread c = Some thread) cores with
  | Some (i, core) => setCore i (CPUCore.releaseThread core).2
  | None => ret ()
  end.

(** [index = blockedQueue.indexOf(thread); if (index > -1) splice(index, 1)] *)
Definition removeFromBlocked (thread : ref) : M unit :=
  modify (set_blockedQueue (λ q,
    match list_find (λ x, x = thread) q with
    | Some (index, _) => delete index q
    | None => q
    end)).

(** [this.semaphores.get(instruction.resource)] *)
Definition getSemaphore (instruction : Instruction) : M (option Semaphore.t) :=
  gets (λ e, r ← resource instruction; semaphores e !! r).

Definition getMonitor (instruction : Instruction) : M (option Monitor.t) :=
  gets (λ e, r ← resource instruction; monitors e !! r).

(** The object found by [get] is changed in place: the registry entry under
    the instruction's resource name takes the new contents. *)
Definition putSemaphore (instruction : Instruction) (s : Semaphore.t) : M unit :=
  match resource instruction with
  | Some r => modify (set_semaphores (λ m, <[r := s]> m))
  | None => ret ()
  end.

Definition putMonitor (instruction : Instruction) (m : Monitor.t) : M unit :=
  match resource instruction with
  | Some r => modify (set_monitors (λ ms, <[r := m]> ms))
  | None => ret ()
  end.

(** The shared tail of the signalling cases: take the released thread out of
    the blocked queue and make it ready. *)
Definition unblock (unblockedThread : ref) : M unit :=
  removeFromBlocked unblockedThread ;;
  moveToReady unblockedThread.

Definition threadName (thread : ref) : M string :=
  let* th := deref thread in ret (Thread.name th).

Definition executeInstruction (thread : ref) (instruction : Instruction)
    : M unit :=
  match type instruction with
  | compute => ret ()
  | wait =>
      let* found := getSemaphore instruction in
      match found with
      | Some semaphore =>
          let '(proceed, semaphore') := Semaphore.wait thread semaphore in
          putSemaphore instruction semaphore' ;;
          if negb proceed then
            releaseCoreOf thread ;;
            moveToBlocked thread
              ("Waiting on semaphore " +:+ Semaphore.name semaphore)
          else
            let* n := threadName thread in
            log ("Thread " +:+ n +:+ " acquired semaphore "
                 +:+ Semaphore.name semaphore) "success"
      | None => ret ()
      end
  | signal =>
      let* found := getSemaphore instruction in
      match found with
      | Some signalSem =>
          let '(unblockedThread, signalSem') := Semaphore.signal signalSem in
          putSemaphore instruction signalSem' ;;
          match unblockedThread with
          | Some u =>
              unblock u ;;
              let* un := threadName u in
              let* n := threadName thread in
              log ("Thread " +:+ un +:+ " unblocked by " +:+ n) "success"
          | None => ret ()
          end ;;
          let* n := threadName thread in
          log ("Thread " +:+ n +:+ " signaled semaphore "
               +:+ Semaphore.name signalSem) "info"
      | None => ret ()
      end
  | enter_monitor =>
      let* found := getMonitor instruction in
      match found with
      | Some monitor =>
          let '(entered, monitor') := Monitor.enter thread monitor in
          putMonitor instruction monitor' ;;
          if negb entered then
            releaseCoreOf thread ;;
            moveToBlocked thread
              ("Waiting to enter monitor " +:+ Monitor.name monitor)
          else
            let* n := threadName thread in
            log ("Thread " +:+ n +:+ " entered monitor "
                 +:+ Monitor.name monitor) "success"
      | None => ret ()
      end
  | exit_monitor =>
      let* found := getMonitor instruction in
      match found with
      | Some exitMonitor =>
          let '((nextThread, _), exitMonitor') := Monitor.exit exitMonitor in
          putMonitor instruction exitMonitor' ;;
          match nextThread with
          | Some nt =>
              unblock nt ;;
              let* n := threadName nt in
              log ("Thread " +:+ n +:+ " entered monitor "
                   +:+ Monitor.name exitMonitor) "success"
          | None => ret ()
          end ;;
          let* n := threadName thread in
          log ("Thread " +:+ n +:+ " exited monitor "
               +:+ Monitor.name exitMonitor) "info"
      | None => ret ()
      end
  | monitor_wait =>
      let* found := getMonitor instruction in
      match found with
      | Some waitMonitor =>
          let '((nextThread, currentBlocked), waitMonitor') :=
            Monitor.wait thread waitMonitor in
          putMonitor instruction waitMonitor' ;;
          when currentBlocked
            (releaseCoreOf thread ;;
             moveToBlocked thread
               ("Waiting on condition in monitor " +:+ Monitor.name waitMonitor)) ;;
          match nextThread with
          | Some nt => unblock nt
          | None => ret ()
          end
      | None => ret ()
      end
  | monitor_signal =>
      let* found := getMonitor instruction in
      match found with
      | Some signalMonitor =>
          let '(unblockedThread, signalMonitor') :=
            Monitor.signal signalMonitor in
          putMonitor instruction signalMonitor' ;;
          match unblockedThread with
          | Some u =>
              unblock u ;;
              let* un := threadName u in
              log ("Thread " +:+ un +:+ " signaled in monitor "
                   +:+ Monitor.name signalMonitor) "success"
          | None => ret ()
          end
      | None => ret ()
      end
  end.

(** [thread.execute()] on the object in the store. *)
Definition execute (thread : ref) : M (option Instruction) :=
  let* th := deref thread in
  let '(result, th') := Thread.execute th in
  modify (set_heap (λ h, <[thread := th']> h)) ;;
  ret result.

(** [core.releaseThread()] on core [i]. *)
Definition releaseThread (i : nat) : M (option ref) :=
  let* core := getCore i in
  let '(thread, core') := CPUCore.releaseThread core in
  setCore i core' ;;
  ret thread.

(** [core.assignThread(thread)] on core [i]. *)
Definition assignThread (i : nat) (thread : ref) : M unit :=
  let* core := getCore i in
  setCore i (CPUCore.assignThread thread core) ;;
  update thread (Thread.setState RUNNING).

(** The body of the first [cpuCores.forEach] of [tick], for core [i]. *)
Definition runCore (i : nat) : M unit :=
  let* core := getCore i in
  setCore i (CPUCore.tick core) ;;
  let* core := getCore i in
  match CPUCore.isIdle core, CPUCore.currentThread core with
  | false, Some thread =>
      let* result := execute thread in
      match result with
      | Some instruction => executeInstruction thread instruction
      | None => ret ()
      end ;;
      let* th := deref thread in
      let* sched := gets scheduler in
      if bool_decide (result = None) || Thread.isComplete th then
        releaseThread i ;;
        moveToTerminated thread
      else if Scheduler.shouldPreempt sched th then
        let* released := releaseThread i in
        match released with
        | Some preemptedThread =>
            update preemptedThread (Thread.set_quantum 0) ;;
            moveToReady preemptedThread ;;
            let* n := threadName preemptedThread in
            log ("Thread " +:+ n +:+ " preempted") "info"
        | None => throw   (* [preemptedThread.quantum = 0] on [null] *)
        end
      else ret ()
  | _, _ => ret ()
  end.

(** The indices of [cpuCores.filter(core => core.isIdle)]. *)
Definition availableCores (cores : list CPUCore.t) : list nat :=
  (filter (λ ic, CPUCore.isIdle ic.2 = true) (imap (λ i c, (i, c)) cores)).*1.

(** The many-to-one block of [tick]: every available core after the first
    is assigned [isIdle = true]. *)
Definition manyToOne : M unit :=
  let* model := gets threadingModel in
  if decide (model = "many-to-one") then
    let* cores := gets cpuCores in
    let available := availableCores cores in
    when (bool_decide (1 < length available)%nat)
      (forEach (drop 1 available) (λ i,
         let* core := getCore i in
         setCore i (CPUCore.set_isIdle true core)))
  else ret ().

(** The body of the second [cpuCores.forEach] of [tick], for core [i]. *)
Definition dispatchCore (i : nat) : M unit :=
  let* core := getCore i in
  let* rq := gets readyQueue in
  if CPUCore.isIdle core && bool_decide (0 < length rq)%nat then
    let* sched := gets scheduler in
    let* h := gets heap in
    match Scheduler.selectNextThread sched h rq with
    | Some (selected, rq') =>
        modify (set_readyQueue (λ _, rq')) ;;
        match selected with
        | Some thread =>
            update thread (Thread.set_quantum 0) ;;
            assignThread i thread ;;
            let* n := threadName thread in
            let* core := getCore i in
            log ("Thread " +:+ n +:+ " assigned to Core "
                 +:+ pretty (CPUCore.id core)) "info"
        | None => ret ()
        end
    | None => throw
    end
  else ret ().

Definition tick : M unit :=
  modify (set_clockTick (λ c, c + 1)) ;;
  let* ts := gets threads in
  forEach ts (λ thread, update thread Thread.tick) ;;
  let* n := gets (λ e, length (cpuCores e)) in
  forEach (seq 0 n) runCore ;;
  manyToOne ;;
  forEach (seq 0 n) dispatchCore.

(** ** Calls made on the engine by its drivers and by the event loop *)

Inductive Op :=
  | OpInitialize (numCores : nat) (schedulingAlgo : string)
                 (timeQuantum : Z) (threadingModel : string)
  | OpAddThread (name : option string) (priority : Z)
                (instructions : list Instruction)
  | OpAddSemaphore (name : string) (initialValue : Z)
  | OpAddMonitor (name : string)
  | OpTick
  | OpTimeout.

(** One call.  [OpAddThread] is [engine.addThread(new Thread(...))], as every
    caller writes it; [OpTimeout] is the event loop running the oldest pending
    timer callback. *)
Definition run (o : Op) : M unit :=
  match o with
  | OpInitialize n a q m => initialize n a q m
  | OpAddThread name priority instructions =>
      let* thread := newThread name priority instructions in addThread thread
  | OpAddSemaphore name v => addSemaphore name v
  | OpAddMonitor name => addMonitor name
  | OpTick => tick
  | OpTimeout => fireTimer
  end.

(** A driver goes on calling after a call has thrown, from the state reached. *)
Definition runAll (os : list Op) (e : SimulationEngine) : SimulationEngine :=
  foldl (λ e o, final (run o e)) e os.

(** The states that calls can reach from a new engine, those left by a call
    that threw included. *)
Inductive reachable : SimulationEngine → Prop :=
  | reachable_new : reachable newEngine
  | reachable_run o e : reachable e → reachable (final (run o e)).

(** * Semaphores on their own: sequences of [wait] and [signal] *)

Inductive SemOp := SemWait (thread : ref) | SemSignal.

Definition semStep (s : Semaphore.t) (o : SemOp) : Semaphore.t :=
  match o with
  | SemWait thread => (Semaphore.wait thread s).2
  | SemSignal => (Semaphore.signal s).2
  end.

Definition semRun (os : list SemOp) (s : Semaphore.t) : Semaphore.t :=
  foldl semStep s os.

(** [waitQueue.length == max(0, -value)] *)
Definition sem_balanced (s : Semaphore.t) : Prop :=
  Z.of_nat (length (Semaphore.waitQueue s)) = Z.max 0 (- Semaphore.value s).

(** * The priority case of [selectNextThread] *)

(** [hi] is the first index among the first [k] of the queue with the
    greatest priority. *)
Definition first_max (heap : list Thread.t) (readyQueue : list ref)
    (k hi : nat) : Prop :=
  (hi < k)%nat ∧
  ∃ p, Scheduler.priorityAt heap readyQueue hi = Some p ∧
    ∀ j pj, (j < k)%nat → Scheduler.priorityAt heap readyQueue j = Some pj →
      pj ≤ p ∧ ((j < hi)%nat → pj < p).

(** The priority of the thread behind a reference. *)
Definition priorityOf (heap : list Thread.t) (r : ref) : option Z :=
  Thread.priority <$> heap !! r.

(** The state of the thread behind a reference. *)
Definition stateOf (e : SimulationEngine) (r : ref) : option ThreadState :=
  Thread.state <$> heap e !! r.

(** * Instructions that name no registered primitive *)

Definition unknownResource (e : SimulationEngine) (instruction : Instruction)
    : Prop :=
  match type instruction with
  | compute => False
  | wait | signal =>
      (r ← resource instruction; semaphores e !! r) = None
  | enter_monitor | exit_monitor | monitor_wait | monitor_signal =>
      (r ← resource instruction; monitors e !! r) = None
  end.

(** * Scenarios *)

Definition computeI : Instruction := {| type := compute; resource := None |}.
Definition instr (t : InstrType) (r : string) : Instruction :=
  {| type := t; resource := Some r |}.

(** The cores that are not idle. *)
Definition busyCores (e : SimulationEngine) : list CPUCore.t :=
  filter (λ c, CPUCore.isIdle c = false) (cpuCores e).

(** Four cores under the many-to-one model, two ready threads. *)
Definition manyToOneCalls : list Op :=
  [ OpInitialize 4 "round-robin" 3 "many-to-one";
    OpAddThread (Some "A") 5 [computeI; computeI; computeI];
    OpAddThread (Some "B") 5 [computeI; computeI; computeI];
    OpTimeout; OpTimeout ].

(** One core, round-robin with quantum 1, a thread that waits on a semaphore
    of value 0 and has more to do afterwards; the thread has been dispatched. *)
Definition blockAtQuantumCalls : list Op :=
  [ OpInitialize 1 "round-robin" 1 "one-to-one";
    OpAddSemaphore "s" 0;
    OpAddThread (Some "A") 5 [instr wait "s"; computeI];
    OpTimeout; OpTick ].

(** One core, first come first served; thread A ends on a [wait] that blocks,
    thread B signals the semaphore later. *)
Definition blockOnLastCalls : list Op :=
  [ OpInitialize 1 "fcfs" 3 "one-to-one";
    OpAddSemaphore "s" 0;
    OpAddThread (Some "A") 5 [instr wait "s"];
    OpAddThread (Some "B") 5 [computeI; instr signal "s"; computeI];
    OpTimeout; OpTimeout; OpTick; OpTick; OpTick ].

(** One core; the dispatched thread names a semaphore that was never added. *)
Definition unknownNameEngine : SimulationEngine :=
  runAll [ OpInitialize 1 "round-robin" 3 "one-to-one";
           OpAddThread (Some "A") 5 [instr signal "nosuch"; computeI];
           OpTimeout; OpTick ] newEngine.

(** One core, round-robin with quantum 2; the thread has been dispatched and
    has run for one tick. *)
Definition rrEngine : SimulationEngine :=
  runAll [ OpInitialize 1 "round-robin" 2 "one-to-one";
           OpAddThread (Some "A") 5 [computeI; computeI; computeI; computeI];
           OpTimeout; OpTick; OpTick ] newEngine.

(** One core, first come first served; thread A is blocked in the wait queue
    of semaphore "s". *)
Definition strandedEngine : SimulationEngine :=
  runAll [ OpInitialize 1 "fcfs" 3 "one-to-one";
           OpAddSemaphore "s" 0;
           OpAddThread (Some "A") 5 [instr wait "s"; computeI];
           OpTimeout; OpTick; OpTick ] newEngine.

(** * Admission *)

(** The reading of "the thread becomes ready after a fixed delay [d] of the
    simulated clock": whatever was called before and after the admission, the
    thread is still [NEW] exactly while the clock is less than [d] past its
    arrival. *)
Definition admitted_by_clock (d : Z) : Prop :=
  ∀ (before : list Op) name priority instructions (after : list Op),
    let e0 := runAll before newEngine in
    let e := runAll (OpAddThread name priority instructions :: after) e0 in
    ∀ th, heap e !! length (heap e0) = Some th →
      Thread.state th = NEW ↔ clockTick e < Thread.arrivalTime th + d.

(** * Reasoning about computations *)

(** [wp m Q E e]: run from [e], the computation [m] either returns a value and
    a state that satisfy [Q], or throws in a state that satisfies [E]. *)
Definition wp {A} (m : M A) (Q : A → SimulationEngine → Prop)
    (E : SimulationEngine → Prop) (e : SimulationEngine) : Prop :=
  match m e with
  | Ok a e' => Q a e'
  | Throw e' => E e'
  end.

(** [m] keeps the property [I] of the state, whether it returns or throws. *)
Definition pres {A} (I : SimulationEngine → Prop) (m : M A) : Prop :=
  ∀ e, I e → wp m (λ _, I) I e.

(** * What can happen to a thread object

    [thread_step th th']: the instruction sequence and the burst time are
    kept, the cursor does not go back, and the remaining time goes down by as
    much as the cursor goes up. *)
Definition thread_step (th th' : Thread.t) : Prop :=
  Thread.instructions th' = Thread.instructions th ∧
  Thread.burstTime th' = Thread.burstTime th ∧
  (Thread.currentInstruction th ≤ Thread.currentInstruction th')%nat ∧
  Thread.remainingTime th' + Z.of_nat (Thread.currentInstruction th')
    = Thread.remainingTime th + Z.of_nat (Thread.currentInstruction th).

(** [remainingTime + currentInstruction == burstTime] *)
Definition balanced (th : Thread.t) : Prop :=
  Thread.remainingTime th + Z.of_nat (Thread.currentInstruction th)
    = Thread.burstTime th.

Definition all_balanced (h : list Thread.t) : Prop :=
  ∀ r th, h !! r = Some th → balanced th.

(** Every object of [h] is still there in [h'], after a [thread_step]. *)
Definition heap_le (h h' : list Thread.t) : Prop :=
  ∀ r th, h !! r = Some th → ∃ th', h' !! r = Some th' ∧ thread_step th th'.

(** The parts of the state that [tick] leaves as they are. *)
Definition same_config (e e' : SimulationEngine) : Prop :=
  scheduler e' = scheduler e ∧
  threadingModel e' = threadingModel e ∧
  timers e' = timers e ∧
  threads e' = threads e ∧
  nextId e' = nextId e ∧
  length (cpuCores e') = length (cpuCores e).

(** The fields of a thread that only [execute] and the dispatcher write. *)
Definition same_work (th th' : Thread.t) : Prop :=
  Thread.instructions th' = Thread.instructions th ∧
  Thread.currentInstruction th' = Thread.currentInstruction th ∧
  Thread.quantum th' = Thread.quantum th.

(** * Threads that nothing refers to

    [unreferenced T e]: thread [T] is in no place from which the engine takes
    a thread to change its state: not in the ready queue, not the subject of
    a pending timer callback, on no core, and in no queue of a registered
    semaphore or monitor. *)
Definition unreferenced (T : ref) (e : SimulationEngine) : Prop :=
  (T ∉ readyQueue e) ∧
  (T ∉ timers e) ∧
  (∀ c, c ∈ cpuCores e → CPUCore.currentThread c ≠ Some T) ∧
  (∀ n s, semaphores e !! n = Some s → T ∉ Semaphore.waitQueue s) ∧
  (∀ n m, monitors e !! n = Some m →
     (T ∉ Monitor.entryQueue m) ∧ (T ∉ Monitor.conditionQueue m)).

(** [st] is the state of [T] ([None] when [T] is not allocated yet), and
    nothing refers to [T]. *)
Definition frozen (T : ref) (st : option ThreadState) (e : SimulationEngine)
    : Prop :=
  stateOf e T = st ∧ unreferenced T e.

(** * The places that hold a thread

    The multiset of references held by the ready queue, the pending timer
    callbacks, the cores and the queues of the registered semaphores and
    monitors. *)
Definition coresM (cs : list CPUCore.t) : gmultiset nat :=
  list_to_set_disj (omap CPUCore.currentThread cs).

(** The union of [g v] over the values [v] of a registry. *)
Definition foldM {V} (g : V → gmultiset nat) (m : gmap string V)
    : gmultiset nat :=
  map_fold (λ _ v acc, g v ⊎ acc) ∅ m.

Definition semQueue (s : Semaphore.t) : gmultiset nat :=
  list_to_set_disj (Semaphore.waitQueue s).

Definition monQueues (m : Monitor.t) : gmultiset nat :=
  list_to_set_disj (Monitor.entryQueue m)
  ⊎ list_to_set_disj (Monitor.conditionQueue m).

Definition semsM (m : gmap string Semaphore.t) : gmultiset nat :=
  foldM semQueue m.

Definition monsM (m : gmap string Monitor.t) : gmultiset nat :=
  foldM monQueues m.

(** The thread of an optional reference, as a multiset. *)
Definition optM (r : option ref) : gmultiset nat :=
  list_to_set_disj (option_list r).

Definition places (e : SimulationEngine) : gmultiset nat :=
  list_to_set_disj (readyQueue e) ⊎ list_to_set_disj (timers e)
  ⊎ coresM (cpuCores e) ⊎ semsM (semaphores e) ⊎ monsM (monitors e).

(** Every thread is in at most one place. *)
Definition one_place (e : SimulationEngine) : Prop :=
  ∀ T, (multiplicity T (places e) ≤ 1)%nat.

(** The fields that [places] reads are the same in both states. *)
Definition same_places (e e' : SimulationEngine) : Prop :=
  readyQueue e' = readyQueue e ∧ timers e' = timers e ∧
  cpuCores e' = cpuCores e ∧ semaphores e' = semaphores e ∧
  monitors e' = monitors e.

(** The same but for [x] appended to the ready queue. *)
Definition pushed (x : ref) (e e' : SimulationEngine) : Prop :=
  readyQueue e' = readyQueue e ++ [x] ∧ timers e' = timers e ∧
  cpuCores e' = cpuCores e ∧ semaphores e' = semaphores e ∧
  monitors e' = monitors e.

(** * Quantum counters of the threads on cores

    [quantum_bound Q ox h cs]: every thread on a core of [cs] has a counter
    below [Q]; the thread [ox] (the one a core is executing right now) may
    have a counter equal to [Q]. *)
Definition quantum_bound (Q : Z) (ox : option ref)
    (h : list Thread.t) (cs : list CPUCore.t) : Prop :=
  ∀ c y th, c ∈ cs → CPUCore.currentThread c = Some y → h !! y = Some th →
    Thread.quantum th < Q ∨ (ox = Some y ∧ Thread.quantum th ≤ Q).

(** No core but core [i] holds thread [x]. *)
Definition only_on (i : nat) (x : ref) (cs : list CPUCore.t) : Prop :=
  ∀ j c, cs !! j = Some c → CPUCore.currentThread c = Some x → j = i.

(** Between calls, under round-robin with a positive quantum, the counter of
    every thread on a core is below the quantum. *)
Definition within_quantum (e : SimulationEngine) : Prop :=
  Scheduler.algorithm (scheduler e) = "round-robin" →
  0 < Scheduler.timeQuantum (scheduler e) →
  quantum_bound (Scheduler.timeQuantum (scheduler e)) None
                (heap e) (cpuCores e).

(** * Calls that cannot throw *)

(** [total n m]: on a store of [n] threads, [m] returns and leaves a store
    of [n] threads. *)
Definition total {A} (n : nat) (m : M A) : Prop :=
  ∀ e, length (heap e) = n →
    wp m (λ _ e', length (heap e') = n) (λ _, False) e.

(** Every reference held in some place is allocated. *)
Definition places_allocated (e : SimulationEngine) : Prop :=
  ∀ r, r ∈ places e → (r < length (heap e))%nat.

(** What holds of every state inside a [tick] that started in [e0]. *)
Definition since (e0 e : SimulationEngine) : Prop :=
  same_config e0 e ∧ places e ⊆ places e0 ∧ heap_le (heap e0) (heap e).



(** * The engine's writes, one at a time *)

(** The part of the first loop body of [tick] that follows [core.tick()]. *)
Definition runThread (i : nat) : M unit :=
  let* core := getCore i in
  match CPUCore.isIdle core, CPUCore.currentThread core with
  | false, Some thread =>
      let* result := execute thread in
      match result with
      | Some instruction => executeInstruction thread instruction
      | None => ret ()
      end ;;
      let* th := deref thread in
      let* sched := gets scheduler in
      if bool_decide (result = None) || Thread.isComplete th then
        releaseThread i ;;
        moveToTerminated thread
      else if Scheduler.shouldPreempt sched th then
        let* released := releaseThread i in
        match released with
        | Some preemptedThread =>
            update preemptedThread (Thread.set_quantum 0) ;;
            moveToReady preemptedThread ;;
            let* n := threadName preemptedThread in
            log ("Thread " +:+ n +:+ " preempted") "info"
        | None => throw
        end
      else ret ()
  | _, _ => ret ()
  end.

(** [prim e e']: one write that [tick] or a timer callback makes after the
    clock, the threads and the core have been ticked, with what the code has
    read or written just before it. *)
Inductive prim (e : SimulationEngine) : SimulationEngine → Prop :=
  | prim_log m l :
      prim e (set_eventLog
        (λ l0, l0 ++ [{| tick_ := clockTick e; message := m; level := l |}]) e)
  | prim_setState r th s :
      heap e !! r = Some th → s ≠ NEW →
      prim e (set_heap (λ h, <[r := Thread.setState s th]> h) e)
  | prim_quantum r th :
      heap e !! r = Some th →
      prim e (set_heap (λ h, <[r := Thread.set_quantum 0 th]> h) e)
  | prim_completion r th :
      heap e !! r = Some th → Thread.state th = TERMINATED →
      prim e (set_heap
        (λ h, <[r := Thread.set_completion (clockTick e) th]> h) e)
  | prim_execute i c r th :
      cpuCores e !! i = Some c → CPUCore.isIdle c = false →
      CPUCore.currentThread c = Some r → heap e !! r = Some th →
      prim e (set_heap (λ h, <[r := (Thread.execute th).2]> h) e)
  | prim_ready r th :
      heap e !! r = Some th → Thread.state th = READY →
      prim e (set_readyQueue (λ q, q ++ [r]) e)
  | prim_select sel rq' :
      Scheduler.selectNextThread (scheduler e) (heap e) (readyQueue e)
        = Some (sel, rq') →
      prim e (set_readyQueue (λ _, rq') e)
  | prim_blocked r th :
      heap e !! r = Some th → Thread.state th = BLOCKED →
      r ∉ blockedQueue e →
      prim e (set_blockedQueue (λ q, q ++ [r]) e)
  | prim_unblocked r :
      prim e (set_blockedQueue (λ q,
        match list_find (λ x, x = r) q with
        | Some (index, _) => delete index q
        | None => q
        end) e)
  | prim_terminated r th :
      heap e !! r = Some th → Thread.state th = TERMINATED →
      Thread.completionTime th = clockTick e →
      Thread.turnaroundTime th = clockTick e - Thread.arrivalTime th →
      prim e (set_terminatedThreads (λ q, q ++ [r]) e)
  | prim_release i c :
      cpuCores e !! i = Some c →
      prim e (set_cpuCores
        (λ cs, <[i := (CPUCore.releaseThread c).2]> cs) e)
  | prim_assign i c r th :
      cpuCores e !! i = Some c → CPUCore.isIdle c = true →
      heap e !! r = Some th → Thread.quantum th = 0 →
      prim e (set_cpuCores (λ cs, <[i := CPUCore.assignThread r c]> cs) e)
  | prim_idle i c :
      cpuCores e !! i = Some c → CPUCore.isIdle c = true →
      prim e (set_cpuCores (λ cs, <[i := CPUCore.set_isIdle true c]> cs) e)
  | prim_sem_wait k s r :
      semaphores e !! k = Some s →
      prim e (set_semaphores (λ m, <[k := (Semaphore.wait r s).2]> m) e)
  | prim_sem_signal k s :
      semaphores e !! k = Some s →
      prim e (set_semaphores (λ m, <[k := (Semaphore.signal s).2]> m) e)
  | prim_mon_enter k m r :
      monitors e !! k = Some m →
      prim e (set_monitors (λ ms, <[k := (Monitor.enter r m).2]> ms) e)
  | prim_mon_exit k m :
      monitors e !! k = Some m →
      prim e (set_monitors (λ ms, <[k := (Monitor.exit m).2]> ms) e)
  | prim_mon_wait k m r :
      monitors e !! k = Some m →
      prim e (set_monitors (λ ms, <[k := (Monitor.wait r m).2]> ms) e)
  | prim_mon_signal k m :
      monitors e !! k = Some m →
      prim e (set_monitors (λ ms, <[k := (Monitor.signal m).2]> ms) e).

(** [step e e']: one write of a call other than [tick]; the admission of a
    new thread and [initialize] count as one. *)
Inductive step (e : SimulationEngine) : SimulationEngine → Prop :=
  | step_prim e' : prim e e' → step e e'
  | step_initialize n a q m : step e (final (initialize n a q m e))
  | step_addThread name priority instructions :
      step e (final (run (OpAddThread name priority instructions) e))
  | step_timer r rest :
      timers e = r :: rest → step e (set_timers (λ _, rest) e)
  | step_addSemaphore k v :
      step e (set_semaphores (λ m, <[k := Semaphore.make k v]> m) e)
  | step_addMonitor k :
      step e (set_monitors (λ m, <[k := Monitor.make k]> m) e).

(** [ticking e e']: one of the writes with which [tick] advances the clock,
    a thread of the engine or a core. *)
Inductive ticking (e : SimulationEngine) : SimulationEngine → Prop :=
  | ticking_clock : ticking e (set_clockTick (λ c, c + 1) e)
  | ticking_thread r th :
      r ∈ threads e → heap e !! r = Some th →
      ticking e (set_heap (λ h, <[r := Thread.tick th]> h) e)
  | ticking_core i c :
      cpuCores e !! i = Some c →
      ticking e (set_cpuCores (λ cs, <[i := CPUCore.tick c]> cs) e).

(** One write of any call. *)
Definition write (e e' : SimulationEngine) : Prop := step e e' ∨ ticking e e'.

(** Every state the engine is in at some time, inside a call as well. *)
Definition visited (e : SimulationEngine) : Prop := rtc write newEngine e.

(** What [mapThreadToKernel] writes: from the threading model, the number of
    user threads [u], the number of cores [n], the number of kernel threads
    [k] and the thread's kernel thread before the call [old], the thread's
    kernel thread [kid] and the number of kernel threads [kc] after it. *)
Definition kernel_mapping (model : string) (u : Z) (n : nat) (k : Z)
    (old kid : option Z) (kc : Z) : Prop :=
  (model = "one-to-one" → kid = Some (k + 1) ∧ kc = k + 1) ∧
  (model = "many-to-one" →
     kid = Some 1 ∧ kc = if bool_decide (k = 0) then 1 else k) ∧
  (model = "many-to-many" →
     if decide (n = 0%nat) then kid = None ∧ kc = k
     else kid = Some (u `mod` Z.of_nat n + 1) ∧
          kc = Z.max k (u `mod` Z.of_nat n + 1)) ∧
  (model ≠ "one-to-one" → model ≠ "many-to-one" → model ≠ "many-to-many" →
     kid = old ∧ kc = k).

(** * Properties of the states the engine is in *)

(** The clock is not negative, no entry of the event log is later than the
    clock, and the entries are in the order of their ticks. *)
Definition log_inv (e : SimulationEngine) : Prop :=
  0 ≤ clockTick e ∧
  (∀ a, a ∈ eventLog e → 0 ≤ tick_ a ≤ clockTick e) ∧
  (∀ i j a b, (i ≤ j)%nat → eventLog e !! i = Some a →
     eventLog e !! j = Some b → tick_ a ≤ tick_ b).

(** A monitor that nobody owns has nobody waiting to enter. *)
Definition mon_ok (m : Monitor.t) : Prop :=
  Monitor.owner m = None → Monitor.entryQueue m = [].

(** The wait queue of a semaphore is no longer than its deficit. *)
Definition sem_ok (s : Semaphore.t) : Prop :=
  Z.of_nat (length (Semaphore.waitQueue s)) ≤ Z.max 0 (- Semaphore.value s).

(** The fields of a thread that are set when it is constructed and admitted. *)
Definition same_identity (th th' : Thread.t) : Prop :=
  Thread.id th' = Thread.id th ∧
  Thread.name th' = Thread.name th ∧
  Thread.priority th' = Thread.priority th ∧
  Thread.instructions th' = Thread.instructions th ∧
  Thread.burstTime th' = Thread.burstTime th ∧
  Thread.arrivalTime th' = Thread.arrivalTime th ∧
  Thread.kernelThreadId th' = Thread.kernelThreadId th.

(** The threads of the engine are numbered in the order of their admission:
    the counters agree with the thread list, the list has no thread twice,
    and the thread at position [k] has the id [k + 1]. *)
Definition admitted (e : SimulationEngine) : Prop :=
  userThreadCount e = Z.of_nat (length (threads e)) ∧
  nextId e = Z.of_nat (length (threads e)) + 1 ∧
  NoDup (threads e) ∧
  ∀ k r, threads e !! k = Some r →
    ∃ th, heap e !! r = Some th ∧ Thread.id th = Z.of_nat k + 1.

(** The kernel thread of the thread at position [k] of the thread list,
    with [n] cores. *)
Definition kernelThreadOf (model : string) (n k : nat) : option Z :=
  if decide (model = "one-to-one") then Some (Z.of_nat k + 1)
  else if decide (model = "many-to-one") then Some 1
  else if decide (model = "many-to-many") then
    if decide (n = 0%nat) then None
    else Some ((Z.of_nat k + 1) `mod` Z.of_nat n + 1)
  else None.

(** The number of kernel threads with [n] cores and [len] threads. *)
Definition kernelCountOf (model : string) (n len : nat) : Z :=
  if decide (model = "one-to-one") then Z.of_nat len
  else if decide (model = "many-to-one") then Z.min 1 (Z.of_nat len)
  else if decide (model = "many-to-many") then
    if decide (n = 0%nat ∨ len = 0%nat) then 0
    else Z.min (Z.of_nat len + 1) (Z.of_nat n)
  else 0.

(** The kernel threads of the engine are the ones that the threading model
    gives to the positions of the thread list. *)
Definition kernel_ok (e : SimulationEngine) : Prop :=
  kernelThreadCount e
    = kernelCountOf (threadingModel e) (length (cpuCores e))
        (length (threads e)) ∧
  ∀ k r th, threads e !! k = Some r → heap e !! r = Some th →
    Thread.kernelThreadId th
      = kernelThreadOf (threadingModel e) (length (cpuCores e)) k.

(** What a write other than [initialize] and the admission of a thread
    leaves as it was. *)
Definition same_admission (e e' : SimulationEngine) : Prop :=
  threads e' = threads e ∧ nextId e' = nextId e ∧
  userThreadCount e' = userThreadCount e ∧
  kernelThreadCount e' = kernelThreadCount e ∧
  threadingModel e' = threadingModel e ∧
  scheduler e' = scheduler e ∧
  length (cpuCores e') = length (cpuCores e) ∧
  length (heap e') = length (heap e).

(** The computation returns from this state: it does not throw. *)
Definition returns {A} (m : M A) (e : SimulationEngine) : Prop :=
  wp m (λ _ _, True) (λ _, False) e.

(** The threads that [tick] runs do not make it throw when the scheduling
    algorithm is not round-robin, or when no semaphore and no monitor is
    registered. *)
Definition quiet (e : SimulationEngine) : Prop :=
  Scheduler.algorithm (scheduler e) ≠ "round-robin" ∨
  (semaphores e = ∅ ∧ monitors e = ∅).

(** * [getStatistics()]: the numbers it computes before it formats them *)

(** [this.cpuCores.reduce((sum, core) => sum + core.totalBusyTime, 0)] *)
Definition totalBusyTime (e : SimulationEngine) : Z :=
  foldl (λ sum core, sum + CPUCore.totalBusyTime core) 0 (cpuCores e).

(** [this.clockTick * this.cpuCores.length] *)
Definition totalCoreTime (e : SimulationEngine) : Z :=
  clockTick e * Z.of_nat (length (cpuCores e)).

(** The busy time of every core is between 0 and [c]; for the first [k]
    cores it may be [c + 1]. *)
Definition busy_le (c : Z) (k : nat) (e : SimulationEngine) : Prop :=
  ∀ j co, cpuCores e !! j = Some co →
    0 ≤ CPUCore.totalBusyTime co
      ≤ if decide (j < k)%nat then c + 1 else c.

(** The threads of [ts] have waited for no longer than until [c] since their
    arrival; the first [k] of them may have waited until [c + 1]. *)
Definition waits_le (c : Z) (ts : list nat) (k : nat)
    (e : SimulationEngine) : Prop :=
  ∀ j r th, ts !! j = Some r → heap e !! r = Some th →
    0 ≤ Thread.arrivalTime th ∧ 0 ≤ Thread.waitTime th ∧
    Thread.waitTime th + Thread.arrivalTime th
      ≤ if decide (j < k)%nat then c + 1 else c.

(** Between calls no core has been busy for longer than the clock. *)
Definition busy_inv (e : SimulationEngine) : Prop :=
  0 ≤ clockTick e ∧ busy_le (clockTick e) 0 e.

(** Between calls no thread of the engine has waited for longer than since
    its arrival. *)
Definition waits_inv (e : SimulationEngine) : Prop :=
  0 ≤ clockTick e ∧ waits_le (clockTick e) (threads e) 0 e.

(** No thread of the engine has arrived before tick 0 or after the clock. *)
Definition arrivals_ok (e : SimulationEngine) : Prop :=
  0 ≤ clockTick e ∧
  ∀ r th, r ∈ threads e → heap e !! r = Some th →
    0 ≤ Thread.arrivalTime th ≤ clockTick e.

(** A terminated thread has its turnaround time computed from a completion
    time that is not later than the clock, and not earlier than its arrival
    when it is a thread of the engine. *)
Definition terminated_ok (e : SimulationEngine) : Prop :=
  ∀ r, r ∈ terminatedThreads e →
    ∃ th, heap e !! r = Some th ∧
      Thread.turnaroundTime th
        = Thread.completionTime th - Thread.arrivalTime th ∧
      Thread.completionTime th ≤ clockTick e ∧
      (r ∈ threads e → Thread.arrivalTime th ≤ Thread.completionTime th).

(** The part of [tick] that follows the ticking of the threads. *)
Definition tickCores : M unit :=
  let* n := gets (λ e, length (cpuCores e)) in
  forEach (seq 0 n) runCore ;;
  manyToOne ;;
  forEach (seq 0 n) dispatchCore.

(** * A class on its own: repeated calls *)

(** [execute()] called until it reports [done] or [fuel] calls are made:
    the instructions handed out, in order, and the thread that is left. *)
Fixpoint executeAll (fuel : nat) (th : Thread.t) : list Instruction * Thread.t :=
  match fuel with
  | O => ([], th)
  | S fuel' =>
      match Thread.execute th with
      | (Some instruction, th') =>
          let '(l, th'') := executeAll fuel' th' in (instruction :: l, th'')
      | (None, th') => ([], th')
      end
  end.

(** The threads that a sequence of [wait] and [signal] calls puts into the
    wait queue, and the threads that it hands back, both in order. *)
Fixpoint semEnqueued (os : list SemOp) (s : Semaphore.t) : list ref :=
  match os with
  | [] => []
  | SemWait thread :: os' =>
      let '(proceed, s') := Semaphore.wait thread s in
      (if proceed then [] else [thread]) ++ semEnqueued os' s'
  | SemSignal :: os' => semEnqueued os' (Semaphore.signal s).2
  end.

Fixpoint semReleased (os : list SemOp) (s : Semaphore.t) : list ref :=
  match os with
  | [] => []
  | SemWait thread :: os' => semReleased os' (Semaphore.wait thread s).2
  | SemSignal :: os' =>
      let '(released, s') := Semaphore.signal s in
      option_list released ++ semReleased os' s'
  end.

(** * More scenarios *)

(** Two cores under the many-to-many model with priority scheduling; a
    semaphore, a monitor that is used and one that is not, three threads;
    three ticks have passed. *)
Definition sampleCalls : list Op :=
  [ OpInitialize 2 "priority" 3 "many-to-many";
    OpAddSemaphore "s" 0; OpAddMonitor "m"; OpAddMonitor "free";
    OpAddThread (Some "A") 5
      [instr enter_monitor "m"; instr wait "s"; computeI];
    OpAddThread None 7 [instr enter_monitor "m"; computeI];
    OpAddThread (Some "C") 6 [computeI; instr signal "s"; computeI];
    OpTimeout; OpTimeout; OpTimeout; OpTick; OpTick; OpTick ].

Definition sampleEngine : SimulationEngine := runAll sampleCalls newEngine.

(** One core under the one-to-one model; two threads admitted. *)
Definition oneToOneEngine : SimulationEngine :=
  runAll [ OpInitialize 1 "fcfs" 3 "one-to-one";
           OpAddThread (Some "A") 5 [computeI];
           OpAddThread (Some "B") 5 [computeI] ] newEngine.

(** A thread is added, and the engine is initialized again before the timer
    of the admission has fired. *)
Definition staleTimerEngine : SimulationEngine :=
  runAll [ OpInitialize 1 "fcfs" 3 "one-to-one";
           OpAddThread (Some "A") 5 [computeI; computeI] ] newEngine.

(** * The page: the event log that [UIManager] shows, and the buttons *)

Module UIManager.

(** What [updateEventLog] and [clearLog] read and write besides the engine's
    log: the field [lastLogCount], which the constructor does not set, and the
    children of the element [eventLog], one for every entry that has been
    appended to it.  The scroll position of the element is left out. *)
Record t := { lastLogCount : option nat; logContainer : list LogEntry }.

(** [new UIManager(engine)], on the page as it is loaded. *)
Definition make : t := {| lastLogCount := None; logContainer := [] |}.

Definition updateEventLog (eventLog : list LogEntry) (ui : t) : t :=
  let recentLogs := drop (length eventLog - 100) eventLog in
  if decide (lastLogCount ui ≠ Some (length recentLogs)) then
    let newLogs := drop (default 0%nat (lastLogCount ui)) recentLogs in
    {| lastLogCount := Some (length recentLogs);
       logContainer := logContainer ui ++ newLogs |}
  else ui.

Definition clearLog (e : SimulationEngine) (ui : t) : SimulationEngine * t :=
  (set_eventLog (λ _, []) e,
   {| lastLogCount := Some 0%nat; logContainer := [] |}).

(** The page shows the log [l]. *)
Definition shows (l : list LogEntry) (ui : t) : Prop :=
  logContainer ui = l ∧
  (lastLogCount ui = Some (length l) ∨ lastLogCount ui = None ∧ l = []).

End UIManager.

(** The functions behind the buttons [addSemaphoreBtn] and [addMonitorBtn],
    without the redrawing of the page. *)
Module Page.

Definition addSemaphore : M unit :=
  let* size := gets (λ e, size (semaphores e)) in
  addSemaphore ("Sem" +:+ pretty (size + 1)%nat) 1.

Definition addMonitor : M unit :=
  let* size := gets (λ e, size (monitors e)) in
  addMonitor ("Mon" +:+ pretty (size + 1)%nat).

End Page.

(** The names that the buttons have given so far are numbered up to the size
    of the registry. *)
Definition numbered_names {A} (prefix : string) (m : gmap string A) : Prop :=
  ∀ i : nat, is_Some (m !! (prefix +:+ pretty i)) → (i ≤ size m)%nat.

(** * More scenarios *)

(** Two cores, first come first served; thread A holds monitor "m" while
    thread B asks for it and waits in the entry queue; A leaves the monitor
    to B, and B leaves it to nobody. *)
Definition handoverCalls : list Op :=
  [ OpInitialize 2 "fcfs" 3 "one-to-one";
    OpAddMonitor "m";
    OpAddThread (Some "A") 5
      [instr enter_monitor "m"; computeI; instr exit_monitor "m"; computeI];
    OpAddThread (Some "B") 5
      [computeI; instr enter_monitor "m"; instr exit_monitor "m"; computeI];
    OpTimeout; OpTimeout; OpTick; OpTick; OpTick; OpTick; OpTick ].

Definition handoverEngine : SimulationEngine := runAll handoverCalls newEngine.

(** One core, first come first served; thread A is running on the core and
    thread B has just been added: it is [NEW] and its timer is pending. *)
Definition admissionEngine : SimulationEngine :=
  runAll [ OpInitialize 1 "fcfs" 3 "one-to-one";
           OpAddThread (Some "A") 5 [computeI; computeI; computeI];
           OpTimeout; OpTick;
           OpAddThread (Some "B") 5 [computeI] ] newEngine.

(** The page after a demonstration has registered the semaphore "mutex" and
    the semaphore button has been pressed twice: the registry holds "mutex",
    "Sem2" and "Sem3". *)
Definition semaphoreButtonEngine : SimulationEngine :=
  final (Page.addSemaphore
    (final (Page.addSemaphore
      (final (addSemaphore "mutex" 1
        (final (initialize 2 "fcfs" 3 "one-to-one" newEngine))))))).

(** The same with the monitor "table" and the monitor button pressed twice:
    the registry holds "table", "Mon2" and "Mon3". *)
Definition monitorButtonEngine : SimulationEngine :=
  final (Page.addMonitor
    (final (Page.addMonitor
      (final (addMonitor "table"
        (final (initialize 2 "fcfs" 3 "one-to-one" newEngine))))))).

(** * Computations that do not involve the pending timers *)

Definition mapRes {A} (g : SimulationEngine → SimulationEngine)
    (r : Res A) : Res A :=
  match r with
  | Ok a e => Ok a (g e)
  | Throw e => Throw (g e)
  end.

(** [m] neither reads nor writes the pending timer callbacks: with other
    callbacks pending it does the same, and leaves those pending. *)
Definition timer_blind {A} (m : M A) : Prop :=
  ∀ ts e, m (set_timers (λ _, ts) e) = mapRes (set_timers (λ _, ts)) (m e).

(** Thread [T] is [NEW] and nothing refers to it, the pending timer callbacks
    apart. *)
Definition awaits_timer (T : ref) (e : SimulationEngine) : Prop :=
  frozen T (Some NEW) (set_timers (λ _, []) e).
(** * Proofs *)

#[local] Set Warnings "-clear-no-such-hyp".

Lemma sem_balanced_make name v : 0 ≤ v → sem_balanced (Semaphore.make name v).
Proof. unfold sem_balanced; simpl; lia. Qed.

Lemma sem_balanced_wait thread s :
  sem_balanced s → sem_balanced (Semaphore.wait thread s).2.
Proof.
  unfold sem_balanced, Semaphore.wait.
  case_bool_decide; simpl; rewrite ?length_app; simpl; lia.
Qed.

Lemma sem_balanced_signal s :
  sem_balanced s → sem_balanced (Semaphore.signal s).2.
Proof.
  unfold sem_balanced, Semaphore.signal.
  destruct (Semaphore.waitQueue s) as [|th rest] eqn:Hq; simpl;
    rewrite ?Hq; simpl; lia.
Qed.

Lemma sem_balanced_run os s : sem_balanced s → sem_balanced (semRun os s).
Proof.
  revert s; induction os as [|o os IH]; intros s Hs; [done|].
  apply IH. destruct o; [by apply sem_balanced_wait|by apply sem_balanced_signal].
Qed.

(** What one [wait] does: the value goes down by one, and the caller joins
    the tail of the queue exactly when the new value is negative. *)
Lemma sem_wait_spec thread s :
  let '(proceed, s') := Semaphore.wait thread s in
  Semaphore.value s' = Semaphore.value s - 1 ∧
  (proceed = false ↔ Semaphore.value s' < 0) ∧
  Semaphore.waitQueue s' =
    (if proceed then Semaphore.waitQueue s else Semaphore.waitQueue s ++ [thread]).
Proof.
  unfold Semaphore.wait. case_bool_decide; simpl; repeat split; try done; lia.
Qed.

(** What one [signal] does: the value goes up by one, and the head of the
    queue is taken out and returned exactly when the queue is not empty. *)
Lemma sem_signal_spec s :
  let '(released, s') := Semaphore.signal s in
  Semaphore.value s' = Semaphore.value s + 1 ∧
  (is_Some released ↔ Semaphore.waitQueue s ≠ []) ∧
  match released with
  | Some th => Semaphore.waitQueue s = th :: Semaphore.waitQueue s'
  | None => Semaphore.waitQueue s' = Semaphore.waitQueue s
  end.
Proof.
  unfold Semaphore.signal.
  destruct (Semaphore.waitQueue s) as [|th rest] eqn:Hq; simpl;
    repeat split; try done; try (by intros [? ?]); by eauto.
Qed.

Section PriorityScan.

Variable heap : list Thread.t.
Variable readyQueue : list ref.

Hypothesis allocated :
  ∀ j, (j < length readyQueue)%nat → is_Some (Scheduler.priorityAt heap readyQueue j).

Lemma scanStep_first_max k hi :
  (k < length readyQueue)%nat → first_max heap readyQueue k hi →
  ∃ hi', Scheduler.scanStep heap readyQueue (Some hi) k = Some hi'
         ∧ first_max heap readyQueue (S k) hi'.
Proof.
  intros Hk (Hhi & p & Hp & Hmax).
  destruct (allocated k Hk) as [pk Hpk].
  unfold Scheduler.scanStep; simpl. rewrite Hpk, Hp; simpl.
  case_bool_decide as Hlt; eexists; (split; [done|]).
  - split; [lia|]. exists pk; split; [done|].
    intros j pj Hj Hpj. destruct (decide (j = k)) as [->|Hne].
    + rewrite Hpk in Hpj. injection Hpj as <-. split; [lia|lia].
    + destruct (Hmax j pj ltac:(lia) Hpj); split; [lia|intros; lia].
  - split; [lia|]. exists p; split; [done|].
    intros j pj Hj Hpj. destruct (decide (j = k)) as [->|Hne].
    + rewrite Hpk in Hpj. injection Hpj as <-. split; [lia|intros; lia].
    + apply Hmax; [lia|done].
Qed.

Lemma scan_first_max n k hi :
  (k + n ≤ length readyQueue)%nat → first_max heap readyQueue k hi →
  ∃ hi', foldl (Scheduler.scanStep heap readyQueue) (Some hi) (seq k n)
           = Some hi'
         ∧ first_max heap readyQueue (k + n) hi'.
Proof.
  revert k hi; induction n as [|n IH]; intros k hi Hlen Hinv; cbn [seq foldl].
  - exists hi. by rewrite Nat.add_0_r.
  - destruct (scanStep_first_max k hi ltac:(lia) Hinv) as (hi1 & -> & Hinv1).
    destruct (IH (S k) hi1 ltac:(lia) Hinv1) as (hi' & Heq & Hinv').
    exists hi'. split; [done|]. by replace (k + S n)%nat with (S k + n)%nat by lia.
Qed.

Lemma highestPriorityIndex_first_max :
  readyQueue ≠ [] →
  ∃ hi, Scheduler.highestPriorityIndex heap readyQueue = Some hi
        ∧ first_max heap readyQueue (length readyQueue) hi.
Proof.
  intros Hne. unfold Scheduler.highestPriorityIndex.
  assert (0 < length readyQueue)%nat as Hlen
    by (destruct readyQueue; [done|simpl; lia]).
  destruct (allocated 0%nat Hlen) as [p0 Hp0].
  destruct (scan_first_max (length readyQueue - 1) 1 0%nat ltac:(lia))
    as (hi & Heq & Hinv).
  - split; [lia|]. exists p0; split; [done|].
    intros j pj Hj Hpj. assert (j = 0%nat) as -> by lia.
    rewrite Hp0 in Hpj. injection Hpj as <-. split; [lia|intros; lia].
  - exists hi. split; [done|].
    by replace (length readyQueue) with (1 + (length readyQueue - 1))%nat by lia.
Qed.

End PriorityScan.

Lemma priorityAt_lookup heap (readyQueue : list ref) j r :
  readyQueue !! j = Some r →
  Scheduler.priorityAt heap readyQueue j = priorityOf heap r.
Proof.
  intros Hj. unfold Scheduler.priorityAt, priorityOf. rewrite Hj; simpl.
  by destruct (heap !! r).
Qed.

(** C5: under the priority algorithm a non-empty ready queue splits around the
    selected entry: every entry before it has a strictly smaller priority,
    every entry after it has a priority that is not greater, and the queue
    that is left is the entries before followed by the entries after. *)
Theorem C5_priority_selects_first_maximum
    (s : Scheduler.t) (heap : list Thread.t) (readyQueue : list ref) :
  Scheduler.algorithm s = "priority" →
  readyQueue ≠ [] →
  (∀ r, r ∈ readyQueue → is_Some (heap !! r)) →
  ∃ before chosen after p,
    readyQueue = before ++ chosen :: after ∧
    Scheduler.selectNextThread s heap readyQueue
      = Some (Some chosen, before ++ after) ∧
    priorityOf heap chosen = Some p ∧
    (∀ r pr, r ∈ before → priorityOf heap r = Some pr → pr < p) ∧
    (∀ r pr, r ∈ after → priorityOf heap r = Some pr → pr ≤ p).
Proof.
  intros Halg Hne Halloc.
  assert (∀ j, (j < length readyQueue)%nat →
            is_Some (Scheduler.priorityAt heap readyQueue j)) as Hall.
  { intros j Hj. destruct (lookup_lt_is_Some_2 readyQueue j Hj) as [r Hr].
    rewrite (priorityAt_lookup _ _ _ _ Hr). unfold priorityOf.
    destruct (Halloc r) as [th ->]; [by eapply list_elem_of_lookup_2|by eauto]. }
  destruct (highestPriorityIndex_first_max heap readyQueue Hall Hne)
    as (hi & Hscan & Hhi & p & Hp & Hmax).
  destruct (lookup_lt_is_Some_2 readyQueue hi Hhi) as [chosen Hchosen].
  exists (take hi readyQueue), chosen, (drop (S hi) readyQueue), p.
  split; [by rewrite take_drop_middle|].
  split.
  { unfold Scheduler.selectNextThread.
    destruct readyQueue as [|head rest] eqn:Hq; [done|]. rewrite <- Hq in *.
    rewrite Halg; simpl. rewrite Hscan; simpl.
    by rewrite Hchosen, delete_take_drop. }
  split; [by rewrite <- (priorityAt_lookup _ _ _ _ Hchosen)|].
  split.
  - intros r pr [j Hj]%list_elem_of_lookup_1 Hpr.
    apply lookup_take_Some in Hj as [Hj Hlt].
    rewrite <- (priorityAt_lookup _ _ _ _ Hj) in Hpr.
    apply lookup_lt_Some in Hj.
    by apply (Hmax j pr Hj Hpr).
  - intros r pr [j Hj]%list_elem_of_lookup_1 Hpr.
    rewrite lookup_drop in Hj.
    rewrite <- (priorityAt_lookup _ _ _ _ Hj) in Hpr.
    apply lookup_lt_Some in Hj.
    by apply (Hmax _ pr Hj Hpr).
Qed.

Lemma C5_priority_selects_first_maximum_witness :
  ∃ before chosen after p,
    [0; 1; 2; 3]%nat = before ++ chosen :: after ∧
    Scheduler.selectNextThread
      {| Scheduler.algorithm := "priority"; Scheduler.timeQuantum := 3 |}
      [Thread.make 1 None 2 []; Thread.make 2 None 7 [];
       Thread.make 3 None 7 []; Thread.make 4 None 1 []]
      [0; 1; 2; 3]%nat
      = Some (Some chosen, before ++ after) ∧
    priorityOf [Thread.make 1 None 2 []; Thread.make 2 None 7 [];
                Thread.make 3 None 7 []; Thread.make 4 None 1 []] chosen
      = Some p ∧
    (∀ r pr, r ∈ before →
       priorityOf [Thread.make 1 None 2 []; Thread.make 2 None 7 [];
                   Thread.make 3 None 7 []; Thread.make 4 None 1 []] r
         = Some pr → pr < p) ∧
    (∀ r pr, r ∈ after →
       priorityOf [Thread.make 1 None 2 []; Thread.make 2 None 7 [];
                   Thread.make 3 None 7 []; Thread.make 4 None 1 []] r
         = Some pr → pr ≤ p).
Proof.
  apply C5_priority_selects_first_maximum.
  - reflexivity.
  - discriminate.
  - intros r Hr. apply lookup_lt_is_Some_2. simpl.
    apply list_elem_of_In in Hr. simpl in Hr. lia.
Defined.

(** C6: a semaphore created with a non-negative value, after any sequence of
    [wait] and [signal], has as many queued threads as its value is below
    zero; the next [wait] appends its caller exactly when the decremented
    value is negative, and the next [signal] takes out and returns the head of
    the queue exactly when the queue is not empty. *)
Theorem C6_semaphore_queue_length name (initialValue : Z) (os : list SemOp) :
  0 ≤ initialValue →
  let s := semRun os (Semaphore.make name initialValue) in
  Z.of_nat (length (Semaphore.waitQueue s)) = Z.max 0 (- Semaphore.value s) ∧
  (∀ thread,
     let '(proceed, s') := Semaphore.wait thread s in
     Semaphore.value s' = Semaphore.value s - 1 ∧
     (proceed = false ↔ Semaphore.value s' < 0) ∧
     Semaphore.waitQueue s' =
       (if proceed then Semaphore.waitQueue s
        else Semaphore.waitQueue s ++ [thread])) ∧
  (let '(released, s') := Semaphore.signal s in
   Semaphore.value s' = Semaphore.value s + 1 ∧
   (is_Some released ↔ Semaphore.waitQueue s ≠ []) ∧
   match released with
   | Some th => Semaphore.waitQueue s = th :: Semaphore.waitQueue s'
   | None => Semaphore.waitQueue s' = Semaphore.waitQueue s
   end).
Proof.
  intros Hv s. split; [|split].
  - by apply sem_balanced_run, sem_balanced_make.
  - intros thread. apply sem_wait_spec.
  - apply sem_signal_spec.
Qed.

Lemma C6_semaphore_queue_length_witness :
  let s := semRun [SemWait 0%nat; SemWait 1%nat; SemWait 2%nat; SemSignal]
                  (Semaphore.make "s" 1) in
  Z.of_nat (length (Semaphore.waitQueue s)) = Z.max 0 (- Semaphore.value s) ∧
  (∀ thread,
     let '(proceed, s') := Semaphore.wait thread s in
     Semaphore.value s' = Semaphore.value s - 1 ∧
     (proceed = false ↔ Semaphore.value s' < 0) ∧
     Semaphore.waitQueue s' =
       (if proceed then Semaphore.waitQueue s
        else Semaphore.waitQueue s ++ [thread])) ∧
  (let '(released, s') := Semaphore.signal s in
   Semaphore.value s' = Semaphore.value s + 1 ∧
   (is_Some released ↔ Semaphore.waitQueue s ≠ []) ∧
   match released with
   | Some th => Semaphore.waitQueue s = th :: Semaphore.waitQueue s'
   | None => Semaphore.waitQueue s' = Semaphore.waitQueue s
   end).
Proof. apply (C6_semaphore_queue_length "s" 1). lia. Defined.

(** * Instructions with an unknown resource name *)

Lemma executeInstruction_unknown thread instruction e :
  unknownResource e instruction →
  executeInstruction thread instruction e = Ok () e.
Proof.
  unfold unknownResource, executeInstruction, getSemaphore, getMonitor.
  destruct (type instruction); intros H; try done;
    unfold bind, gets; by rewrite H.
Qed.

(** C7: when the instruction under the cursor of a thread is a [wait],
    [signal] or monitor instruction whose resource names no registered
    primitive, [execute] hands out that instruction and moves the cursor on
    (one tick of the burst is spent), and [executeInstruction] returns with
    the engine exactly as it was: every registry, queue, core and thread is
    unchanged, the state of the executing thread included. *)
Theorem C7_unknown_resource_is_noop
    (e : SimulationEngine) (thread : ref) (th : Thread.t)
    (instruction : Instruction) :
  heap e !! thread = Some th →
  Thread.instructions th !! Thread.currentInstruction th = Some instruction →
  unknownResource e instruction →
  ∃ th',
    let e1 := set_heap (λ h, <[thread := th']> h) e in
    execute thread e = Ok (Some instruction) e1 ∧
    executeInstruction thread instruction e1 = Ok () e1 ∧
    Thread.currentInstruction th' = S (Thread.currentInstruction th) ∧
    Thread.remainingTime th' = Thread.remainingTime th - 1 ∧
    Thread.state th' = Thread.state th.
Proof.
  intros Hth Hins Hunk.
  exists (Thread.execute th).2. simpl.
  split; [|split].
  - unfold execute, bind, deref. rewrite Hth.
    unfold Thread.execute. by rewrite Hins.
  - by apply executeInstruction_unknown.
  - unfold Thread.execute. by rewrite Hins.
Qed.

Lemma C7_unknown_resource_is_noop_witness :
  ∃ th th',
    heap unknownNameEngine !! 0%nat = Some th ∧
    let e1 := set_heap (λ h, <[0%nat := th']> h) unknownNameEngine in
    execute 0%nat unknownNameEngine = Ok (Some (instr signal "nosuch")) e1 ∧
    executeInstruction 0%nat (instr signal "nosuch") e1 = Ok () e1 ∧
    Thread.currentInstruction th' = S (Thread.currentInstruction th) ∧
    Thread.remainingTime th' = Thread.remainingTime th - 1 ∧
    Thread.state th' = Thread.state th.
Proof.
  eexists.
  eassert (heap unknownNameEngine !! 0%nat = Some _) as Hth
    by (vm_compute; reflexivity).
  destruct (C7_unknown_resource_is_noop unknownNameEngine 0%nat _
              (instr signal "nosuch") Hth) as [th' H];
    [vm_compute; reflexivity | vm_compute; reflexivity |].
  exists th'. split; [exact Hth | exact H].
Defined.

(** * The scenarios, evaluated *)

(** C1: under the many-to-one model with four cores and two ready threads, one
    call of [tick] returns with cores 0 and 1 both busy: the block of [tick]
    for this model assigns [isIdle = true] to cores that are idle already. *)
Theorem C1_many_to_one_two_busy_cores :
  let e := runAll manyToOneCalls newEngine in
  threadingModel e = "many-to-one" ∧
  threw (tick e) = false ∧
  CPUCore.isIdle <$> cpuCores (final (tick e)) = [false; false; true; true] ∧
  length (busyCores (final (tick e))) = 2%nat.
Proof. vm_compute. done. Qed.

(** C2: with one core, round-robin and quantum 1, a dispatched thread whose
    first instruction is a [wait] on a semaphore of value 0 and which has a
    further instruction makes the next [tick] throw: the thread has released
    its core on blocking, the preemption branch is taken because the quantum
    counter has reached the quantum, and [releaseThread] returns [null]. *)
Theorem C2_tick_throws_when_blocking_at_quantum :
  let e := runAll blockAtQuantumCalls newEngine in
  length (cpuCores e) = 1%nat ∧
  Scheduler.timeQuantum (scheduler e) = 1 ∧
  stateOf e 0%nat = Some RUNNING ∧
  threw (tick e) = true ∧
  stateOf (final (tick e)) 0%nat = Some BLOCKED.
Proof. vm_compute. done. Qed.

(** C3: a thread whose last instruction is a [wait] that blocks is terminated
    in the same tick and stays in the wait queue of the semaphore; the next
    [signal] on that semaphore moves it from [TERMINATED] to [READY]. *)
Theorem C3_signal_revives_terminated_thread :
  let e := runAll blockOnLastCalls newEngine in
  stateOf e 0%nat = Some TERMINATED ∧
  threw (tick e) = false ∧
  stateOf (final (tick e)) 0%nat = Some READY ∧
  readyQueue (final (tick e)) = [0%nat].
Proof. vm_compute. done. Qed.

(** * Rules for [wp] and [pres] *)

Lemma wp_ret {A} (a : A) Q E e : Q a e → wp (ret a) Q E e.
Proof. done. Qed.

Lemma wp_throw {A} (Q : A → SimulationEngine → Prop) E e :
  E e → wp throw Q E e.
Proof. done. Qed.

Lemma wp_gets {A} (f : SimulationEngine → A) Q E e :
  Q (f e) e → wp (gets f) Q E e.
Proof. done. Qed.

Lemma wp_modify f Q E e : Q () (f e) → wp (modify f) Q E e.
Proof. done. Qed.

Lemma wp_bind {A B} (m : M A) (k : A → M B) Q E e :
  wp m (λ a e', wp (k a) Q E e') E e → wp (bind m k) Q E e.
Proof. unfold wp, bind. by destruct (m e). Qed.

Lemma wp_mono {A} (m : M A) (Q Q' : A → SimulationEngine → Prop)
    (E E' : SimulationEngine → Prop) e :
  wp m Q E e →
  (∀ a e', Q a e' → Q' a e') → (∀ e', E e' → E' e') →
  wp m Q' E' e.
Proof. unfold wp. destruct (m e); eauto. Qed.

Lemma wp_deref r Q E e :
  (∀ th, heap e !! r = Some th → Q th e) →
  (heap e !! r = None → E e) →
  wp (deref r) Q E e.
Proof. unfold wp, deref. destruct (heap e !! r); eauto. Qed.

Lemma wp_getCore i Q E e :
  (∀ c, cpuCores e !! i = Some c → Q c e) →
  (cpuCores e !! i = None → E e) →
  wp (getCore i) Q E e.
Proof. unfold wp, getCore. destruct (cpuCores e !! i); eauto. Qed.

Lemma wp_when (b : bool) m Q E e :
  (b = true → wp m Q E e) → (b = false → Q () e) → wp (when b m) Q E e.
Proof. intros H1 H2. destruct b; [by apply H1|by apply wp_ret, H2]. Qed.

Lemma wp_forEach {A} (I : SimulationEngine → Prop) E (l : list A) f e :
  (∀ x e', x ∈ l → I e' → wp (f x) (λ _, I) E e') →
  I e → wp (forEach l f) (λ _, I) E e.
Proof.
  revert e; induction l as [|x l IH]; intros e Hf HI; simpl; [done|].
  apply wp_bind. eapply wp_mono; [apply Hf; [left|done]| |done].
  intros [] e1 HI1. apply IH; [|done].
  intros y e2 Hy. apply Hf. by right.
Qed.

Lemma wp_final {A} (m : M A) (I : SimulationEngine → Prop) e :
  wp m (λ _, I) I e → I (final (m e)).
Proof. unfold wp, final. by destruct (m e). Qed.

Section Pres.

Context (I : SimulationEngine → Prop).

Lemma pres_ret {A} (a : A) : pres I (ret a).
Proof. by intros e H. Qed.

Lemma pres_throw {A} : pres I (@throw A).
Proof. by intros e H. Qed.

Lemma pres_gets {A} (f : SimulationEngine → A) : pres I (gets f).
Proof. by intros e H. Qed.

Lemma pres_modify f : (∀ e, I e → I (f e)) → pres I (modify f).
Proof. intros Hf e H. by apply Hf. Qed.

Lemma pres_bind {A B} (m : M A) (k : A → M B) :
  pres I m → (∀ a, pres I (k a)) → pres I (bind m k).
Proof.
  intros Hm Hk e H. apply wp_bind.
  eapply wp_mono; [by apply Hm| |done]. intros a e' H'. by apply Hk.
Qed.

Lemma pres_when (b : bool) m : pres I m → pres I (when b m).
Proof. intros Hm. destruct b; [done|apply pres_ret]. Qed.

Lemma pres_forEach {A} (l : list A) f :
  (∀ x, pres I (f x)) → pres I (forEach l f).
Proof. intros Hf e H. apply wp_forEach; [|done]. intros x e' _. apply Hf. Qed.

Lemma pres_deref r : pres I (deref r).
Proof. intros e H. by apply wp_deref. Qed.

Lemma pres_getCore i : pres I (getCore i).
Proof. intros e H. by apply wp_getCore. Qed.

Lemma pres_final {A} (m : M A) e : pres I m → I e → I (final (m e)).
Proof. intros Hm H. by apply wp_final, Hm. Qed.

End Pres.

(** Breaks a goal [pres I m] down along the shape of [m]. *)
Ltac pres_step :=
  lazymatch goal with
  | |- pres _ (ret _) => apply pres_ret
  | |- pres _ throw => apply pres_throw
  | |- pres _ (gets _) => apply pres_gets
  | |- pres _ (deref _) => apply pres_deref
  | |- pres _ (getCore _) => apply pres_getCore
  | |- pres _ (bind _ _) => apply pres_bind; [|intros ?]
  | |- pres _ (when _ _) => apply pres_when
  | |- pres _ (forEach _ _) => apply pres_forEach; intros ?
  | |- pres _ (match ?x with _ => _ end) => destruct x
  end.

(** * Thread objects only move forward *)

Lemma thread_step_refl th : thread_step th th.
Proof. by unfold thread_step. Qed.

Lemma thread_step_trans th1 th2 th3 :
  thread_step th1 th2 → thread_step th2 th3 → thread_step th1 th3.
Proof.
  unfold thread_step. intros (? & ? & ? & ?) (? & ? & ? & ?).
  repeat split; [congruence|congruence|lia|lia].
Qed.

Lemma thread_step_setState s th : thread_step th (Thread.setState s th).
Proof. by unfold thread_step. Qed.

Lemma thread_step_tick th : thread_step th (Thread.tick th).
Proof. by unfold thread_step. Qed.

Lemma thread_step_set_quantum q th : thread_step th (Thread.set_quantum q th).
Proof. by unfold thread_step. Qed.

Lemma thread_step_set_arrivalTime a th :
  thread_step th (Thread.set_arrivalTime a th).
Proof. by unfold thread_step. Qed.

Lemma thread_step_set_kernelThreadId k th :
  thread_step th (Thread.set_kernelThreadId k th).
Proof. by unfold thread_step. Qed.

Lemma thread_step_set_completion c th :
  thread_step th (Thread.set_completion c th).
Proof. by unfold thread_step. Qed.

Lemma thread_step_execute th : thread_step th (Thread.execute th).2.
Proof.
  unfold thread_step, Thread.execute.
  destruct (Thread.instructions th !! Thread.currentInstruction th); simpl;
    repeat split; lia.
Qed.

Create HintDb thread_step.
#[local] Hint Resolve thread_step_setState thread_step_tick
  thread_step_set_quantum thread_step_set_arrivalTime
  thread_step_set_kernelThreadId thread_step_set_completion
  thread_step_execute : thread_step.

Lemma balanced_make i name priority instructions :
  balanced (Thread.make i name priority instructions).
Proof. unfold balanced; simpl; lia. Qed.

Lemma balanced_step th th' : thread_step th th' → balanced th → balanced th'.
Proof. unfold thread_step, balanced. intros (? & ? & ? & ?) ?. lia. Qed.

Lemma heap_le_refl h : heap_le h h.
Proof. intros r th H. eauto using thread_step_refl. Qed.

(** Properties of the store that every engine operation keeps. *)
Section HeapProperty.

Variable P : list Thread.t → Prop.

Hypothesis P_update : ∀ h r th th',
  h !! r = Some th → thread_step th th' → P h → P (<[r := th']> h).

Hypothesis P_alloc : ∀ h i name priority instructions,
  P h → P (h ++ [Thread.make i name priority instructions]).

Let I (e : SimulationEngine) : Prop := P (heap e).

Lemma pres_update r f :
  (∀ th, thread_step th (f th)) → pres I (update r f).
Proof.
  intros Hf e H. unfold update. apply wp_bind, wp_deref; [|done].
  intros th Hth. apply wp_modify. unfold I; simpl. by eapply P_update.
Qed.

Create HintDb heap_pres.

Ltac heap_pres :=
  repeat first
    [ pres_step
    | apply pres_update; solve [auto with thread_step]
    | solve [auto 1 with heap_pres]
    | apply pres_modify; intros ? ?; assumption
    | assumption ].

Lemma pres_log m l : pres I (log m l).
Proof. unfold log. heap_pres. Qed.

Lemma pres_setCore i c : pres I (setCore i c).
Proof. unfold setCore. heap_pres. Qed.

#[local] Hint Resolve pres_log pres_setCore : heap_pres.

Lemma pres_initialize n a q m : pres I (initialize n a q m).
Proof. unfold initialize, reset. heap_pres. Qed.

Lemma pres_newThread name priority instructions :
  pres I (newThread name priority instructions).
Proof.
  unfold newThread. heap_pres.
  apply pres_modify. intros e H. unfold I; simpl. by apply P_alloc.
Qed.

Lemma pres_mapThreadToKernel thread : pres I (mapThreadToKernel thread).
Proof. unfold mapThreadToKernel. heap_pres. Qed.

Lemma pres_moveToReady thread : pres I (moveToReady thread).
Proof. unfold moveToReady. heap_pres. Qed.

Lemma pres_moveToBlocked thread reason : pres I (moveToBlocked thread reason).
Proof. unfold moveToBlocked. heap_pres. Qed.

Lemma pres_moveToTerminated thread : pres I (moveToTerminated thread).
Proof. unfold moveToTerminated. heap_pres. Qed.

#[local] Hint Resolve pres_mapThreadToKernel pres_moveToReady
  pres_moveToBlocked pres_moveToTerminated : heap_pres.

Lemma pres_addThread thread : pres I (addThread thread).
Proof. unfold addThread. heap_pres. Qed.

Lemma pres_fireTimer : pres I fireTimer.
Proof. unfold fireTimer, timeoutCallback. heap_pres. Qed.

Lemma pres_addSemaphore name v : pres I (addSemaphore name v).
Proof. unfold addSemaphore. heap_pres. Qed.

Lemma pres_addMonitor name : pres I (addMonitor name).
Proof. unfold addMonitor. heap_pres. Qed.

Lemma pres_releaseCoreOf thread : pres I (releaseCoreOf thread).
Proof. unfold releaseCoreOf. heap_pres. Qed.

Lemma pres_removeFromBlocked thread : pres I (removeFromBlocked thread).
Proof. unfold removeFromBlocked. heap_pres. Qed.

Lemma pres_putSemaphore instruction s : pres I (putSemaphore instruction s).
Proof. unfold putSemaphore. heap_pres. Qed.

Lemma pres_putMonitor instruction m : pres I (putMonitor instruction m).
Proof. unfold putMonitor. heap_pres. Qed.

#[local] Hint Resolve pres_releaseCoreOf pres_removeFromBlocked
  pres_putSemaphore pres_putMonitor : heap_pres.

Lemma pres_unblock thread : pres I (unblock thread).
Proof. unfold unblock. heap_pres. Qed.

Lemma pres_threadName thread : pres I (threadName thread).
Proof. unfold threadName. heap_pres. Qed.

#[local] Hint Resolve pres_unblock pres_threadName : heap_pres.

Lemma pres_executeInstruction thread instruction :
  pres I (executeInstruction thread instruction).
Proof.
  unfold executeInstruction, getSemaphore, getMonitor. heap_pres.
Qed.

Lemma pres_execute thread : pres I (execute thread).
Proof.
  intros e H. unfold execute. apply wp_bind, wp_deref; [|done].
  intros th Hth. pose proof (thread_step_execute th) as Hstep.
  destruct (Thread.execute th) as [result th'].
  apply wp_bind, wp_modify, wp_ret. unfold I; simpl. by eapply P_update.
Qed.

Lemma pres_releaseThread i : pres I (releaseThread i).
Proof. unfold releaseThread. heap_pres. Qed.

Lemma pres_assignThread i thread : pres I (assignThread i thread).
Proof. unfold assignThread. heap_pres. Qed.

#[local] Hint Resolve pres_executeInstruction pres_execute
  pres_releaseThread pres_assignThread : heap_pres.

Lemma pres_runCore i : pres I (runCore i).
Proof. unfold runCore. heap_pres. Qed.

Lemma pres_manyToOne : pres I manyToOne.
Proof. unfold manyToOne. heap_pres. Qed.

Lemma pres_dispatchCore i : pres I (dispatchCore i).
Proof. unfold dispatchCore. heap_pres. Qed.

#[local] Hint Resolve pres_runCore pres_manyToOne pres_dispatchCore
  : heap_pres.

Lemma pres_tick : pres I tick.
Proof. unfold tick. heap_pres. Qed.

Lemma pres_run o : pres I (run o).
Proof.
  destruct o; simpl;
    auto using pres_initialize, pres_addSemaphore, pres_addMonitor,
               pres_tick, pres_fireTimer.
  apply pres_bind; [apply pres_newThread|intros ?; apply pres_addThread].
Qed.

Lemma heap_property_run o e : P (heap e) → P (heap (final (run o e))).
Proof. intros H. exact (pres_final I (run o) e (pres_run o) H). Qed.

End HeapProperty.

Lemma all_balanced_update h r th th' :
  h !! r = Some th → thread_step th th' →
  all_balanced h → all_balanced (<[r := th']> h).
Proof.
  intros Hr Hstep Hall r' t Ht.
  destruct (decide (r = r')) as [<-|Hne].
  - rewrite list_lookup_insert_eq in Ht by (by eapply lookup_lt_Some).
    injection Ht as <-. eapply balanced_step; [done|]. by eapply Hall.
  - rewrite list_lookup_insert_ne in Ht by done. by eapply Hall.
Qed.

Lemma all_balanced_alloc h i name priority instructions :
  all_balanced h →
  all_balanced (h ++ [Thread.make i name priority instructions]).
Proof.
  intros Hall r t Ht. apply lookup_app_Some in Ht as [Ht|[_ Ht]].
  - by eapply Hall.
  - apply list_lookup_singleton_Some in Ht as [_ <-]. apply balanced_make.
Qed.

Lemma heap_le_update h0 h r th th' :
  h !! r = Some th → thread_step th th' →
  heap_le h0 h → heap_le h0 (<[r := th']> h).
Proof.
  intros Hr Hstep Hle r' t0 Ht0.
  destruct (Hle r' t0 Ht0) as (t & Ht & Hst).
  destruct (decide (r = r')) as [<-|Hne].
  - exists th'. rewrite list_lookup_insert_eq by (by eapply lookup_lt_Some).
    split; [done|]. rewrite Hr in Ht. injection Ht as <-.
    by eapply thread_step_trans.
  - exists t. by rewrite list_lookup_insert_ne.
Qed.

Lemma heap_le_alloc h0 h i name priority instructions :
  heap_le h0 h →
  heap_le h0 (h ++ [Thread.make i name priority instructions]).
Proof.
  intros Hle r t0 Ht0. destruct (Hle r t0 Ht0) as (t & Ht & Hst).
  exists t. split; [|done]. by apply lookup_app_l_Some.
Qed.

Lemma reachable_balanced e : reachable e → all_balanced (heap e).
Proof.
  induction 1 as [|o e _ IH]; [by intros r th Hr|].
  by apply (heap_property_run all_balanced
              all_balanced_update all_balanced_alloc).
Qed.

Lemma run_heap_le o e : heap_le (heap e) (heap (final (run o e))).
Proof.
  apply (heap_property_run (heap_le (heap e))
           (heap_le_update (heap e)) (heap_le_alloc (heap e))).
  apply heap_le_refl.
Qed.

Lemma reachable_runAll os e : reachable e → reachable (runAll os e).
Proof.
  revert e; induction os as [|o os IH]; intros e He; [done|].
  apply IH. by constructor.
Qed.

(** C9: a thread is constructed with [remainingTime + currentInstruction =
    burstTime]; the equation holds for every thread object in every state
    that calls on the engine can reach (after every tick in particular,
    and also where a call has thrown); and no call moves a cursor back. *)
Theorem C9_remaining_plus_cursor_is_burst (e : SimulationEngine) :
  reachable e →
  (∀ i name priority instructions,
     balanced (Thread.make i name priority instructions)) ∧
  (∀ r th, heap e !! r = Some th →
     Thread.remainingTime th + Z.of_nat (Thread.currentInstruction th)
       = Thread.burstTime th) ∧
  (∀ r th, heap e !! r = Some th →
     ∃ th', heap (final (tick e)) !! r = Some th' ∧
       Thread.remainingTime th' + Z.of_nat (Thread.currentInstruction th')
         = Thread.burstTime th') ∧
  (∀ o r th, heap e !! r = Some th →
     ∃ th', heap (final (run o e)) !! r = Some th' ∧
       (Thread.currentInstruction th ≤ Thread.currentInstruction th')%nat).
Proof.
  intros He. split; [|split; [|split]].
  - intros. apply balanced_make.
  - intros r th Hr. by apply (reachable_balanced e He r th).
  - intros r th Hr.
    destruct (run_heap_le OpTick e r th Hr) as (th' & Hr' & _).
    exists th'. split; [done|].
    by apply (reachable_balanced _ (reachable_run OpTick e He) r th').
  - intros o r th Hr.
    destruct (run_heap_le o e r th Hr) as (th' & Hr' & _ & _ & Hle & _).
    by exists th'.
Qed.

Lemma C9_remaining_plus_cursor_is_burst_witness :
  let e := runAll blockOnLastCalls newEngine in
  (∀ i name priority instructions,
     balanced (Thread.make i name priority instructions)) ∧
  (∀ r th, heap e !! r = Some th →
     Thread.remainingTime th + Z.of_nat (Thread.currentInstruction th)
       = Thread.burstTime th) ∧
  (∀ r th, heap e !! r = Some th →
     ∃ th', heap (final (tick e)) !! r = Some th' ∧
       Thread.remainingTime th' + Z.of_nat (Thread.currentInstruction th')
         = Thread.burstTime th') ∧
  (∀ o r th, heap e !! r = Some th →
     ∃ th', heap (final (run o e)) !! r = Some th' ∧
       (Thread.currentInstruction th ≤ Thread.currentInstruction th')%nat).
Proof.
  apply (C9_remaining_plus_cursor_is_burst (runAll blockOnLastCalls newEngine)).
  apply reachable_runAll. constructor.
Defined.

(** * What [tick] and [executeInstruction] leave alone *)

Section SameConfig.

Variable e0 : SimulationEngine.

Let I (e : SimulationEngine) : Prop := same_config e0 e.

Ltac config_modify :=
  apply pres_modify; unfold I, same_config;
  intros ? (? & ? & ? & ? & ? & ?); simpl; rewrite ?length_insert; done.

Lemma cfg_update r f : pres I (update r f).
Proof.
  unfold update. apply pres_bind; [apply pres_deref|]. intros th. config_modify.
Qed.

Create HintDb cfg_pres.

Ltac cfg_pres :=
  repeat first
    [ pres_step
    | apply cfg_update
    | solve [auto 1 with cfg_pres]
    | config_modify ].

Lemma cfg_moveToReady thread : pres I (moveToReady thread).
Proof. unfold moveToReady, log. cfg_pres. Qed.

Lemma cfg_moveToBlocked thread reason : pres I (moveToBlocked thread reason).
Proof. unfold moveToBlocked, log. cfg_pres. Qed.

Lemma cfg_moveToTerminated thread : pres I (moveToTerminated thread).
Proof. unfold moveToTerminated, log. cfg_pres. Qed.

Lemma cfg_releaseCoreOf thread : pres I (releaseCoreOf thread).
Proof. unfold releaseCoreOf, setCore. cfg_pres. Qed.

Lemma cfg_releaseThread i : pres I (releaseThread i).
Proof. unfold releaseThread, setCore. cfg_pres. Qed.

#[local] Hint Resolve cfg_moveToReady cfg_moveToBlocked cfg_moveToTerminated
  cfg_releaseCoreOf cfg_releaseThread : cfg_pres.

Lemma cfg_executeInstruction thread instruction :
  pres I (executeInstruction thread instruction).
Proof.
  unfold executeInstruction, getSemaphore, getMonitor, putSemaphore,
    putMonitor, unblock, removeFromBlocked, threadName, log.
  cfg_pres.
Qed.

Lemma cfg_execute thread : pres I (execute thread).
Proof. unfold execute. cfg_pres. Qed.

#[local] Hint Resolve cfg_executeInstruction cfg_execute : cfg_pres.

Lemma cfg_runCore i : pres I (runCore i).
Proof. unfold runCore, setCore, threadName, log. cfg_pres. Qed.

Lemma cfg_manyToOne : pres I manyToOne.
Proof. unfold manyToOne, setCore. cfg_pres. Qed.

Lemma cfg_dispatchCore i : pres I (dispatchCore i).
Proof. unfold dispatchCore, assignThread, setCore, threadName, log. cfg_pres. Qed.

#[local] Hint Resolve cfg_runCore cfg_manyToOne cfg_dispatchCore : cfg_pres.

Lemma cfg_tick : pres I tick.
Proof. unfold tick. cfg_pres. Qed.

End SameConfig.

Lemma same_config_refl e : same_config e e.
Proof. by unfold same_config. Qed.

Lemma tick_same_config e : same_config e (final (tick e)).
Proof. apply (pres_final _ tick e (cfg_tick e)), same_config_refl. Qed.

Lemma executeInstruction_same_config thread instruction e :
  same_config e (final (executeInstruction thread instruction e)).
Proof.
  apply (pres_final _ _ e (cfg_executeInstruction e thread instruction)),
    same_config_refl.
Qed.

(** [executeInstruction] writes threads through [setState] only. *)
Section StateChange.

Variable P : list Thread.t → Prop.

Hypothesis P_setState : ∀ h r th s,
  h !! r = Some th → P h → P (<[r := Thread.setState s th]> h).

Let I (e : SimulationEngine) : Prop := P (heap e).

Lemma sc_setState r s : pres I (update r (Thread.setState s)).
Proof.
  intros e H. unfold update. apply wp_bind, wp_deref; [|done].
  intros th Hth. apply wp_modify. unfold I; simpl. by eapply P_setState.
Qed.

Create HintDb sc_pres.

Ltac sc_pres :=
  repeat first
    [ pres_step
    | apply sc_setState
    | solve [auto 1 with sc_pres]
    | apply pres_modify; intros ? ?; assumption ].

Lemma sc_moveToReady thread : pres I (moveToReady thread).
Proof. unfold moveToReady, log. sc_pres. Qed.

Lemma sc_moveToBlocked thread reason : pres I (moveToBlocked thread reason).
Proof. unfold moveToBlocked, log. sc_pres. Qed.

#[local] Hint Resolve sc_moveToReady sc_moveToBlocked : sc_pres.

Lemma sc_executeInstruction thread instruction :
  pres I (executeInstruction thread instruction).
Proof.
  unfold executeInstruction, getSemaphore, getMonitor, putSemaphore,
    putMonitor, releaseCoreOf, setCore, unblock, removeFromBlocked,
    threadName, log.
  sc_pres.
Qed.

End StateChange.

Lemma same_work_insert_setState (h : list Thread.t) (r r' : nat) th t s :
  h !! r' = Some t →
  (∃ th', h !! r = Some th' ∧ same_work th th') →
  ∃ th', <[r' := Thread.setState s t]> h !! r = Some th' ∧ same_work th th'.
Proof.
  intros Hr' (th' & Hth' & Hsame).
  destruct (decide (r' = r)) as [->|Hne].
  - exists (Thread.setState s t).
    rewrite list_lookup_insert_eq by (by eapply lookup_lt_Some).
    split; [done|]. rewrite Hr' in Hth'. injection Hth' as <-.
    by destruct Hsame as (? & ? & ?).
  - exists th'. by rewrite list_lookup_insert_ne.
Qed.

Lemma executeInstruction_same_work thread instruction e r th :
  heap e !! r = Some th →
  ∃ th', heap (final (executeInstruction thread instruction e)) !! r = Some th'
         ∧ same_work th th'.
Proof.
  intros Hr.
  apply (pres_final _ _ e
    (sc_executeInstruction
       (λ h, ∃ th', h !! r = Some th' ∧ same_work th th')
       (λ h r' t s, same_work_insert_setState h r r' th t s)
       thread instruction)).
  by exists th.
Qed.

(** * Evaluating computations step by step *)

Lemma bind_eq {A B} (m : M A) (k : A → M B) e a e' :
  m e = Ok a e' → bind m k e = k a e'.
Proof. unfold bind. by intros ->. Qed.

Lemma getCore_eq i c e : cpuCores e !! i = Some c → getCore i e = Ok c e.
Proof. unfold getCore. by intros ->. Qed.

Lemma deref_eq r th e : heap e !! r = Some th → deref r e = Ok th e.
Proof. unfold deref. by intros ->. Qed.

Lemma update_eq r f th e :
  heap e !! r = Some th →
  update r f e = Ok () (set_heap (λ h, <[r := f th]> h) e).
Proof. intros H. unfold update. by rewrite (bind_eq _ _ _ _ _ (deref_eq _ _ _ H)). Qed.

Lemma execute_eq thread th instruction e :
  heap e !! thread = Some th →
  Thread.instructions th !! Thread.currentInstruction th = Some instruction →
  execute thread e
    = Ok (Some instruction)
         (set_heap (λ h, <[thread := (Thread.execute th).2]> h) e).
Proof.
  intros Hth Hins. unfold execute.
  rewrite (bind_eq _ _ _ _ _ (deref_eq _ _ _ Hth)).
  unfold Thread.execute. by rewrite Hins.
Qed.

Lemma runCore_running (e e1 : SimulationEngine) (i : nat) (core : CPUCore.t)
    (thread : nat) (th : Thread.t) (instruction : Instruction) :
  cpuCores e !! i = Some core →
  CPUCore.isIdle core = false →
  CPUCore.currentThread core = Some thread →
  heap e !! thread = Some th →
  Thread.instructions th !! Thread.currentInstruction th = Some instruction →
  executeInstruction thread instruction
    (set_heap (λ h, <[thread := (Thread.execute th).2]> h)
       (set_cpuCores (λ cs, <[i := CPUCore.tick core]> cs) e)) = Ok () e1 →
  runCore i e =
    (let* th1 := deref thread in
     let* sched := gets scheduler in
     if Thread.isComplete th1 then releaseThread i ;; moveToTerminated thread
     else if Scheduler.shouldPreempt sched th1 then
       let* released := releaseThread i in
       match released with
       | Some preemptedThread =>
           update preemptedThread (Thread.set_quantum 0) ;;
           moveToReady preemptedThread ;;
           let* n := threadName preemptedThread in
           log ("Thread " +:+ n +:+ " preempted") "info"
       | None => throw
       end
     else ret ()) e1.
Proof.
  intros Hcore Hidle Hcur Hth Hins Hexec.
  unfold runCore.
  rewrite (bind_eq _ _ _ _ _ (getCore_eq _ _ _ Hcore)).
  erewrite bind_eq by reflexivity.
  erewrite bind_eq; cycle 1.
  { apply getCore_eq. simpl. apply list_lookup_insert_eq. by eapply lookup_lt_Some. }
  assert (CPUCore.isIdle (CPUCore.tick core) = false) as ->
    by (unfold CPUCore.tick; rewrite Hidle; done).
  assert (CPUCore.currentThread (CPUCore.tick core) = Some thread) as ->
    by (unfold CPUCore.tick; rewrite Hidle; done).
  erewrite bind_eq; cycle 1.
  { apply execute_eq; [exact Hth|exact Hins]. }
  erewrite bind_eq by exact Hexec.
  reflexivity.
Qed.

Lemma threadName_eq r th e :
  heap e !! r = Some th → threadName r e = Ok (Thread.name th) e.
Proof.
  intros H. unfold threadName. by rewrite (bind_eq _ _ _ _ _ (deref_eq _ _ _ H)).
Qed.

Lemma releaseThread_eq i c e :
  cpuCores e !! i = Some c →
  releaseThread i e
    = Ok (CPUCore.currentThread c)
         (set_cpuCores (λ cs, <[i := (CPUCore.releaseThread c).2]> cs) e).
Proof.
  intros H. unfold releaseThread.
  by rewrite (bind_eq _ _ _ _ _ (getCore_eq _ _ _ H)).
Qed.

Lemma moveToReady_eq thread th e :
  heap e !! thread = Some th →
  ∃ e', moveToReady thread e = Ok () e' ∧
    heap e' = <[thread := Thread.setState READY th]> (heap e) ∧
    readyQueue e' = readyQueue e ++ [thread] ∧
    cpuCores e' = cpuCores e ∧ timers e' = timers e ∧
    clockTick e' = clockTick e.
Proof.
  intros H. unfold moveToReady.
  rewrite (bind_eq _ _ _ _ _ (update_eq _ _ _ _ H)).
  erewrite bind_eq by reflexivity.
  erewrite bind_eq; cycle 1.
  { apply deref_eq. simpl. apply list_lookup_insert_eq. by eapply lookup_lt_Some. }
  eexists. split; [reflexivity|]. done.
Qed.

(** * Admission of a thread *)

Lemma lookup_snoc_length {A} (l : list A) x : (l ++ [x]) !! length l = Some x.
Proof. by apply list_lookup_middle. Qed.

Lemma insert_snoc_length {A} (l : list A) x y :
  <[length l := y]> (l ++ [x]) = l ++ [y].
Proof.
  rewrite insert_app_r_alt by lia. by rewrite Nat.sub_diag.
Qed.

Lemma mapThreadToKernel_eq thread th e :
  heap e !! thread = Some th →
  ∃ e' k,
    mapThreadToKernel thread e = Ok () e' ∧
    heap e' = <[thread := Thread.set_kernelThreadId k th]> (heap e) ∧
    clockTick e' = clockTick e ∧ timers e' = timers e ∧
    readyQueue e' = readyQueue e.
Proof.
  intros Hth. unfold mapThreadToKernel.
  erewrite bind_eq by reflexivity.
  repeat case_decide.
  - erewrite bind_eq by reflexivity. erewrite bind_eq by reflexivity.
    erewrite update_eq by exact Hth. by eexists _, _.
  - erewrite bind_eq by reflexivity.
    unfold when. case_bool_decide.
    + erewrite bind_eq by reflexivity.
      erewrite update_eq by exact Hth. by eexists _, _.
    + erewrite bind_eq by reflexivity.
      erewrite update_eq by exact Hth. by eexists _, _.
  - erewrite bind_eq by reflexivity. erewrite bind_eq by reflexivity.
    case_decide.
    + erewrite update_eq by exact Hth. by eexists _, _.
    + erewrite bind_eq by (by apply update_eq).
      erewrite bind_eq by reflexivity.
      unfold when. case_bool_decide; by eexists _, _.
  - exists e, (Thread.kernelThreadId th). split; [done|].
    split; [|done]. symmetry. apply list_insert_id.
    rewrite Hth. by destruct th.
Qed.

Lemma addThread_fresh (e : SimulationEngine) name priority instructions :
  ∃ e' th,
    run (OpAddThread name priority instructions) e = Ok () e' ∧
    heap e' = heap e ++ [th] ∧
    Thread.state th = NEW ∧
    Thread.arrivalTime th = clockTick e ∧
    clockTick e' = clockTick e ∧
    timers e' = timers e ++ [length (heap e)] ∧
    readyQueue e' = readyQueue e.
Proof.
  unfold run, newThread, addThread.
  erewrite bind_eq by reflexivity.
  erewrite bind_eq by reflexivity.
  erewrite bind_eq; cycle 1.
  { apply update_eq. simpl. apply lookup_snoc_length. }
  do 2 (erewrite bind_eq by reflexivity).
  set (th0 := Thread.set_arrivalTime _ _).
  set (e0 := set_userThreadCount _ _).
  assert (heap e0 = heap e ++ [th0]) as Hheap0
    by (subst e0; simpl; apply insert_snoc_length).
  destruct (mapThreadToKernel_eq (length (heap e)) th0 e0)
    as (e1 & k & Hmap & Hheap & Hclock & Htimers & Hrq).
  { rewrite Hheap0. apply lookup_snoc_length. }
  rewrite Hheap0, insert_snoc_length in Hheap.
  erewrite bind_eq by exact Hmap.
  erewrite bind_eq; cycle 1.
  { apply update_eq. rewrite Hheap. apply lookup_snoc_length. }
  erewrite bind_eq; cycle 1.
  { apply deref_eq. simpl. rewrite Hheap, insert_snoc_length.
    apply lookup_snoc_length. }
  erewrite bind_eq by reflexivity.
  eexists _, _. split; [reflexivity|]. simpl.
  rewrite Hheap, Hclock, Htimers, Hrq, insert_snoc_length. done.
Qed.

Lemma fireTimer_eq e r rest th :
  timers e = r :: rest → heap e !! r = Some th →
  ∃ e', fireTimer e = Ok () e' ∧ timers e' = rest ∧
    clockTick e' = clockTick e ∧
    if decide (Thread.state th = NEW)
    then stateOf e' r = Some READY ∧ readyQueue e' = readyQueue e ++ [r]
    else heap e' = heap e ∧ readyQueue e' = readyQueue e.
Proof.
  intros Hts Hth. unfold fireTimer.
  erewrite bind_eq by reflexivity. rewrite Hts.
  erewrite bind_eq by reflexivity. unfold timeoutCallback.
  erewrite bind_eq by (by apply deref_eq).
  case_decide.
  - destruct (moveToReady_eq r th (set_timers (λ _, rest) e) Hth)
      as (e' & -> & Hheap & Hrq & _ & Htimers & Hclock).
    exists e'. split; [done|]. split; [done|]. split; [done|].
    split; [|done]. unfold stateOf. rewrite Hheap. simpl.
    rewrite list_lookup_insert_eq by (by eapply lookup_lt_Some). done.
  - by eexists.
Qed.

(** C8 as stated fails: no delay [d] of the simulated clock decides whether an
    admitted thread is still [NEW].  Right after [addThread] the thread is
    [NEW]; when the timer callback runs at the same clock tick it is [READY]. *)
Lemma C8_counterexample : ¬ ∃ d, admitted_by_clock d.
Proof.
  intros [d H].
  pose proof (H [] (Some "A") 5 [computeI] []) as H1.
  pose proof (H [] (Some "A") 5 [computeI] [OpTimeout]) as H2.
  cbv zeta in H1, H2.
  eassert (heap (runAll [OpAddThread (Some "A") 5 [computeI]]
                   (runAll [] newEngine)) !! 0%nat = Some _) as Hth1
    by (vm_compute; reflexivity).
  eassert (heap (runAll [OpAddThread (Some "A") 5 [computeI]; OpTimeout]
                   (runAll [] newEngine)) !! 0%nat = Some _) as Hth2
    by (vm_compute; reflexivity).
  specialize (H1 _ Hth1). specialize (H2 _ Hth2).
  assert (0 < d) as Hd.
  { apply Z.lt_0_sub. 
    assert (clockTick (runAll [OpAddThread (Some "A") 5 [computeI]]
                   (runAll [] newEngine)) = 0) as Hc by (vm_compute; reflexivity).
    rewrite Hc in H1. simpl in H1. destruct H1 as [H1 _]. specialize (H1 eq_refl). lia. }
  assert (clockTick (runAll [OpAddThread (Some "A") 5 [computeI]; OpTimeout]
                   (runAll [] newEngine)) = 0) as Hc by (vm_compute; reflexivity).
  rewrite Hc in H2. simpl in H2. destruct H2 as [_ H2].
  specialize (H2 ltac:(lia)). done.
Qed.

(** * Threads that nothing refers to keep their state *)

Lemma pres_bind_strong {A B} (I : SimulationEngine → Prop) (φ : A → Prop)
    (m : M A) (k : A → M B) :
  (∀ e, I e → wp m (λ a e', I e' ∧ φ a) I e) →
  (∀ a, φ a → pres I (k a)) →
  pres I (bind m k).
Proof.
  intros Hm Hk e H. apply wp_bind.
  eapply wp_mono; [by apply Hm| |done]. intros a e' [H' Ha]. by apply Hk.
Qed.

Lemma pres_bind_gets {A B} (I : SimulationEngine → Prop)
    (f : SimulationEngine → A) (k : A → M B) :
  (∀ e, I e → pres I (k (f e))) → pres I (bind (gets f) k).
Proof.
  intros Hk. apply (pres_bind_strong I (λ a, ∃ e, I e ∧ a = f e)).
  - intros e H. apply wp_gets. eauto.
  - intros a (e & H & ->). by apply Hk.
Qed.

Lemma pres_bind_getCore {B} (I : SimulationEngine → Prop) i (k : CPUCore.t → M B) :
  (∀ e c, I e → cpuCores e !! i = Some c → pres I (k c)) →
  pres I (bind (getCore i) k).
Proof.
  intros Hk. apply (pres_bind_strong I (λ c, ∃ e, I e ∧ cpuCores e !! i = Some c)).
  - intros e H. apply wp_getCore; eauto.
  - intros a (e & H & Hc). by eapply Hk.
Qed.

Lemma list_elem_of_insert_inv {A} (l : list A) i x y :
  y ∈ <[i := x]> l → y = x ∨ y ∈ l.
Proof.
  intros [j Hj]%list_elem_of_lookup_1.
  destruct (decide (i = j)) as [->|Hne].
  - destruct (decide (j < length l)%nat).
    + rewrite list_lookup_insert_eq in Hj by done. left. congruence.
    + rewrite list_insert_ge in Hj by lia. right. by eapply list_elem_of_lookup_2.
  - rewrite list_lookup_insert_ne in Hj by done. right. by eapply list_elem_of_lookup_2.
Qed.

Lemma selectNextThread_sub s h (rq : list nat) sel rq' :
  Scheduler.selectNextThread s h rq = Some (sel, rq') →
  (∀ x, sel = Some x → x ∈ rq) ∧ (∀ y, y ∈ rq' → y ∈ rq).
Proof.
  unfold Scheduler.selectNextThread. destruct rq as [|head rest]; [naive_solver|].
  repeat case_decide.
  - intros [= <- <-]. split; [intros x [= <-]; by left|intros y ?; by right].
  - destruct (Scheduler.highestPriorityIndex _ _) as [i|]; [|done]. simpl.
    intros [= <- <-]. split.
    + intros x Hx. by eapply list_elem_of_lookup_2.
    + intros y Hy. by eapply list_elem_of_delete_inv.
  - intros [= <- <-]. split; [intros x [= <-]; by left|intros y ?; by right].
Qed.

Section Frozen.

Variable T : nat.
Variable st : option ThreadState.

Let I (e : SimulationEngine) : Prop := frozen T st e.

Ltac fz_frame := apply pres_modify; intros ? H; exact H.

Lemma fz_update r f :
  r ≠ T ∨ (∀ th, Thread.state (f th) = Thread.state th) →
  pres I (update r f).
Proof.
  intros Hr e [Hst Hun]. unfold update. apply wp_bind, wp_deref; [|done].
  intros th Hth. apply wp_modify. split; [|done].
  unfold stateOf in *; simpl.
  destruct (decide (r = T)) as [->|Hne].
  - rewrite list_lookup_insert_eq by (by eapply lookup_lt_Some).
    rewrite Hth in Hst. simpl in *. destruct Hr as [?|Hr]; [done|].
    by rewrite Hr.
  - by rewrite list_lookup_insert_ne.
Qed.

Lemma fz_log m l : pres I (log m l).
Proof. unfold log. fz_frame. Qed.

Lemma fz_push_ready x :
  x ≠ T → pres I (modify (set_readyQueue (λ q, q ++ [x]))).
Proof.
  intros Hx. apply pres_modify. intros e (Hst & Hrq & Hun).
  split; [done|]. split; [|done]. simpl.
  by intros [?|?%list_elem_of_singleton]%elem_of_app.
Qed.

Lemma fz_setCore i c :
  CPUCore.currentThread c ≠ Some T → pres I (setCore i c).
Proof.
  intros Hc. apply pres_modify. intros e (Hst & Hrq & Hts & Hcores & Hun).
  split; [done|]. split; [done|]. split; [done|]. split; [|done].
  simpl. intros c' [->|Hc']%list_elem_of_insert_inv; [done|by apply Hcores].
Qed.

Lemma fz_putSemaphore instruction s :
  T ∉ Semaphore.waitQueue s → pres I (putSemaphore instruction s).
Proof.
  intros Hs. unfold putSemaphore. destruct (resource instruction) as [r|];
    [|apply pres_ret].
  apply pres_modify. intros e (Hst & Hrq & Hts & Hcores & Hsems & Hmons).
  repeat (split; [done|]). split; [|done]. simpl.
  intros n s' Hn. destruct (decide (r = n)) as [->|Hne].
  - rewrite lookup_insert_eq in Hn. by injection Hn as <-.
  - rewrite lookup_insert_ne in Hn by done. by eapply Hsems.
Qed.

Lemma fz_putMonitor instruction m :
  T ∉ Monitor.entryQueue m → T ∉ Monitor.conditionQueue m →
  pres I (putMonitor instruction m).
Proof.
  intros Hm1 Hm2. unfold putMonitor. destruct (resource instruction) as [r|];
    [|apply pres_ret].
  apply pres_modify. intros e (Hst & Hrq & Hts & Hcores & Hsems & Hmons).
  repeat (split; [done|]). simpl.
  intros n m' Hn. destruct (decide (r = n)) as [->|Hne].
  - rewrite lookup_insert_eq in Hn. by injection Hn as <-.
  - rewrite lookup_insert_ne in Hn by done. by eapply Hmons.
Qed.

Lemma fz_threadName thread : pres I (threadName thread).
Proof. unfold threadName. repeat pres_step. Qed.

Lemma fz_moveToReady x : x ≠ T → pres I (moveToReady x).
Proof.
  intros Hx. unfold moveToReady.
  apply pres_bind; [apply fz_update; by left|intros _].
  apply pres_bind; [by apply fz_push_ready|intros _].
  apply pres_bind; [apply pres_deref|intros ?]. apply fz_log.
Qed.

Lemma fz_moveToBlocked x reason : x ≠ T → pres I (moveToBlocked x reason).
Proof.
  intros Hx. unfold moveToBlocked.
  apply pres_bind; [apply fz_update; by left|intros _].
  apply pres_bind; [apply pres_gets|intros ?].
  apply pres_bind; [apply pres_when; fz_frame|intros _].
  apply pres_bind; [apply pres_deref|intros ?]. apply fz_log.
Qed.

Lemma fz_moveToTerminated x : x ≠ T → pres I (moveToTerminated x).
Proof.
  intros Hx. unfold moveToTerminated.
  apply pres_bind; [apply fz_update; by left|intros _].
  apply pres_bind; [apply pres_gets|intros ?].
  apply pres_bind; [apply fz_update; by left|intros _].
  apply pres_bind; [fz_frame|intros _].
  apply pres_bind; [apply pres_deref|intros ?]. apply fz_log.
Qed.

Lemma fz_releaseCoreOf x : pres I (releaseCoreOf x).
Proof.
  unfold releaseCoreOf. apply pres_bind; [apply pres_gets|intros cores].
  destruct (list_find _ cores) as [[i c]|]; [|apply pres_ret].
  by apply fz_setCore.
Qed.

Lemma fz_removeFromBlocked x : pres I (removeFromBlocked x).
Proof. unfold removeFromBlocked. fz_frame. Qed.

Lemma fz_unblock x : x ≠ T → pres I (unblock x).
Proof.
  intros Hx. unfold unblock.
  apply pres_bind; [apply fz_removeFromBlocked|intros _].
  by apply fz_moveToReady.
Qed.


Lemma fz_sem_lookup e instruction s :
  I e → (r ← resource instruction; semaphores e !! r) = Some s →
  T ∉ Semaphore.waitQueue s.
Proof.
  intros (_ & _ & _ & _ & Hsems & _) Hs.
  destruct (resource instruction) as [r|]; [|done]. by eapply Hsems.
Qed.

Lemma fz_mon_lookup e instruction m :
  I e → (r ← resource instruction; monitors e !! r) = Some m →
  (T ∉ Monitor.entryQueue m) ∧ (T ∉ Monitor.conditionQueue m).
Proof.
  intros (_ & _ & _ & _ & _ & Hmons) Hm.
  destruct (resource instruction) as [r|]; [|done]. by eapply Hmons.
Qed.

Ltac fz_q :=
  simpl;
  repeat match goal with
         | H : ?q = _ |- context [?q] => rewrite H
         end;
  first [done | apply not_elem_of_nil].

Ltac fz_tail :=
  repeat first
    [ apply fz_log | apply fz_threadName | apply pres_ret
    | apply pres_bind; [|intros ?] ].

Lemma fz_executeInstruction thread instruction :
  thread ≠ T → pres I (executeInstruction thread instruction).
Proof.
  intros Hne. unfold executeInstruction, getSemaphore, getMonitor.
  destruct (type instruction); [apply pres_ret|..];
    apply pres_bind_gets; intros e He;
    (destruct (_ ≫= _) as [p|] eqn:Hp; [|apply pres_ret]).
  - (* wait *)
    pose proof (fz_sem_lookup _ _ _ He Hp) as Hq.
    unfold Semaphore.wait. case_bool_decide; simpl.
    + apply pres_bind; [apply fz_putSemaphore; simpl|intros _].
      { by intros [?|?%list_elem_of_singleton]%elem_of_app. }
      apply pres_bind; [apply fz_releaseCoreOf|intros _].
      by apply fz_moveToBlocked.
    + apply pres_bind; [by apply fz_putSemaphore|intros _]. fz_tail.
  - (* signal *)
    pose proof (fz_sem_lookup _ _ _ He Hp) as Hq.
    unfold Semaphore.signal. destruct (Semaphore.waitQueue p) as [|u rest] eqn:Hwq.
    + apply pres_bind; [apply fz_putSemaphore; fz_q|intros _].
      fz_tail.
    + apply not_elem_of_cons in Hq as [Hu Hrest].
      apply pres_bind; [by apply fz_putSemaphore|intros _].
      apply pres_bind; [|intros _; fz_tail].
      apply pres_bind; [by apply fz_unblock|intros _]. fz_tail.
  - (* enter-monitor *)
    pose proof (fz_mon_lookup _ _ _ He Hp) as [Hq1 Hq2].
    unfold Monitor.enter. destruct (Monitor.owner p).
    + apply pres_bind; [apply fz_putMonitor; simpl; [|done]|intros _].
      { by intros [?|?%list_elem_of_singleton]%elem_of_app. }
      simpl. apply pres_bind; [apply fz_releaseCoreOf|intros _].
      by apply fz_moveToBlocked.
    + apply pres_bind; [by apply fz_putMonitor|intros _]. fz_tail.
  - (* exit-monitor *)
    pose proof (fz_mon_lookup _ _ _ He Hp) as [Hq1 Hq2].
    unfold Monitor.exit.
    destruct (Monitor.conditionQueue p) as [|u rest] eqn:Hcq.
    + destruct (Monitor.entryQueue p) as [|u rest] eqn:Heq.
      * apply pres_bind;
          [apply fz_putMonitor; fz_q|intros _].
        fz_tail.
      * apply not_elem_of_cons in Hq1 as [Hu Hrest].
        apply pres_bind;
          [apply fz_putMonitor; fz_q|intros _].
        apply pres_bind; [|intros _; fz_tail].
        apply pres_bind; [by apply fz_unblock|intros _]. fz_tail.
    + apply not_elem_of_cons in Hq2 as [Hu Hrest].
      apply pres_bind; [by apply fz_putMonitor|intros _].
      apply pres_bind; [|intros _; fz_tail].
      apply pres_bind; [by apply fz_unblock|intros _]. fz_tail.
  - (* monitor-wait *)
    pose proof (fz_mon_lookup _ _ _ He Hp) as [Hq1 Hq2].
    assert (T ∉ Monitor.conditionQueue p ++ [thread]) as Hq3
      by (by intros [?|?%list_elem_of_singleton]%elem_of_app).
    unfold Monitor.wait. case_decide.
    + destruct (Monitor.entryQueue p) as [|u rest] eqn:Heq.
      * apply pres_bind;
          [apply fz_putMonitor; fz_q|intros _].
        simpl. apply pres_bind; [|intros _; apply pres_ret].
        apply pres_bind; [apply fz_releaseCoreOf|intros _].
        by apply fz_moveToBlocked.
      * apply not_elem_of_cons in Hq1 as [Hu Hrest].
        apply pres_bind; [by apply fz_putMonitor|intros _].
        simpl. apply pres_bind; [|intros _; by apply fz_unblock].
        apply pres_bind; [apply fz_releaseCoreOf|intros _].
        by apply fz_moveToBlocked.
    + apply pres_bind; [by apply fz_putMonitor|intros _].
      simpl. fz_tail.
  - (* monitor-signal *)
    pose proof (fz_mon_lookup _ _ _ He Hp) as [Hq1 Hq2].
    unfold Monitor.signal.
    destruct (Monitor.conditionQueue p) as [|u rest] eqn:Hcq.
    + apply pres_bind; [apply fz_putMonitor; fz_q|intros _].
      apply pres_ret.
    + apply not_elem_of_cons in Hq2 as [Hu Hrest].
      apply pres_bind; [by apply fz_putMonitor|intros _].
      apply pres_bind; [by apply fz_unblock|intros _]. fz_tail.
Qed.


Lemma fz_execute thread : thread ≠ T → pres I (execute thread).
Proof.
  intros Hne. unfold execute. apply pres_bind; [apply pres_deref|intros th].
  destruct (Thread.execute th) as [result th'].
  apply pres_bind; [|intros _; apply pres_ret].
  apply pres_modify. intros e [Hst Hun]. split; [|done].
  unfold stateOf in *; simpl. by rewrite list_lookup_insert_ne.
Qed.

Lemma fz_core e i c :
  I e → cpuCores e !! i = Some c → CPUCore.currentThread c ≠ Some T.
Proof.
  intros (_ & _ & _ & Hcores & _) Hc. apply Hcores.
  by eapply list_elem_of_lookup_2.
Qed.

Lemma fz_releaseThread {B} i (k : option nat → M B) :
  (∀ r, r ≠ Some T → pres I (k r)) → pres I (bind (releaseThread i) k).
Proof.
  intros Hk. apply (pres_bind_strong I (λ r, r ≠ Some T)); [|done].
  intros e He. unfold releaseThread. apply wp_bind, wp_getCore; [|done].
  intros c Hc. pose proof (fz_core e i c He Hc) as Hne.
  simpl. apply wp_bind.
  eapply wp_mono; [apply (fz_setCore i); [|exact He]| |done]; [done|].
  intros [] e' He'. by apply wp_ret.
Qed.

Lemma fz_runCore i : pres I (runCore i).
Proof.
  unfold runCore. apply pres_bind_getCore. intros e c He Hc.
  pose proof (fz_core e i c He Hc) as Hne.
  apply pres_bind.
  { apply fz_setCore. unfold CPUCore.tick. by destruct (CPUCore.isIdle c). }
  intros _. clear e c He Hc Hne.
  apply pres_bind_getCore. intros e c He Hc.
  pose proof (fz_core e i c He Hc) as Hne.
  destruct (CPUCore.isIdle c); [apply pres_ret|].
  destruct (CPUCore.currentThread c) as [thread|]; [|apply pres_ret].
  assert (thread ≠ T) as Hthread by congruence.
  apply pres_bind; [by apply fz_execute|intros result].
  apply pres_bind.
  { destruct result; [by apply fz_executeInstruction|apply pres_ret]. }
  intros _. apply pres_bind; [apply pres_deref|intros th].
  apply pres_bind; [apply pres_gets|intros sched].
  destruct (_ || _).
  - apply fz_releaseThread. intros _ _. by apply fz_moveToTerminated.
  - destruct (Scheduler.shouldPreempt sched th); [|apply pres_ret].
    apply fz_releaseThread. intros [p|] Hp; [|apply pres_throw].
    assert (p ≠ T) by congruence.
    apply pres_bind; [apply fz_update; by left|intros _].
    apply pres_bind; [by apply fz_moveToReady|intros _].
    fz_tail.
Qed.

Lemma fz_manyToOne : pres I manyToOne.
Proof.
  unfold manyToOne. apply pres_bind; [apply pres_gets|intros model].
  case_decide; [|apply pres_ret].
  apply pres_bind; [apply pres_gets|intros cores].
  apply pres_when, pres_forEach. intros i.
  apply pres_bind_getCore. intros e c He Hc.
  apply fz_setCore. simpl. by eapply fz_core.
Qed.

Lemma fz_dispatchCore i : pres I (dispatchCore i).
Proof.
  unfold dispatchCore. apply pres_bind; [apply pres_getCore|intros core].
  apply pres_bind_gets. intros e He.
  destruct (_ && _); [|apply pres_ret].
  apply pres_bind; [apply pres_gets|intros sched].
  apply pres_bind; [apply pres_gets|intros h].
  destruct (Scheduler.selectNextThread sched h (readyQueue e))
    as [[selected rq']|] eqn:Hsel; [|apply pres_throw].
  apply selectNextThread_sub in Hsel as [Hsel Hrq'].
  destruct He as (_ & Hrq & _).
  apply pres_bind.
  { apply pres_modify. intros e' (? & ? & ?). split; [done|]. split; [|done].
    simpl. intros ?%Hrq'. done. }
  intros _. destruct selected as [thread|]; [|apply pres_ret].
  assert (thread ≠ T) as Hne.
  { intros ->. apply Hrq. by apply Hsel. }
  apply pres_bind; [apply fz_update; by left|intros _].
  apply pres_bind.
  { unfold assignThread. apply pres_bind; [apply pres_getCore|intros c].
    apply pres_bind; [apply fz_setCore; simpl; congruence|intros _].
    apply fz_update; by left. }
  intros _. apply pres_bind; [apply fz_threadName|intros n].
  apply pres_bind; [apply pres_getCore|intros c]. apply fz_log.
Qed.

Lemma fz_tick : pres I tick.
Proof.
  unfold tick. apply pres_bind; [fz_frame|intros _].
  apply pres_bind; [apply pres_gets|intros ts].
  apply pres_bind.
  { apply pres_forEach. intros thread. apply fz_update. by right. }
  intros _. apply pres_bind; [apply pres_gets|intros n].
  apply pres_bind; [apply pres_forEach; intros i; apply fz_runCore|intros _].
  apply pres_bind; [apply fz_manyToOne|intros _].
  apply pres_forEach; intros i; apply fz_dispatchCore.
Qed.

Lemma fz_mapThreadToKernel thread :
  thread ≠ T → pres I (mapThreadToKernel thread).
Proof.
  intros Hne. unfold mapThreadToKernel.
  repeat first
    [ pres_step | apply fz_update; by left | fz_frame ].
Qed.

Lemma fz_addThread thread : thread ≠ T → pres I (addThread thread).
Proof.
  intros Hne. unfold addThread.
  apply pres_bind; [apply pres_gets|intros c].
  apply pres_bind; [apply fz_update; by left|intros _].
  apply pres_bind; [fz_frame|intros _].
  apply pres_bind; [fz_frame|intros _].
  apply pres_bind; [by apply fz_mapThreadToKernel|intros _].
  apply pres_bind; [apply fz_update; by left|intros _].
  apply pres_bind; [apply pres_deref|intros th].
  apply pres_bind; [apply fz_log|intros _].
  apply pres_modify. intros e (Hst & Hrq & Hts & Hun).
  split; [done|]. split; [done|]. split; [|done]. simpl.
  by intros [?|?%list_elem_of_singleton]%elem_of_app.
Qed.

Lemma fz_fireTimer : pres I fireTimer.
Proof.
  unfold fireTimer. apply pres_bind_gets. intros e He.
  destruct (timers e) as [|thread rest] eqn:Hts; [apply pres_ret|].
  destruct He as (_ & _ & Hts' & _). rewrite Hts in Hts'.
  apply not_elem_of_cons in Hts' as [Hne Hrest].
  apply pres_bind.
  { apply pres_modify. intros e' (? & ? & ? & ?). by repeat (split; [done|]). }
  intros _. unfold timeoutCallback.
  apply pres_bind; [apply pres_deref|intros th].
  case_decide; [by apply fz_moveToReady|apply pres_ret].
Qed.

Lemma fz_addSemaphore name v : pres I (addSemaphore name v).
Proof.
  unfold addSemaphore. apply pres_bind; [|intros _; apply fz_log].
  apply pres_modify. intros e (Hst & Hrq & Hts & Hcores & Hsems & Hmons).
  repeat (split; [done|]). split; [|done]. simpl.
  intros n s' Hn. destruct (decide (name = n)) as [->|Hne].
  - rewrite lookup_insert_eq in Hn. injection Hn as <-. apply not_elem_of_nil.
  - rewrite lookup_insert_ne in Hn by done. by eapply Hsems.
Qed.

Lemma fz_addMonitor name : pres I (addMonitor name).
Proof.
  unfold addMonitor. apply pres_bind; [|intros _; apply fz_log].
  apply pres_modify. intros e (Hst & Hrq & Hts & Hcores & Hsems & Hmons).
  repeat (split; [done|]). simpl.
  intros n m' Hn. destruct (decide (name = n)) as [->|Hne].
  - rewrite lookup_insert_eq in Hn. injection Hn as <-.
    split; apply not_elem_of_nil.
  - rewrite lookup_insert_ne in Hn by done. by eapply Hmons.
Qed.

Lemma fz_initialize n a q m : pres I (initialize n a q m).
Proof.
  unfold initialize, reset.
  apply pres_bind.
  { apply pres_modify. intros e (Hst & Hrq & Hts & Hun).
    split; [done|]. split; [apply not_elem_of_nil|]. split; [done|].
    split; [intros c Hc; by apply elem_of_nil in Hc|]. simpl.
    split; intros ? ? Hl; by rewrite lookup_empty in Hl. }
  intros _. apply pres_bind; [|intros _; apply fz_log].
  apply pres_modify. intros e (Hst & Hrq & Hts & Hcores & Hun).
  repeat (split; [done|]). split; [|done]. simpl.
  intros c [i [-> _]]%list_elem_of_fmap. done.
Qed.

Lemma fz_newThread {B} name priority instructions (k : nat → M B) e :
  T ≠ length (heap e) → I e →
  (∀ r, r ≠ T → pres I (k r)) →
  wp (bind (newThread name priority instructions) k) (λ _, I) I e.
Proof.
  intros Hne He Hk. unfold newThread.
  apply wp_bind, wp_bind, wp_gets, wp_bind, wp_modify, wp_bind, wp_gets.
  apply wp_bind, wp_modify, wp_ret. simpl. apply Hk; [done|].
  destruct He as [Hst Hun]. split; [|done].
  unfold stateOf in *; simpl.
  destruct (decide (T < length (heap e))%nat).
  - by rewrite lookup_app_l.
  - rewrite lookup_ge_None_2 in Hst by lia.
    rewrite lookup_ge_None_2; [done|]. rewrite length_app; simpl; lia.
Qed.

Lemma frozen_run o e :
  (∀ name priority instructions,
     o = OpAddThread name priority instructions → T ≠ length (heap e)) →
  frozen T st e → frozen T st (final (run o e)).
Proof.
  intros Ho He. apply wp_final. destruct o; simpl.
  - by apply fz_initialize.
  - apply fz_newThread; [by eapply Ho|done|]. intros r Hr. by apply fz_addThread.
  - by apply fz_addSemaphore.
  - by apply fz_addMonitor.
  - by apply fz_tick.
  - by apply fz_fireTimer.
Qed.

End Frozen.

(** * Every thread is in at most one place *)

Section FoldM.
Context {V : Type} (g : V → gmultiset nat).

Lemma foldM_delete (m : gmap string V) k v :
  m !! k = Some v → foldM g m = g v ⊎ foldM g (delete k m).
Proof.
  intros H. unfold foldM.
  apply (map_fold_delete_L (λ _ v acc, g v ⊎ acc)); [|done].
  intros. multiset_solver.
Qed.

Lemma foldM_insert_fresh (m : gmap string V) k v :
  m !! k = None → foldM g (<[k := v]> m) = g v ⊎ foldM g m.
Proof.
  intros H. unfold foldM.
  apply (map_fold_insert_L (λ _ v acc, g v ⊎ acc)); [|done].
  intros. multiset_solver.
Qed.

Lemma foldM_insert (m : gmap string V) k v v' :
  m !! k = Some v → foldM g (<[k := v']> m) ⊎ g v = foldM g m ⊎ g v'.
Proof.
  intros H. rewrite (foldM_delete m k v H).
  rewrite <- (insert_delete_eq m k v').
  rewrite foldM_insert_fresh by apply lookup_delete_eq.
  multiset_solver.
Qed.

Lemma foldM_insert_sub (m : gmap string V) k v' :
  foldM g (<[k := v']> m) ⊆ foldM g m ⊎ g v'.
Proof.
  destruct (m !! k) as [v|] eqn:H.
  - pose proof (foldM_insert m k v v' H). multiset_solver.
  - rewrite foldM_insert_fresh by done. multiset_solver.
Qed.

Lemma foldM_lookup (m : gmap string V) k v : m !! k = Some v → g v ⊆ foldM g m.
Proof. intros H. rewrite (foldM_delete m k v H). multiset_solver. Qed.

Lemma foldM_empty : foldM g ∅ = ∅.
Proof. apply map_fold_empty. Qed.

Lemma foldM_not_elem_of (m : gmap string V) T :
  (∀ k v, m !! k = Some v → T ∉ g v) → T ∉ foldM g m.
Proof.
  induction m as [|k v m Hk IH] using map_ind; intros H.
  - rewrite foldM_empty. multiset_solver.
  - rewrite foldM_insert_fresh by done.
    assert (T ∉ g v) by (eapply H, lookup_insert_eq).
    assert (T ∉ foldM g m).
    { apply IH. intros k' v' Hk'. apply (H k' v').
      rewrite lookup_insert_ne; [done|]. intros ->. congruence. }
    by intros [?|?]%gmultiset_elem_of_disj_union.
Qed.

End FoldM.

Lemma coresM_insert cs i c c' :
  cs !! i = Some c →
  coresM (<[i := c']> cs) ⊎ optM (CPUCore.currentThread c)
  = coresM cs ⊎ optM (CPUCore.currentThread c').
Proof.
  intros H. unfold coresM, optM.
  rewrite <- (take_drop_middle cs i c H) at 2.
  rewrite insert_take_drop by (by eapply lookup_lt_Some).
  rewrite !omap_app. simpl.
  rewrite !list_to_set_disj_app.
  destruct (CPUCore.currentThread c), (CPUCore.currentThread c'); simpl;
    rewrite ?list_to_set_disj_cons; multiset_solver.
Qed.

Lemma coresM_insert_same cs i c c' :
  cs !! i = Some c →
  CPUCore.currentThread c' = CPUCore.currentThread c →
  coresM (<[i := c']> cs) = coresM cs.
Proof.
  intros H Hc. pose proof (coresM_insert cs i c c' H) as Heq.
  rewrite Hc in Heq. multiset_solver.
Qed.

Lemma elem_of_coresM x cs :
  x ∈ coresM cs ↔ ∃ c, c ∈ cs ∧ CPUCore.currentThread c = Some x.
Proof.
  unfold coresM. rewrite elem_of_list_to_set_disj, list_elem_of_omap. naive_solver.
Qed.

Lemma coresM_fresh n :
  coresM ((λ i, CPUCore.make (Z.of_nat i)) <$> seq 0 n) = ∅.
Proof.
  unfold coresM. generalize 0%nat. induction n as [|n IH]; intros k; [done|].
  simpl. apply IH.
Qed.

Lemma places_same e e' : same_places e e' → places e' = places e.
Proof. intros (H1 & H2 & H3 & H4 & H5). unfold places. by rewrite H1, H2, H3, H4, H5. Qed.

Lemma places_pushed x e e' :
  pushed x e e' → places e' = places e ⊎ {[+ x +]}.
Proof.
  intros (H1 & H2 & H3 & H4 & H5). unfold places.
  rewrite H1, H2, H3, H4, H5, list_to_set_disj_app. simpl. multiset_solver.
Qed.

Lemma same_places_refl e : same_places e e.
Proof. by unfold same_places. Qed.

Lemma same_places_trans e1 e2 e3 :
  same_places e1 e2 → same_places e2 e3 → same_places e1 e3.
Proof.
  unfold same_places. intros (?&?&?&?&?) (?&?&?&?&?). repeat split; congruence.
Qed.

(** Operations that leave every place as it is. *)
Section SamePlaces.

Variable e0 : SimulationEngine.

Let I (e : SimulationEngine) : Prop := same_places e0 e.

Ltac sp_frame := apply pres_modify; intros ? H; exact H.

Lemma sp_update r f : pres I (update r f).
Proof. unfold update. apply pres_bind; [apply pres_deref|intros ?]. sp_frame. Qed.

Lemma sp_log m l : pres I (log m l).
Proof. unfold log. sp_frame. Qed.

Lemma sp_threadName thread : pres I (threadName thread).
Proof. unfold threadName. repeat pres_step. Qed.

Create HintDb sp_pres.

Ltac sp_pres :=
  repeat first
    [ pres_step | apply sp_update | apply sp_log | apply sp_threadName
    | solve [auto 1 with sp_pres] | sp_frame ].

Lemma sp_moveToBlocked x reason : pres I (moveToBlocked x reason).
Proof. unfold moveToBlocked. sp_pres. Qed.

Lemma sp_moveToTerminated x : pres I (moveToTerminated x).
Proof. unfold moveToTerminated. sp_pres. Qed.

Lemma sp_removeFromBlocked x : pres I (removeFromBlocked x).
Proof. unfold removeFromBlocked. sp_pres. Qed.

Lemma sp_execute x : pres I (execute x).
Proof. unfold execute. sp_pres. Qed.

Lemma sp_mapThreadToKernel x : pres I (mapThreadToKernel x).
Proof. unfold mapThreadToKernel. sp_pres. Qed.

Lemma sp_newThread name priority instructions :
  pres I (newThread name priority instructions).
Proof. unfold newThread. sp_pres. Qed.

End SamePlaces.

(** The form in which the rules above are used. *)
Lemma wp_same {A} (m : M A) Q E e :
  pres (same_places e) m →
  (∀ a e', same_places e e' → Q a e') →
  (∀ e', same_places e e' → E e') →
  wp m Q E e.
Proof.
  intros Hm HQ HE. eapply wp_mono; [apply Hm, same_places_refl| |]; eauto.
Qed.

Lemma wp_moveToReady x Q E e :
  (∀ e', pushed x e e' → Q () e') →
  (∀ e', same_places e e' ∨ pushed x e e' → E e') →
  wp (moveToReady x) Q E e.
Proof.
  intros HQ HE. unfold moveToReady.
  apply wp_bind. apply wp_same; [apply sp_update| |by eauto].
  intros [] e1 H1. apply wp_bind, wp_modify.
  assert (pushed x e (set_readyQueue (λ q, q ++ [x]) e1)) as H2.
  { destruct H1 as (? & ? & ? & ? & ?). unfold pushed; simpl.
    repeat split; congruence. }
  apply wp_bind, wp_deref; [|by eauto].
  intros th _. apply wp_modify. apply HQ. exact H2.
Qed.

Lemma wp_unblock x Q E e :
  (∀ e', pushed x e e' → Q () e') →
  (∀ e', same_places e e' ∨ pushed x e e' → E e') →
  wp (unblock x) Q E e.
Proof.
  intros HQ HE. unfold unblock.
  apply wp_bind. apply wp_same; [apply sp_removeFromBlocked| |by eauto].
  intros [] e1 H1.
  assert (∀ e', pushed x e1 e' → pushed x e e') as Hp.
  { destruct H1 as (? & ? & ? & ? & ?). intros e' (? & ? & ? & ? & ?).
    unfold pushed. repeat split; congruence. }
  apply wp_moveToReady.
  - intros e' H'. by apply HQ, Hp.
  - intros e' [H'|H']; apply HE.
    + left. by eapply same_places_trans.
    + right. by apply Hp.
Qed.

Ltac sp_solve :=
  repeat first
    [ pres_step | apply sp_update | apply sp_log | apply sp_threadName
    | apply sp_moveToBlocked | apply sp_moveToTerminated
    | apply sp_removeFromBlocked | apply sp_execute
    | apply sp_mapThreadToKernel | apply sp_newThread
    | apply pres_modify; intros ? H; exact H ].

Lemma places_put_sem e r s s' :
  semaphores e !! r = Some s →
  places (set_semaphores (λ m, <[r := s']> m) e) ⊎ semQueue s
  = places e ⊎ semQueue s'.
Proof.
  intros H. unfold places; simpl.
  pose proof (foldM_insert semQueue (semaphores e) r s s' H) as Heq.
  unfold semsM. multiset_solver.
Qed.

Lemma places_put_mon e r m m' :
  monitors e !! r = Some m →
  places (set_monitors (λ ms, <[r := m']> ms) e) ⊎ monQueues m
  = places e ⊎ monQueues m'.
Proof.
  intros H. unfold places; simpl.
  pose proof (foldM_insert monQueues (monitors e) r m m' H) as Heq.
  unfold monsM. multiset_solver.
Qed.

Lemma places_set_core e i c c' :
  cpuCores e !! i = Some c →
  places (set_cpuCores (λ cs, <[i := c']> cs) e) ⊎ optM (CPUCore.currentThread c)
  = places e ⊎ optM (CPUCore.currentThread c').
Proof.
  intros H. unfold places; simpl.
  pose proof (coresM_insert (cpuCores e) i c c' H) as Heq.
  multiset_solver.
Qed.

Lemma optM_Some x : optM (Some x) = {[+ x +]}.
Proof. unfold optM; simpl. multiset_solver. Qed.

Lemma optM_None : optM None = ∅.
Proof. done. Qed.

Lemma wp_block x reason Q E e :
  x ∈ coresM (cpuCores e) →
  (∀ e', places e' ⊎ {[+ x +]} = places e → Q () e') →
  (∀ e', places e' ⊎ {[+ x +]} = places e → E e') →
  wp (releaseCoreOf x ;; moveToBlocked x reason) Q E e.
Proof.
  intros Hx HQ HE. unfold releaseCoreOf.
  apply wp_bind, wp_bind, wp_gets.
  destruct (list_find _ (cpuCores e)) as [[j c]|] eqn:Hfind.
  - apply list_find_Some in Hfind as (Hj & Hc & _).
    apply wp_modify.
    pose proof (places_set_core e j c (CPUCore.releaseThread c).2 Hj) as Heq.
    rewrite Hc, optM_Some in Heq. simpl in Heq. rewrite optM_None in Heq.
    apply wp_same; [apply sp_moveToBlocked| |].
    + intros [] e' H'%places_same. apply HQ. rewrite H'. multiset_solver.
    + intros e' H'%places_same. apply HE. rewrite H'. multiset_solver.
  - apply list_find_None in Hfind.
    apply elem_of_coresM in Hx as (c & Hc & Hcur).
    rewrite Forall_forall in Hfind. by destruct (Hfind c Hc).
Qed.

Lemma semQueue_wait x s :
  semQueue (Semaphore.wait x s).2
  = semQueue s ⊎ (if (Semaphore.wait x s).1 then ∅ else {[+ x +]}).
Proof.
  unfold Semaphore.wait, semQueue. case_bool_decide; simpl.
  - rewrite list_to_set_disj_app. simpl. multiset_solver.
  - multiset_solver.
Qed.

Lemma semQueue_signal s :
  semQueue s = optM (Semaphore.signal s).1 ⊎ semQueue (Semaphore.signal s).2.
Proof.
  unfold Semaphore.signal, semQueue, optM.
  destruct (Semaphore.waitQueue s) eqn:Hq; simpl; rewrite ?Hq; multiset_solver.
Qed.

Lemma monQueues_enter x m :
  monQueues (Monitor.enter x m).2
  = monQueues m ⊎ (if (Monitor.enter x m).1 then ∅ else {[+ x +]}).
Proof.
  unfold Monitor.enter, monQueues. destruct (Monitor.owner m); simpl.
  - rewrite list_to_set_disj_app. simpl. multiset_solver.
  - multiset_solver.
Qed.

Lemma monQueues_exit m :
  monQueues m = optM (Monitor.exit m).1.1 ⊎ monQueues (Monitor.exit m).2.
Proof.
  unfold Monitor.exit, monQueues, optM.
  destruct (Monitor.conditionQueue m) eqn:Hc; simpl; rewrite ?Hc;
    [destruct (Monitor.entryQueue m) eqn:He; simpl; rewrite ?Hc, ?He|];
    multiset_solver.
Qed.

Lemma monQueues_wait x m :
  monQueues (Monitor.wait x m).2 ⊎ optM (Monitor.wait x m).1.1
  = monQueues m ⊎ (if (Monitor.wait x m).1.2 then {[+ x +]} else ∅).
Proof.
  unfold Monitor.wait, monQueues, optM. case_decide; simpl; [|multiset_solver].
  destruct (Monitor.entryQueue m) eqn:He; simpl; rewrite ?He;
    rewrite list_to_set_disj_app; simpl; multiset_solver.
Qed.

Lemma monQueues_signal m :
  monQueues m = optM (Monitor.signal m).1 ⊎ monQueues (Monitor.signal m).2.
Proof.
  unfold Monitor.signal, monQueues, optM.
  destruct (Monitor.conditionQueue m) eqn:Hc; simpl; rewrite ?Hc; multiset_solver.
Qed.

Ltac wp_neutral :=
  apply wp_same; [sp_solve| |];
  [intros ? ? ?%places_same|intros ? ?%places_same].

Lemma wp_executeInstruction x instruction e :
  x ∈ coresM (cpuCores e) →
  wp (executeInstruction x instruction)
     (λ _ e', places e' ⊆ places e) (λ e', places e' ⊆ places e) e.
Proof.
  intros Hx. unfold executeInstruction, getSemaphore, getMonitor.
  destruct (type instruction); [by apply wp_ret|..];
    apply wp_bind, wp_gets;
    (destruct (resource instruction) as [r|] eqn:Hres; [|by apply wp_ret]);
    simpl;
    (destruct (_ !! r) as [p|] eqn:Hp; [|by apply wp_ret]).
  - (* wait *)
    pose proof (semQueue_wait x p) as Hq.
    destruct (Semaphore.wait x p) as [proceed p'].
    apply wp_bind. unfold putSemaphore. rewrite Hres. apply wp_modify.
    pose proof (places_put_sem e r p p' Hp) as H1. simpl in Hq.
    destruct proceed; simpl.
    + wp_neutral; multiset_solver.
    + apply wp_block; [done|..]; intros e' H2; multiset_solver.
  - (* signal *)
    pose proof (semQueue_signal p) as Hq.
    destruct (Semaphore.signal p) as [u p'].
    apply wp_bind. unfold putSemaphore. rewrite Hres. apply wp_modify.
    pose proof (places_put_sem e r p p' Hp) as H1. simpl in Hq.
    apply wp_bind. destruct u as [u|].
    + rewrite optM_Some in Hq. apply wp_bind, wp_unblock.
      * intros e2 H2%places_pushed. wp_neutral; [wp_neutral|]; multiset_solver.
      * intros e2 [H2%places_same|H2%places_pushed]; multiset_solver.
    + rewrite optM_None in Hq. apply wp_ret. wp_neutral; multiset_solver.
  - (* enter-monitor *)
    pose proof (monQueues_enter x p) as Hq.
    destruct (Monitor.enter x p) as [entered p'].
    apply wp_bind. unfold putMonitor. rewrite Hres. apply wp_modify.
    pose proof (places_put_mon e r p p' Hp) as H1. simpl in Hq.
    destruct entered; simpl.
    + wp_neutral; multiset_solver.
    + apply wp_block; [done|..]; intros e' H2; multiset_solver.
  - (* exit-monitor *)
    pose proof (monQueues_exit p) as Hq.
    destruct (Monitor.exit p) as [[u w] p'].
    apply wp_bind. unfold putMonitor. rewrite Hres. apply wp_modify.
    pose proof (places_put_mon e r p p' Hp) as H1. simpl in Hq.
    apply wp_bind. destruct u as [u|].
    + rewrite optM_Some in Hq. apply wp_bind, wp_unblock.
      * intros e2 H2%places_pushed. wp_neutral; [wp_neutral|]; multiset_solver.
      * intros e2 [H2%places_same|H2%places_pushed]; multiset_solver.
    + rewrite optM_None in Hq. apply wp_ret. wp_neutral; multiset_solver.
  - (* monitor-wait *)
    pose proof (monQueues_wait x p) as Hq.
    destruct (Monitor.wait x p) as [[u b] p'].
    apply wp_bind. unfold putMonitor. rewrite Hres. apply wp_modify.
    pose proof (places_put_mon e r p p' Hp) as H1. simpl in Hq.
    apply wp_bind. destruct b; simpl.
    + apply wp_block; [done|..]; intros e2 H2.
      * destruct u as [u|].
        -- rewrite optM_Some in Hq. apply wp_unblock.
           ++ intros e3 H3%places_pushed. multiset_solver.
           ++ intros e3 [H3%places_same|H3%places_pushed]; multiset_solver.
        -- rewrite optM_None in Hq. apply wp_ret. multiset_solver.
      * destruct u as [u|];
          [rewrite optM_Some in Hq|rewrite optM_None in Hq]; multiset_solver.
    + apply wp_ret. destruct u as [u|].
      * rewrite optM_Some in Hq. apply wp_unblock.
        -- intros e3 H3%places_pushed. multiset_solver.
        -- intros e3 [H3%places_same|H3%places_pushed]; multiset_solver.
      * rewrite optM_None in Hq. apply wp_ret. multiset_solver.
  - (* monitor-signal *)
    pose proof (monQueues_signal p) as Hq.
    destruct (Monitor.signal p) as [u p'].
    apply wp_bind. unfold putMonitor. rewrite Hres. apply wp_modify.
    pose proof (places_put_mon e r p p' Hp) as H1. simpl in Hq.
    destruct u as [u|].
    + rewrite optM_Some in Hq. apply wp_bind, wp_unblock.
      * intros e2 H2%places_pushed. wp_neutral; multiset_solver.
      * intros e2 [H2%places_same|H2%places_pushed]; multiset_solver.
    + rewrite optM_None in Hq. apply wp_ret. multiset_solver.
Qed.

Lemma wp_releaseThread i Q E e :
  (∀ r e', places e' ⊎ optM r = places e → Q r e') →
  E e →
  wp (releaseThread i) Q E e.
Proof.
  intros HQ HE. unfold releaseThread. apply wp_bind, wp_getCore; [|done].
  intros c Hc. simpl. apply wp_bind, wp_modify, wp_ret. apply HQ.
  pose proof (places_set_core e i c (CPUCore.releaseThread c).2 Hc) as Heq.
  simpl in Heq. rewrite optM_None in Heq. multiset_solver.
Qed.

Lemma wp_runCore i e :
  wp (runCore i) (λ _ e', places e' ⊆ places e) (λ e', places e' ⊆ places e) e.
Proof.
  unfold runCore. apply wp_bind, wp_getCore; [|done].
  intros c Hc. apply wp_bind, wp_modify.
  set (e1 := set_cpuCores _ e).
  assert (places e1 = places e) as H1.
  { pose proof (places_set_core e i c (CPUCore.tick c) Hc) as Heq.
    assert (CPUCore.currentThread (CPUCore.tick c) = CPUCore.currentThread c) as Hcur
      by (unfold CPUCore.tick; by destruct (CPUCore.isIdle c)).
    rewrite Hcur in Heq. subst e1. multiset_solver. }
  apply wp_bind, wp_getCore; [|by rewrite H1].
  intros c1 Hc1. destruct (CPUCore.isIdle c1); [apply wp_ret; by rewrite H1|].
  destruct (CPUCore.currentThread c1) as [x|] eqn:Hcur;
    [|apply wp_ret; by rewrite H1].
  assert (x ∈ coresM (cpuCores e1)) as Hx.
  { apply elem_of_coresM. exists c1. split; [|done]. by eapply list_elem_of_lookup_2. }
  apply wp_bind. apply wp_same; [apply sp_execute| |].
  2:{ intros e2 H2%places_same. rewrite H2, H1. done. }
  intros result e2 H2.
  assert (x ∈ coresM (cpuCores e2)) as Hx2
    by (destruct H2 as (_ & _ & -> & _); done).
  apply places_same in H2.
  apply wp_bind.
  apply (wp_mono _ (λ _ e', places e' ⊆ places e2) _ (λ e', places e' ⊆ places e2)).
  { destruct result; [by apply wp_executeInstruction|by apply wp_ret]. }
  2:{ intros e3 H3. multiset_solver. }
  intros [] e3 H3.
  apply wp_bind, wp_deref; [|multiset_solver]. intros th _.
  apply wp_bind, wp_gets.
  destruct (_ || _).
  - apply wp_bind, wp_releaseThread; [|multiset_solver].
    intros r e4 H4. wp_neutral; multiset_solver.
  - destruct (Scheduler.shouldPreempt _ _); [|apply wp_ret; multiset_solver].
    apply wp_bind, wp_releaseThread; [|multiset_solver].
    intros [p|] e4 H4; [|apply wp_throw; multiset_solver].
    rewrite optM_Some in H4.
    apply wp_bind. wp_neutral; [|multiset_solver].
    apply wp_bind, wp_moveToReady.
    + intros e6 H6%places_pushed. wp_neutral; multiset_solver.
    + intros e6 [H6%places_same|H6%places_pushed]; multiset_solver.
Qed.

Lemma sub_pres {A} (m : M A) X :
  (∀ e, wp m (λ _ e', places e' ⊆ places e) (λ e', places e' ⊆ places e) e) →
  pres (λ e, places e ⊆ X) m.
Proof.
  intros Hm e He. eapply wp_mono; [apply Hm|..]; simpl; intros; multiset_solver.
Qed.

Lemma wp_manyToOne e :
  wp manyToOne (λ _ e', places e' ⊆ places e) (λ e', places e' ⊆ places e) e.
Proof.
  unfold manyToOne. apply wp_bind, wp_gets.
  case_decide; [|by apply wp_ret].
  apply wp_bind, wp_gets. apply wp_when; [intros _|done].
  apply (wp_forEach (λ e', places e' ⊆ places e)); [|done].
  intros i e1 _ H1. apply wp_bind, wp_getCore; [|done].
  intros c Hc. apply wp_modify.
  pose proof (places_set_core e1 i c (CPUCore.set_isIdle true c) Hc) as Heq.
  simpl in Heq. multiset_solver.
Qed.

Lemma list_to_set_disj_delete (l : list nat) i x :
  l !! i = Some x →
  list_to_set_disj l =@{gmultiset nat} {[+ x +]} ⊎ list_to_set_disj (delete i l).
Proof. intros H. by rewrite (delete_Permutation l i x H) at 1. Qed.

Lemma selectNextThread_places s h (rq : list nat) sel rq' :
  Scheduler.selectNextThread s h rq = Some (sel, rq') →
  list_to_set_disj rq =@{gmultiset nat} optM sel ⊎ list_to_set_disj rq'.
Proof.
  unfold Scheduler.selectNextThread. destruct rq as [|head rest].
  { intros [= <- <-]. rewrite optM_None. multiset_solver. }
  repeat case_decide.
  - intros [= <- <-]. rewrite optM_Some. simpl. multiset_solver.
  - destruct (Scheduler.highestPriorityIndex _ _) as [i|]; [|done]. simpl.
    intros [= <- <-].
    destruct ((head :: rest) !! i) as [x|] eqn:Hi.
    + rewrite optM_Some. apply (list_to_set_disj_delete (head :: rest) i x Hi).
    + rewrite optM_None. apply lookup_ge_None in Hi.
      rewrite delete_take_drop, take_ge, drop_ge by lia.
      rewrite app_nil_r. multiset_solver.
  - intros [= <- <-]. rewrite optM_Some. simpl. multiset_solver.
Qed.

Lemma places_set_readyQueue e rq' :
  places (set_readyQueue (λ _, rq') e) ⊎ list_to_set_disj (readyQueue e)
  = places e ⊎ list_to_set_disj rq'.
Proof. unfold places; simpl. multiset_solver. Qed.

Lemma places_set_timers e ts' :
  places (set_timers (λ _, ts') e) ⊎ list_to_set_disj (timers e)
  = places e ⊎ list_to_set_disj ts'.
Proof. unfold places; simpl. multiset_solver. Qed.

Lemma wp_assignThread i x e :
  wp (assignThread i x) (λ _ e', places e' ⊆ places e ⊎ {[+ x +]})
     (λ e', places e' ⊆ places e ⊎ {[+ x +]}) e.
Proof.
  unfold assignThread. apply wp_bind, wp_getCore; [|multiset_solver].
  intros c Hc. apply wp_bind, wp_modify.
  pose proof (places_set_core e i c (CPUCore.assignThread x c) Hc) as Heq.
  simpl in Heq. rewrite optM_Some in Heq.
  wp_neutral; multiset_solver.
Qed.

Lemma wp_dispatchCore i e :
  wp (dispatchCore i) (λ _ e', places e' ⊆ places e)
     (λ e', places e' ⊆ places e) e.
Proof.
  unfold dispatchCore. apply wp_bind, wp_getCore; [|done].
  intros c Hc. apply wp_bind, wp_gets.
  destruct (_ && _); [|by apply wp_ret].
  apply wp_bind, wp_gets, wp_bind, wp_gets.
  destruct (Scheduler.selectNextThread _ _ _) as [[sel rq']|] eqn:Hsel;
    [|by apply wp_throw].
  apply selectNextThread_places in Hsel.
  apply wp_bind, wp_modify.
  pose proof (places_set_readyQueue e rq') as H1.
  destruct sel as [x|].
  - rewrite optM_Some in Hsel.
    apply wp_bind. wp_neutral; [|multiset_solver].
    apply wp_bind.
    eapply wp_mono; [apply wp_assignThread|..]; simpl.
    + intros [] e3 H3. wp_neutral; multiset_solver.
    + intros e3 H3. multiset_solver.
  - rewrite optM_None in Hsel. apply wp_ret. multiset_solver.
Qed.

Lemma wp_tick e :
  wp tick (λ _ e', places e' ⊆ places e) (λ e', places e' ⊆ places e) e.
Proof.
  assert (pres (λ e', places e' ⊆ places e) tick) as Hpres; [|by apply Hpres].
  unfold tick.
  apply pres_bind; [apply pres_modify; intros ? H; exact H|intros _].
  apply pres_bind; [apply pres_gets|intros ts].
  apply pres_bind.
  { apply pres_forEach. intros x. apply sub_pres. intros e1.
    wp_neutral; multiset_solver. }
  intros _. apply pres_bind; [apply pres_gets|intros n].
  apply pres_bind.
  { apply pres_forEach. intros i. apply sub_pres, wp_runCore. }
  intros _. apply pres_bind; [apply sub_pres, wp_manyToOne|intros _].
  apply pres_forEach. intros i. apply sub_pres, wp_dispatchCore.
Qed.

Lemma wp_fireTimer e :
  wp fireTimer (λ _ e', places e' ⊆ places e) (λ e', places e' ⊆ places e) e.
Proof.
  unfold fireTimer. apply wp_bind, wp_gets.
  destruct (timers e) as [|x rest] eqn:Hts; [by apply wp_ret|].
  apply wp_bind, wp_modify.
  pose proof (places_set_timers e rest) as H1. rewrite Hts in H1.
  rewrite list_to_set_disj_cons in H1.
  unfold timeoutCallback. apply wp_bind, wp_deref; [|multiset_solver].
  intros th _. case_decide; [|apply wp_ret; multiset_solver].
  apply wp_moveToReady.
  - intros e2 H2%places_pushed. multiset_solver.
  - intros e2 [H2%places_same|H2%places_pushed]; multiset_solver.
Qed.

Lemma wp_addSemaphore name v e :
  wp (addSemaphore name v) (λ _ e', places e' ⊆ places e)
     (λ e', places e' ⊆ places e) e.
Proof.
  unfold addSemaphore. apply wp_bind, wp_modify, wp_modify.
  unfold places; simpl.
  pose proof (foldM_insert_sub semQueue (semaphores e) name
                (Semaphore.make name v)) as H.
  unfold semQueue at 3 in H. simpl in H. unfold semsM. multiset_solver.
Qed.

Lemma wp_addMonitor name e :
  wp (addMonitor name) (λ _ e', places e' ⊆ places e)
     (λ e', places e' ⊆ places e) e.
Proof.
  unfold addMonitor. apply wp_bind, wp_modify, wp_modify.
  unfold places; simpl.
  pose proof (foldM_insert_sub monQueues (monitors e) name
                (Monitor.make name)) as H.
  unfold monQueues at 3 in H. simpl in H. unfold monsM. multiset_solver.
Qed.

Lemma wp_initialize n a q m e :
  wp (initialize n a q m) (λ _ e', places e' ⊆ places e)
     (λ e', places e' ⊆ places e) e.
Proof.
  unfold initialize, reset. apply wp_bind, wp_modify, wp_bind, wp_modify, wp_modify.
  unfold places; simpl. rewrite coresM_fresh.
  unfold semsM, monsM. rewrite !foldM_empty. multiset_solver.
Qed.

Lemma wp_addThread x e :
  wp (addThread x) (λ _ e', places e' ⊆ places e ⊎ {[+ x +]})
     (λ e', places e' ⊆ places e ⊎ {[+ x +]}) e.
Proof.
  unfold addThread. apply wp_bind, wp_gets.
  apply wp_bind. wp_neutral; [|multiset_solver].
  apply wp_bind, wp_modify, wp_bind, wp_modify.
  apply wp_bind. wp_neutral; [|unfold places in *; simpl in *; multiset_solver].
  apply wp_bind. wp_neutral; [|unfold places in *; simpl in *; multiset_solver].
  apply wp_bind, wp_deref; [|unfold places in *; simpl in *; multiset_solver].
  intros th _. apply wp_bind, wp_modify, wp_modify.
  unfold places in *; simpl in *. rewrite list_to_set_disj_app. simpl.
  multiset_solver.
Qed.

Lemma places_run o e :
  places (final (run o e)) ⊆
    places e ⊎ (if o is OpAddThread _ _ _ then {[+ length (heap e) +]} else ∅).
Proof.
  assert (∀ X, places (final (run o e)) ⊆ X →
               places (final (run o e)) ⊆ X ⊎ ∅) as Hweak
    by (intros; multiset_solver).
  destruct o; simpl.
  - apply Hweak, (wp_final _ (λ e', places e' ⊆ places e)), wp_initialize.
  - apply (wp_final _ (λ e', places e' ⊆ places e ⊎ {[+ length (heap e) +]})).
    unfold newThread.
    apply wp_bind, wp_bind, wp_gets, wp_bind, wp_modify, wp_bind, wp_gets.
    apply wp_bind, wp_modify, wp_ret. simpl.
    eapply wp_mono; [apply wp_addThread|..]; simpl; intros;
      unfold places in *; simpl in *; multiset_solver.
  - apply Hweak, (wp_final _ (λ e', places e' ⊆ places e)), wp_addSemaphore.
  - apply Hweak, (wp_final _ (λ e', places e' ⊆ places e)), wp_addMonitor.
  - apply Hweak, (wp_final _ (λ e', places e' ⊆ places e)), wp_tick.
  - apply Hweak, (wp_final _ (λ e', places e' ⊆ places e)), wp_fireTimer.
Qed.

Lemma unreferenced_places T e : unreferenced T e ↔ T ∉ places e.
Proof.
  unfold unreferenced, places. split.
  - intros (Hrq & Hts & Hcores & Hsems & Hmons).
    assert (T ∉ coresM (cpuCores e)) as Hc.
    { intros (c & Hc & Hcur)%elem_of_coresM. by eapply Hcores. }
    assert (T ∉ semsM (semaphores e)) as Hs.
    { apply foldM_not_elem_of. intros k s Hk. unfold semQueue.
      rewrite elem_of_list_to_set_disj. by eapply Hsems. }
    assert (T ∉ monsM (monitors e)) as Hm.
    { apply foldM_not_elem_of. intros k m Hk. unfold monQueues.
      destruct (Hmons k m Hk) as [H1 H2].
      rewrite gmultiset_elem_of_disj_union, !elem_of_list_to_set_disj. tauto. }
    rewrite !gmultiset_elem_of_disj_union, !elem_of_list_to_set_disj. tauto.
  - rewrite !gmultiset_elem_of_disj_union, !elem_of_list_to_set_disj.
    intros H. repeat split.
    + tauto.
    + tauto.
    + intros c Hc Hcur. apply H. left. left. right.
      apply elem_of_coresM. eauto.
    + intros n s Hn Hq. apply H. left. right.
      pose proof (foldM_lookup semQueue _ n s Hn) as Hsub.
      apply (gmultiset_elem_of_subseteq _ _ _ (proj2 (elem_of_list_to_set_disj _ _) Hq) Hsub).
    + intros Hq. apply H. right.
      pose proof (foldM_lookup monQueues _ n m H0) as Hsub.
      eapply gmultiset_elem_of_subseteq; [|exact Hsub].
      unfold monQueues. rewrite gmultiset_elem_of_disj_union, !elem_of_list_to_set_disj. tauto.
    + intros Hq. apply H. right.
      pose proof (foldM_lookup monQueues _ n m H0) as Hsub.
      eapply gmultiset_elem_of_subseteq; [|exact Hsub].
      unfold monQueues. rewrite gmultiset_elem_of_disj_union, !elem_of_list_to_set_disj. tauto.
Qed.

Lemma heap_le_length h h' : heap_le h h' → (length h ≤ length h')%nat.
Proof.
  intros Hle. destruct (decide (length h ≤ length h')%nat) as [|Hgt]; [done|].
  destruct (lookup_lt_is_Some_2 h (length h') ltac:(lia)) as [th Hth].
  destruct (Hle _ _ Hth) as (th' & Hth' & _).
  apply lookup_lt_Some in Hth'. lia.
Qed.

Lemma reachable_fresh_frozen e :
  reachable e → ∀ T, (length (heap e) ≤ T)%nat → frozen T None e.
Proof.
  induction 1 as [|o e He IH]; intros T HT.
  - split; [done|]. unfold unreferenced; simpl.
    split; [apply not_elem_of_nil|]. split; [apply not_elem_of_nil|].
    split; [intros c Hc; by apply elem_of_nil in Hc|].
    split; intros ? ? Hl; by rewrite lookup_empty in Hl.
  - pose proof (heap_le_length _ _ (run_heap_le o e)) as Hlen.
    apply frozen_run; [|apply IH; lia].
    intros name priority instructions ->.
    destruct (addThread_fresh e name priority instructions)
      as (e' & th & Hrun & Hheap & _).
    rewrite Hrun in HT. simpl in HT. rewrite Hheap, length_app in HT.
    simpl in HT. lia.
Qed.

Lemma reachable_one_place e : reachable e → one_place e.
Proof.
  induction 1 as [|o e He IH]; intros T.
  - unfold places; simpl. unfold coresM, semsM, monsM. simpl.
    rewrite !foldM_empty. multiset_solver.
  - pose proof (places_run o e) as Hsub.
    specialize (IH T).
    pose proof (Hsub T) as Hm.
    rewrite multiplicity_disj_union in Hm.
    destruct o; try (rewrite multiplicity_empty in Hm; lia).
    destruct (decide (T = length (heap e))) as [->|Hne].
    + destruct (reachable_fresh_frozen e He (length (heap e)) ltac:(lia))
        as [_ Hun%unreferenced_places].
      apply not_elem_of_multiplicity in Hun.
      rewrite multiplicity_singleton in Hm. case_decide; lia.
    + rewrite multiplicity_singleton_ne in Hm by done. lia.
Qed.

Lemma frozen_runAll T st os e :
  frozen T (Some st) e → frozen T (Some st) (runAll os e).
Proof.
  revert e; induction os as [|o os IH]; intros e He; [done|].
  apply IH, frozen_run; [|done].
  intros _ _ _ _ ->. destruct He as [Hst _]. unfold stateOf in Hst.
  by rewrite lookup_ge_None_2 in Hst.
Qed.

(** A thread held by exactly the replaced queue is held by nothing afterwards. *)
Lemma stranded_frozen T e e' (old : gmultiset nat) :
  reachable e → T ∈ old → places e' ⊎ old ⊆ places e → heap e' = heap e →
  ∃ st, stateOf e T = Some st ∧ frozen T (Some st) e'.
Proof.
  intros He HT Hsub Hheap.
  assert (T ∉ places e') as Hun.
  { pose proof (reachable_one_place e He T) as H1.
    pose proof (Hsub T) as H2.
    rewrite multiplicity_disj_union in H2.
    pose proof (proj1 (elem_of_multiplicity _ _) HT) as H3.
    apply not_elem_of_multiplicity. lia. }
  destruct (stateOf e T) as [st|] eqn:Hst.
  - exists st. split; [done|]. split; [|by apply unreferenced_places].
    unfold stateOf in *. by rewrite Hheap.
  - exfalso.
    assert (length (heap e) ≤ T)%nat as Hlen.
    { unfold stateOf in Hst. apply fmap_None in Hst. by apply lookup_ge_None. }
    destruct (reachable_fresh_frozen e He T Hlen) as [_ Hun'%unreferenced_places].
    apply Hun'. multiset_solver.
Qed.

(** * Replacing a registered primitive *)

Lemma addSemaphore_eq name v e :
  addSemaphore name v e
  = Ok () (set_eventLog
             (λ l, l ++ [{| tick_ := clockTick e;
                            message := "Semaphore " +:+ name
                              +:+ " created (Initial value: " +:+ pretty v +:+ ")";
                            level := "info" |}])
             (set_semaphores (λ m, <[name := Semaphore.make name v]> m) e)).
Proof. done. Qed.

Lemma addMonitor_eq name e :
  addMonitor name e
  = Ok () (set_eventLog
             (λ l, l ++ [{| tick_ := clockTick e;
                            message := "Monitor " +:+ name +:+ " created";
                            level := "info" |}])
             (set_monitors (λ m, <[name := Monitor.make name]> m) e)).
Proof. done. Qed.

(** C10: in a reachable state, [addSemaphore] (respectively [addMonitor])
    with any name returns and leaves under that name a fresh primitive with
    empty queues, whatever was registered before, and changes no thread.  A
    thread that was in the wait queue of the replaced semaphore (respectively
    in the entry or condition queue of the replaced monitor) is then held by
    nothing the engine reads: whatever calls follow, its state stays what it
    was (a blocked thread stays [BLOCKED]) and it stays unreferenced, so no
    later instruction moves it to [READY]. *)
Theorem C10_replaced_primitive_strands_threads
    (e : SimulationEngine) (name : string) (v : Z) (T : nat) :
  reachable e →
  let e1 := final (addSemaphore name v e) in
  let e2 := final (addMonitor name e) in
  (threw (addSemaphore name v e) = false ∧
   semaphores e1 !! name = Some (Semaphore.make name v) ∧
   heap e1 = heap e) ∧
  (threw (addMonitor name e) = false ∧
   monitors e2 !! name = Some (Monitor.make name) ∧
   heap e2 = heap e) ∧
  (∀ old, semaphores e !! name = Some old →
     T ∈ Semaphore.waitQueue old →
     ∀ os, stateOf (runAll os e1) T = stateOf e T ∧
           unreferenced T (runAll os e1)) ∧
  (∀ old, monitors e !! name = Some old →
     T ∈ Monitor.entryQueue old ∨ T ∈ Monitor.conditionQueue old →
     ∀ os, stateOf (runAll os e2) T = stateOf e T ∧
           unreferenced T (runAll os e2)).
Proof.
  intros He e1 e2. subst e1 e2. rewrite addSemaphore_eq, addMonitor_eq. simpl.
  split; [|split; [|split]].
  - split; [done|]. split; [apply lookup_insert_eq|done].
  - split; [done|]. split; [apply lookup_insert_eq|done].
  - intros old Hold HT os.
    set (e1 := set_eventLog _ _).
    destruct (stranded_frozen T e e1 (semQueue old) He) as (st & Hst & Hfz).
    + unfold semQueue. by apply elem_of_list_to_set_disj.
    + pose proof (places_put_sem e name old (Semaphore.make name v) Hold) as Heq.
      assert (places e1 = places (set_semaphores
                (λ m, <[name := Semaphore.make name v]> m) e)) as -> by done.
      unfold semQueue at 2 in Heq. simpl in Heq. multiset_solver.
    + done.
    + rewrite Hst. by apply frozen_runAll.
  - intros old Hold HT os.
    set (e2 := set_eventLog _ _).
    destruct (stranded_frozen T e e2 (monQueues old) He) as (st & Hst & Hfz).
    + unfold monQueues.
      rewrite gmultiset_elem_of_disj_union, !elem_of_list_to_set_disj. tauto.
    + pose proof (places_put_mon e name old (Monitor.make name) Hold) as Heq.
      assert (places e2 = places (set_monitors
                (λ m, <[name := Monitor.make name]> m) e)) as -> by done.
      unfold monQueues at 2 in Heq. simpl in Heq. multiset_solver.
    + done.
    + rewrite Hst. by apply frozen_runAll.
Qed.

Lemma C10_replaced_primitive_strands_threads_witness :
  (Semaphore.waitQueue <$> semaphores strandedEngine !! "s") = Some [0%nat] ∧
  stateOf strandedEngine 0%nat = Some BLOCKED ∧
  ∀ os,
    stateOf (runAll os (final (addSemaphore "s" 1 strandedEngine))) 0%nat
      = Some BLOCKED ∧
    unreferenced 0%nat (runAll os (final (addSemaphore "s" 1 strandedEngine))).
Proof.
  assert (reachable strandedEngine) as He
    by (apply reachable_runAll; constructor).
  eassert (semaphores strandedEngine !! "s" = Some _) as Hold
    by (vm_compute; reflexivity).
  assert (stateOf strandedEngine 0%nat = Some BLOCKED) as Hst
    by (vm_compute; reflexivity).
  split; [by rewrite Hold|]. split; [done|].
  intros os. rewrite <- Hst.
  destruct (C10_replaced_primitive_strands_threads strandedEngine "s" 1 0%nat He)
    as (_ & _ & H & _).
  apply (H _ Hold). simpl. by left.
Defined.

(** * Quantum counters stay below the quantum *)

Lemma wp_and {A} (m : M A) (I1 I2 : SimulationEngine → Prop) e :
  wp m (λ _, I1) I1 e → wp m (λ _, I2) I2 e →
  wp m (λ _ e', I1 e' ∧ I2 e') (λ e', I1 e' ∧ I2 e') e.
Proof. unfold wp. by destruct (m e). Qed.

Lemma pres_and {A} (m : M A) (I1 I2 : SimulationEngine → Prop) :
  pres I1 m → pres I2 m → pres (λ e, I1 e ∧ I2 e) m.
Proof. intros H1 H2 e [? ?]. apply wp_and; [by apply H1|by apply H2]. Qed.

(** Properties of the store and the cores that hold while threads only lose
    quantum and cores only lose their thread. *)
Section Relaxing.

Variable G : list Thread.t → list CPUCore.t → Prop.

Hypothesis G_update : ∀ h cs r th th',
  h !! r = Some th → Thread.quantum th' ≤ Thread.quantum th →
  G h cs → G (<[r := th']> h) cs.

Hypothesis G_release : ∀ h cs j c,
  G h cs → G h (<[j := (CPUCore.releaseThread c).2]> cs).

Let I (e : SimulationEngine) : Prop := G (heap e) (cpuCores e).

Lemma rx_update r f :
  (∀ th, Thread.quantum (f th) ≤ Thread.quantum th) → pres I (update r f).
Proof.
  intros Hf e H. unfold update. apply wp_bind, wp_deref; [|done].
  intros th Hth. apply wp_modify. unfold I; simpl. by eapply G_update.
Qed.

Lemma rx_release j c : pres I (setCore j (CPUCore.releaseThread c).2).
Proof. apply pres_modify. intros e H. unfold I; simpl. by apply G_release. Qed.

Create HintDb rx_pres.

Ltac rx_pres :=
  repeat first
    [ pres_step
    | apply rx_update; intros ?; simpl; lia
    | apply rx_release
    | solve [auto 1 with rx_pres]
    | apply pres_modify; intros ? H; exact H ].

Lemma rx_log m l : pres I (log m l).
Proof. unfold log. rx_pres. Qed.

Lemma rx_threadName x : pres I (threadName x).
Proof. unfold threadName. rx_pres. Qed.

#[local] Hint Resolve rx_log rx_threadName : rx_pres.

Lemma rx_moveToReady x : pres I (moveToReady x).
Proof. unfold moveToReady. rx_pres. Qed.

Lemma rx_moveToBlocked x reason : pres I (moveToBlocked x reason).
Proof. unfold moveToBlocked. rx_pres. Qed.

Lemma rx_moveToTerminated x : pres I (moveToTerminated x).
Proof. unfold moveToTerminated. rx_pres. Qed.

Lemma rx_releaseCoreOf x : pres I (releaseCoreOf x).
Proof. unfold releaseCoreOf. rx_pres. Qed.

Lemma rx_releaseThread i : pres I (releaseThread i).
Proof.
  unfold releaseThread. apply pres_bind; [apply pres_getCore|intros c].
  simpl. apply pres_bind; [apply (rx_release i c)|intros _; apply pres_ret].
Qed.

#[local] Hint Resolve rx_moveToReady rx_moveToBlocked rx_moveToTerminated
  rx_releaseCoreOf rx_releaseThread : rx_pres.

Lemma rx_executeInstruction x instruction :
  pres I (executeInstruction x instruction).
Proof.
  unfold executeInstruction, getSemaphore, getMonitor, putSemaphore,
    putMonitor, unblock, removeFromBlocked.
  rx_pres.
Qed.

Lemma rx_fireTimer : pres I fireTimer.
Proof. unfold fireTimer, timeoutCallback. rx_pres. Qed.

Lemma rx_addSemaphore name v : pres I (addSemaphore name v).
Proof. unfold addSemaphore. rx_pres. Qed.

Lemma rx_addMonitor name : pres I (addMonitor name).
Proof. unfold addMonitor. rx_pres. Qed.

End Relaxing.

Section Total.

Variable n : nat.

Lemma total_ret {A} (a : A) : total n (ret a).
Proof. by intros e H. Qed.

Lemma total_gets {A} (f : SimulationEngine → A) : total n (gets f).
Proof. by intros e H. Qed.

Lemma total_bind {A B} (m : M A) (k : A → M B) :
  total n m → (∀ a, total n (k a)) → total n (bind m k).
Proof.
  intros Hm Hk e H. apply wp_bind.
  eapply wp_mono; [by apply Hm| |done]. intros a e' H'. by apply Hk.
Qed.

Lemma total_when (b : bool) m : total n m → total n (when b m).
Proof. intros Hm. destruct b; [done|apply total_ret]. Qed.

Lemma total_deref r : (r < n)%nat → total n (deref r).
Proof.
  intros Hr e H. apply wp_deref; [done|].
  intros Hnone%lookup_ge_None. lia.
Qed.

Lemma total_update r f : (r < n)%nat → total n (update r f).
Proof.
  intros Hr e H. unfold update. apply wp_bind, wp_deref.
  - intros th _. apply wp_modify. simpl. by rewrite length_insert.
  - intros Hnone%lookup_ge_None. lia.
Qed.

Ltac total_frame := intros ? H; apply wp_modify; exact H.

Lemma total_log m l : total n (log m l).
Proof. unfold log. total_frame. Qed.

Lemma total_setCore i c : total n (setCore i c).
Proof. unfold setCore. total_frame. Qed.

Lemma total_threadName r : (r < n)%nat → total n (threadName r).
Proof.
  intros Hr. unfold threadName.
  apply total_bind; [by apply total_deref|intros ?; apply total_ret].
Qed.

Lemma total_moveToReady r : (r < n)%nat → total n (moveToReady r).
Proof.
  intros Hr. unfold moveToReady.
  apply total_bind; [by apply total_update|intros _].
  apply total_bind; [total_frame|intros _].
  apply total_bind; [by apply total_deref|intros ?]. apply total_log.
Qed.

Lemma total_moveToBlocked r reason : (r < n)%nat → total n (moveToBlocked r reason).
Proof.
  intros Hr. unfold moveToBlocked.
  apply total_bind; [by apply total_update|intros _].
  apply total_bind; [apply total_gets|intros ?].
  apply total_bind; [apply total_when; total_frame|intros _].
  apply total_bind; [by apply total_deref|intros ?]. apply total_log.
Qed.

Lemma total_releaseCoreOf r : total n (releaseCoreOf r).
Proof.
  unfold releaseCoreOf. apply total_bind; [apply total_gets|intros cs].
  destruct (list_find _ cs) as [[? ?]|]; [apply total_setCore|apply total_ret].
Qed.

Lemma total_unblock r : (r < n)%nat → total n (unblock r).
Proof.
  intros Hr. unfold unblock, removeFromBlocked.
  apply total_bind; [total_frame|intros _]. by apply total_moveToReady.
Qed.

Lemma total_putSemaphore instruction s : total n (putSemaphore instruction s).
Proof.
  unfold putSemaphore. destruct (resource instruction); [total_frame|apply total_ret].
Qed.

Lemma total_putMonitor instruction m : total n (putMonitor instruction m).
Proof.
  unfold putMonitor. destruct (resource instruction); [total_frame|apply total_ret].
Qed.

End Total.

Lemma sem_lookup_places e instruction s r :
  (k ← resource instruction; semaphores e !! k) = Some s →
  r ∈ Semaphore.waitQueue s → r ∈ places e.
Proof.
  intros Hs Hr. destruct (resource instruction) as [k|]; [|done]. simpl in Hs.
  pose proof (foldM_lookup semQueue _ k s Hs) as Hsub.
  assert (r ∈ semQueue s) by (by apply elem_of_list_to_set_disj).
  unfold places, semsM. multiset_solver.
Qed.

Lemma mon_lookup_places e instruction m r :
  (k ← resource instruction; monitors e !! k) = Some m →
  r ∈ Monitor.entryQueue m ∨ r ∈ Monitor.conditionQueue m → r ∈ places e.
Proof.
  intros Hm Hr. destruct (resource instruction) as [k|]; [|done]. simpl in Hm.
  pose proof (foldM_lookup monQueues _ k m Hm) as Hsub.
  assert (r ∈ monQueues m).
  { unfold monQueues.
    rewrite gmultiset_elem_of_disj_union, !elem_of_list_to_set_disj. tauto. }
  unfold places, monsM. multiset_solver.
Qed.

Ltac total_tail :=
  repeat first
    [ apply total_ret | apply total_log
    | apply total_threadName; assumption
    | apply total_unblock; assumption
    | apply total_moveToBlocked; assumption
    | apply total_releaseCoreOf
    | apply total_putSemaphore | apply total_putMonitor
    | apply total_bind; [|intros ?] ].

Ltac to_total :=
  lazymatch goal with
  | |- wp ?m _ _ ?e =>
      let Ht := fresh "Ht" in
      enough (total (length (heap e)) m) as Ht by (by apply Ht)
  end.

Lemma total_executeInstruction x instruction e :
  places_allocated e → (x < length (heap e))%nat →
  wp (executeInstruction x instruction)
     (λ _ e', length (heap e') = length (heap e)) (λ _, False) e.
Proof.
  intros Hall Hx. unfold executeInstruction, getSemaphore, getMonitor.
  destruct (type instruction); [by apply wp_ret|..];
    apply wp_bind, wp_gets;
    (destruct (_ ≫= _) as [p|] eqn:Hp; [|by apply wp_ret]).
  - destruct (Semaphore.wait x p) as [[] p']; simpl;
      to_total; total_tail.
  - pose proof (λ r Hr, Hall r (sem_lookup_places e _ p r Hp Hr)) as Hq.
    unfold Semaphore.signal. destruct (Semaphore.waitQueue p) as [|u rest].
    + to_total; total_tail.
    + assert (u < length (heap e))%nat by (apply Hq; by left).
      to_total; total_tail.
  - destruct (Monitor.enter x p) as [[] p']; simpl;
      to_total; total_tail.
  - pose proof (λ r Hr, Hall r (mon_lookup_places e _ p r Hp Hr)) as Hq.
    unfold Monitor.exit.
    destruct (Monitor.conditionQueue p) as [|u rest];
      [destruct (Monitor.entryQueue p) as [|u rest]|];
      try (assert (u < length (heap e))%nat
             by (apply Hq; first [left; by left|right; by left]));
      to_total; total_tail.
  - pose proof (λ r Hr, Hall r (mon_lookup_places e _ p r Hp Hr)) as Hq.
    unfold Monitor.wait. case_decide;
      [destruct (Monitor.entryQueue p) as [|u rest]|];
      try (assert (u < length (heap e))%nat by (apply Hq; left; by left));
      simpl; to_total; total_tail.
  - pose proof (λ r Hr, Hall r (mon_lookup_places e _ p r Hp Hr)) as Hq.
    unfold Monitor.signal.
    destruct (Monitor.conditionQueue p) as [|u rest];
      try (assert (u < length (heap e))%nat by (apply Hq; right; by left));
      to_total; total_tail.
Qed.

Lemma wp_three {A} (m : M A) (I1 I2 : SimulationEngine → Prop)
    (Q3 : A → SimulationEngine → Prop) e :
  wp m (λ _, I1) I1 e → wp m (λ _, I2) I2 e → wp m Q3 (λ _, False) e →
  wp m (λ a e', I1 e' ∧ I2 e' ∧ Q3 a e') (λ _, False) e.
Proof. unfold wp. by destruct (m e). Qed.

Lemma quantum_bound_update Q ox (h : list Thread.t) cs r th th' :
  h !! r = Some th →
  Thread.quantum th' ≤ Thread.quantum th ∨ Thread.quantum th' < Q →
  quantum_bound Q ox h cs → quantum_bound Q ox (<[r := th']> h) cs.
Proof.
  intros Hr Hq Hqb c y t Hc Hy Ht.
  destruct (decide (r = y)) as [->|Hne].
  - rewrite list_lookup_insert_eq in Ht by (by eapply lookup_lt_Some).
    injection Ht as <-. destruct Hq as [Hq|Hq]; [|by left].
    destruct (Hqb c y th Hc Hy Hr) as [?|[? ?]]; [left; lia|right; split; [done|lia]].
  - rewrite list_lookup_insert_ne in Ht by done. by eapply Hqb.
Qed.

Lemma quantum_bound_insert Q ox (h : list Thread.t) cs j c' :
  (CPUCore.currentThread c' = None ∨
   ∃ c, cs !! j = Some c ∧ CPUCore.currentThread c' = CPUCore.currentThread c) →
  quantum_bound Q ox h cs → quantum_bound Q ox h (<[j := c']> cs).
Proof.
  intros Hc' Hqb c y t [->|Hc]%list_elem_of_insert_inv Hy Ht.
  - destruct Hc' as [Hnone|(c0 & Hj & Hcur)]; [congruence|].
    eapply (Hqb c0); [by eapply list_elem_of_lookup_2|congruence|done].
  - by eapply Hqb.
Qed.

Lemma only_on_release i x (cs : list CPUCore.t) j c' :
  CPUCore.currentThread c' = None → only_on i x cs → only_on i x (<[j := c']> cs).
Proof.
  intros Hc' Hon k c Hk Hcur.
  destruct (decide (j = k)) as [->|Hne].
  - destruct (decide (k < length cs)%nat).
    + rewrite list_lookup_insert_eq in Hk by done. congruence.
    + rewrite list_insert_ge in Hk by lia. by eapply Hon.
  - rewrite list_lookup_insert_ne in Hk by done. by eapply Hon.
Qed.

(** Once the core of the executing thread is released, the bound holds for
    every core. *)
Lemma quantum_bound_released Q x (h : list Thread.t) cs i c' :
  CPUCore.currentThread c' = None →
  quantum_bound Q (Some x) h cs → only_on i x cs →
  quantum_bound Q None h (<[i := c']> cs).
Proof.
  intros Hc' Hqb Hon c y t [j Hj]%list_elem_of_lookup_1 Hy Ht.
  destruct (decide (i = j)) as [->|Hne].
  - destruct (decide (j < length cs)%nat).
    + rewrite list_lookup_insert_eq in Hj by done. congruence.
    + rewrite list_insert_ge in Hj by lia.
      apply lookup_lt_Some in Hj. lia.
  - rewrite list_lookup_insert_ne in Hj by done.
    destruct (Hqb c y t (list_elem_of_lookup_2 _ _ _ Hj) Hy Ht) as [?|[[= <-] ?]];
      [by left|].
    by destruct (Hon j c Hj Hy).
Qed.

Lemma coresM_two (cs : list CPUCore.t) i j c c' x :
  i ≠ j → cs !! i = Some c → cs !! j = Some c' →
  CPUCore.currentThread c = Some x → CPUCore.currentThread c' = Some x →
  (2 ≤ multiplicity x (coresM cs))%nat.
Proof.
  intros Hne Hi Hj Hc Hc'.
  pose proof (coresM_insert cs i c (CPUCore.make 0) Hi) as H1.
  assert (<[i := CPUCore.make 0]> cs !! j = Some c') as Hj'
    by (by rewrite list_lookup_insert_ne).
  pose proof (coresM_insert _ j c' (CPUCore.make 0) Hj') as H2.
  rewrite Hc, optM_Some in H1. rewrite Hc', optM_Some in H2.
  simpl in H1, H2. rewrite optM_None in H1, H2.
  assert (coresM cs = coresM (<[j:=CPUCore.make 0]> (<[i:=CPUCore.make 0]> cs))
                      ⊎ {[+ x +]} ⊎ {[+ x +]}) as -> by multiset_solver.
  rewrite !multiplicity_disj_union, !multiplicity_singleton_eq. lia.
Qed.

Lemma one_place_only_on e i c x :
  one_place e → cpuCores e !! i = Some c → CPUCore.currentThread c = Some x →
  only_on i x (cpuCores e).
Proof.
  intros Hone Hi Hc j c' Hj Hc'.
  destruct (decide (i = j)) as [|Hne]; [done|].
  pose proof (coresM_two _ i j c c' x Hne Hi Hj Hc Hc') as H2.
  pose proof (Hone x) as H1. unfold places in H1.
  rewrite !multiplicity_disj_union in H1. lia.
Qed.

Lemma places_set_core_same e i c c' :
  cpuCores e !! i = Some c →
  CPUCore.currentThread c' = CPUCore.currentThread c →
  places (set_cpuCores (λ cs, <[i := c']> cs) e) = places e.
Proof.
  intros Hc Hcur. unfold places; simpl.
  by rewrite (coresM_insert_same _ i c c' Hc Hcur).
Qed.

Lemma execute_quantum th :
  Thread.quantum (Thread.execute th).2 ≤ Thread.quantum th + 1.
Proof.
  unfold Thread.execute.
  destruct (Thread.instructions th !! Thread.currentInstruction th); simpl; lia.
Qed.

Section RoundRobin.

Variable s : Scheduler.t.
Hypothesis s_rr : Scheduler.algorithm s = "round-robin".
Hypothesis s_pos : 0 < Scheduler.timeQuantum s.

Let Q := Scheduler.timeQuantum s.
Let B (e : SimulationEngine) : Prop :=
  quantum_bound Q None (heap e) (cpuCores e).

Lemma B_update_le (h : list Thread.t) cs r th th' :
  h !! r = Some th → Thread.quantum th' ≤ Thread.quantum th →
  quantum_bound Q None h cs → quantum_bound Q None (<[r := th']> h) cs.
Proof. intros H1 H2. eapply quantum_bound_update; [exact H1|by left]. Qed.

Lemma B_release (h : list Thread.t) cs j c :
  quantum_bound Q None h cs →
  quantum_bound Q None h (<[j := (CPUCore.releaseThread c).2]> cs).
Proof. apply quantum_bound_insert. by left. Qed.

Lemma qb_runCore i e :
  scheduler e = s → one_place e → places_allocated e → B e →
  wp (runCore i) (λ _, B) B e.
Proof.
  intros Hs Hone Hall HB. unfold runCore.
  apply wp_bind, wp_getCore; [|done]. intros c Hc.
  apply wp_bind, wp_modify. set (e1 := set_cpuCores _ e).
  assert (CPUCore.currentThread (CPUCore.tick c) = CPUCore.currentThread c)
    as Hcur by (unfold CPUCore.tick; by destruct (CPUCore.isIdle c)).
  assert (B e1) as HB1.
  { unfold B, e1; simpl. apply quantum_bound_insert; [right; eauto|done]. }
  assert (cpuCores e1 !! i = Some (CPUCore.tick c)) as Hc1
    by (simpl; apply list_lookup_insert_eq; by eapply lookup_lt_Some).
  apply wp_bind, wp_getCore; [|done].
  intros c1 Hc1'. rewrite Hc1 in Hc1'. injection Hc1' as <-.
  destruct (CPUCore.isIdle (CPUCore.tick c)); [by apply wp_ret|].
  rewrite Hcur. destruct (CPUCore.currentThread c) as [x|] eqn:Hx;
    [|by apply wp_ret].
  assert (only_on i x (cpuCores e1)) as Hon.
  { pose proof (one_place_only_on e i c x Hone Hc Hx) as Hon0.
    intros j c' Hj Hc'. destruct (decide (i = j)) as [|Hne]; [done|].
    simpl in Hj. rewrite list_lookup_insert_ne in Hj by done. by eapply Hon0. }
  (* thread.execute() *)
  apply wp_bind. unfold execute. apply wp_bind, wp_deref; [|done].
  intros th Hth. pose proof (execute_quantum th) as Hex.
  destruct (Thread.execute th) as [result th']. simpl in Hex.
  apply wp_bind, wp_modify, wp_ret. set (e2 := set_heap _ e1).
  assert (Thread.quantum th < Q) as Hlt.
  { destruct (HB1 (CPUCore.tick c) x th) as [?|[? ?]]; try done.
    by eapply list_elem_of_lookup_2. }
  set (G := λ (h : list Thread.t) cs,
         quantum_bound Q (Some x) h cs ∧ only_on i x cs).
  assert (G (heap e2) (cpuCores e2)) as HG2.
  { split; [|done]. intros c0 y t Hc0 Hy Ht. simpl in Ht.
    destruct (decide (x = y)) as [->|Hne].
    - rewrite list_lookup_insert_eq in Ht by (by eapply lookup_lt_Some).
      injection Ht as <-. right. split; [done|lia].
    - rewrite list_lookup_insert_ne in Ht by done.
      destruct (HB1 c0 y t Hc0 Hy Ht) as [?|[? ?]]; [by left|done]. }
  assert (x < length (heap e2))%nat as Hx2.
  { simpl. rewrite length_insert. by eapply lookup_lt_Some. }
  assert (places_allocated e2) as Hall2.
  { intros r Hr. simpl. rewrite length_insert. apply Hall.
    assert (places e2 = places e1) as Hp by done.
    rewrite Hp in Hr. unfold e1 in Hr.
    rewrite (places_set_core_same e i c (CPUCore.tick c) Hc) in Hr; [done|].
    by rewrite Hcur, Hx. }
  (* executeInstruction *)
  apply wp_bind.
  apply (wp_mono _
    (λ _ e3, G (heap e3) (cpuCores e3) ∧ same_config e2 e3 ∧
             length (heap e3) = length (heap e2)) _ (λ _, False)); [|clear HG2|done].
  { destruct result as [instruction|]; [|apply wp_ret; by split; [|split; [apply same_config_refl|]]].
    apply (wp_three _ (λ e3, G (heap e3) (cpuCores e3)) (same_config e2)).
    - apply (rx_executeInstruction G); [| |done].
      + intros h cs r t t' Hr Hq [HG1 HG1']. split; [|done].
        eapply quantum_bound_update; [done|by left|done].
      + intros h cs j c0 [HG1 HG1']. split.
        * apply quantum_bound_insert; [by left|done].
        * by apply only_on_release.
    - apply cfg_executeInstruction, same_config_refl.
    - by apply total_executeInstruction. }
  intros [] e3 ([Hqb3 Hon3] & Hcfg & Hlen).
  destruct Hcfg as (Hsched & _ & _ & _ & _ & Hclen).
  assert (scheduler e3 = s) as Hs3 by (rewrite Hsched; done).
  apply wp_bind, wp_deref.
  2:{ intros Hnone%lookup_ge_None. lia. }
  intros th3 Hth3. apply wp_bind, wp_gets. rewrite Hs3.
  assert (is_Some (cpuCores e3 !! i)) as [c3 Hc3].
  { apply lookup_lt_is_Some. rewrite Hclen. simpl. rewrite length_insert.
    by eapply lookup_lt_Some. }
  assert (B (set_cpuCores (λ cs, <[i := (CPUCore.releaseThread c3).2]> cs) e3))
    as HB4 by (by apply (quantum_bound_released Q x)).
  destruct (_ || _).
  - apply wp_bind. unfold releaseThread. apply wp_bind, wp_getCore; [|congruence].
    intros c3' Hc3'. rewrite Hc3 in Hc3'. injection Hc3' as <-. simpl.
    apply wp_bind, wp_modify, wp_ret.
    by apply (rx_moveToTerminated (quantum_bound Q None) B_update_le).
  - unfold Scheduler.shouldPreempt. rewrite s_rr. simpl. fold Q.
    case_bool_decide as Hge.
    + apply wp_bind. unfold releaseThread. apply wp_bind, wp_getCore; [|congruence].
      intros c3' Hc3'. rewrite Hc3 in Hc3'. injection Hc3' as <-. simpl.
      apply wp_bind, wp_modify, wp_ret.
      destruct (CPUCore.currentThread c3) as [p|]; [|by apply wp_throw].
      apply wp_bind. unfold update. apply wp_bind, wp_deref; [|done].
      intros tp Htp. apply wp_modify.
      set (e5 := set_heap _ _).
      assert (B e5) as HB5.
      { unfold B, e5. simpl. eapply quantum_bound_update; [done|by right|done]. }
      apply wp_bind.
      eapply wp_mono;
        [by apply (rx_moveToReady (quantum_bound Q None) B_update_le)
        | |done].
      intros [] e6 HB6. apply wp_bind.
      eapply wp_mono;
        [by apply (rx_threadName (quantum_bound Q None))| |done].
      intros n e7 HB7.
      by apply (rx_log (quantum_bound Q None)).
    + apply wp_ret. intros c0 y t Hc0 Hy Ht.
      destruct (Hqb3 c0 y t Hc0 Hy Ht) as [?|[[= <-] _]]; [by left|].
      left. rewrite Hth3 in Ht. injection Ht as <-. lia.
Qed.

End RoundRobin.

Lemma pres_dep {A} (I1 I2 : SimulationEngine → Prop) (m : M A) :
  pres I1 m →
  (∀ e, I1 e → I2 e → wp m (λ _, I2) I2 e) →
  pres (λ e, I1 e ∧ I2 e) m.
Proof. intros H1 H2 e [? ?]. apply wp_and; [by apply H1|by apply H2]. Qed.

Lemma reachable_places_allocated e : reachable e → places_allocated e.
Proof.
  intros He r Hr.
  destruct (decide (r < length (heap e))%nat) as [|Hge]; [done|].
  destruct (reachable_fresh_frozen e He r ltac:(lia)) as [_ Hun].
  by apply unreferenced_places in Hun.
Qed.

Lemma since_refl e : since e e.
Proof. split; [apply same_config_refl|]. split; [done|apply heap_le_refl]. Qed.

Lemma since_one_place e0 e : one_place e0 → since e0 e → one_place e.
Proof.
  intros Hone (_ & Hsub & _) T. specialize (Hone T). specialize (Hsub T). lia.
Qed.

Lemma since_places_allocated e0 e :
  places_allocated e0 → since e0 e → places_allocated e.
Proof.
  intros Hall (_ & Hsub & Hle) r Hr.
  apply heap_le_length in Hle.
  assert (r ∈ places e0) as Hr0.
  { apply elem_of_multiplicity.
    pose proof (proj1 (elem_of_multiplicity _ _) Hr). specialize (Hsub r). lia. }
  specialize (Hall r Hr0). lia.
Qed.

Lemma since_pres {A} e0 (m : M A) :
  pres (same_config e0) m →
  (∀ e, wp m (λ _ e', places e' ⊆ places e) (λ e', places e' ⊆ places e) e) →
  pres (λ e, heap_le (heap e0) (heap e)) m →
  pres (since e0) m.
Proof.
  intros H1 H2 H3. unfold since.
  apply pres_and; [done|]. apply pres_and; [|done]. by apply sub_pres.
Qed.

Lemma wp_neutral_sub {A} (m : M A) :
  (∀ e0, pres (same_places e0) m) →
  ∀ e, wp m (λ _ e', places e' ⊆ places e) (λ e', places e' ⊆ places e) e.
Proof.
  intros Hm e. apply wp_same; [apply Hm|..]; intros; by erewrite places_same.
Qed.

Lemma since_update_tick e0 x : pres (since e0) (update x Thread.tick).
Proof.
  apply since_pres.
  - apply cfg_update.
  - apply wp_neutral_sub. intros ?. apply sp_update.
  - apply (pres_update (heap_le (heap e0)) (heap_le_update (heap e0))).
    apply thread_step_tick.
Qed.

Lemma since_runCore e0 i : pres (since e0) (runCore i).
Proof.
  apply since_pres; [apply cfg_runCore|apply wp_runCore|].
  apply (pres_runCore (heap_le (heap e0)) (heap_le_update (heap e0))).
Qed.

Lemma since_manyToOne e0 : pres (since e0) manyToOne.
Proof.
  apply since_pres; [apply cfg_manyToOne|apply wp_manyToOne|].
  apply (pres_manyToOne (heap_le (heap e0))).
Qed.

Lemma since_dispatchCore e0 i : pres (since e0) (dispatchCore i).
Proof.
  apply since_pres; [apply cfg_dispatchCore|apply wp_dispatchCore|].
  apply (pres_dispatchCore (heap_le (heap e0)) (heap_le_update (heap e0))).
Qed.

Section RoundRobinTick.

Variable s : Scheduler.t.
Hypothesis s_rr : Scheduler.algorithm s = "round-robin".
Hypothesis s_pos : 0 < Scheduler.timeQuantum s.

Let Q := Scheduler.timeQuantum s.
Let B (e : SimulationEngine) : Prop :=
  quantum_bound Q None (heap e) (cpuCores e).

Lemma qb_manyToOne e : B e → wp manyToOne (λ _, B) B e.
Proof.
  intros HB. unfold manyToOne. apply wp_bind, wp_gets.
  case_decide; [|by apply wp_ret].
  apply wp_bind, wp_gets. apply wp_when; [intros _|done].
  apply (wp_forEach B); [|done].
  intros i e1 _ H1. apply wp_bind, wp_getCore; [|done].
  intros c Hc. apply wp_modify. unfold B; simpl.
  apply quantum_bound_insert; [|done]. right. by exists c.
Qed.

Lemma qb_dispatchCore i e : B e → wp (dispatchCore i) (λ _, B) B e.
Proof.
  intros HB. unfold dispatchCore. apply wp_bind, wp_getCore; [|done].
  intros c Hc. apply wp_bind, wp_gets.
  destruct (_ && _); [|by apply wp_ret].
  apply wp_bind, wp_gets, wp_bind, wp_gets.
  destruct (Scheduler.selectNextThread _ _ _) as [[sel rq']|];
    [|by apply wp_throw].
  apply wp_bind, wp_modify.
  destruct sel as [x|]; [|by apply wp_ret].
  apply wp_bind. unfold update. apply wp_bind, wp_deref; [|done].
  intros th Hth. apply wp_modify.
  set (e2 := set_heap _ _).
  assert (B e2) as HB2.
  { unfold B, e2; simpl. eapply quantum_bound_update; [done|by right|done]. }
  assert (heap e2 !! x = Some (Thread.set_quantum 0 th)) as Hx2.
  { simpl. apply list_lookup_insert_eq. by eapply lookup_lt_Some. }
  apply wp_bind. unfold assignThread.
  apply wp_bind, wp_getCore; [|done]. intros c2 Hc2.
  apply wp_bind, wp_modify.
  set (e3 := set_cpuCores _ e2).
  assert (B e3) as HB3.
  { intros c0 y t [->|Hc0]%list_elem_of_insert_inv Hy Ht.
    - simpl in Hy. injection Hy as <-.
      change (heap e2 !! x = Some t) in Ht.
      rewrite Hx2 in Ht. injection Ht as <-. by left.
    - by eapply HB2. }
  eapply wp_mono;
    [by apply (rx_update (quantum_bound Q None) (B_update_le s))| |done].
  intros [] e4 HB4. apply wp_bind.
  eapply wp_mono; [by apply (rx_threadName (quantum_bound Q None))| |done].
  intros n e5 HB5. apply wp_bind, wp_getCore; [|done]. intros c5 _.
  by apply (rx_log (quantum_bound Q None)).
Qed.

Lemma qb_tick e :
  scheduler e = s → one_place e → places_allocated e → B e →
  wp tick (λ _, B) B e.
Proof.
  intros Hs Hone Hall HB.
  assert (pres (λ e', since e e' ∧ B e') tick) as Hpres.
  { unfold tick.
    apply pres_bind.
    { apply pres_modify. intros e' [(Hcfg & Hp & Hh) HB']. split; [|done].
      split; [|by split]. destruct Hcfg as (?&?&?&?&?&?). by repeat split. }
    intros _. apply pres_bind; [apply pres_gets|intros ts].
    apply pres_bind.
    { apply pres_forEach. intros x. apply pres_dep; [apply since_update_tick|].
      intros e1 _ HB1.
      by apply (rx_update (quantum_bound Q None) (B_update_le s)). }
    intros _. apply pres_bind; [apply pres_gets|intros n].
    apply pres_bind.
    { apply pres_forEach. intros i. apply pres_dep; [apply since_runCore|].
      intros e1 Hsince HB1. apply (qb_runCore s s_rr s_pos).
      - destruct Hsince as ((-> & _) & _). done.
      - by eapply since_one_place.
      - by eapply since_places_allocated.
      - done. }
    intros _. apply pres_bind.
    { apply pres_dep; [apply since_manyToOne|].
      intros e1 _ HB1. by apply qb_manyToOne. }
    intros _. apply pres_forEach. intros i.
    apply pres_dep; [apply since_dispatchCore|].
    intros e1 _ HB1. by apply qb_dispatchCore. }
  eapply wp_mono; [apply Hpres; split; [apply since_refl|done]|..];
    simpl; by intros; destruct_and?.
Qed.

End RoundRobinTick.

Lemma scheduler_fireTimer s : pres (λ e, scheduler e = s) fireTimer.
Proof.
  unfold fireTimer, timeoutCallback, moveToReady, update, log.
  repeat first [pres_step | apply pres_modify; intros ? H; exact H].
Qed.

Lemma addThread_fresh_frame (e : SimulationEngine) name priority instructions :
  ∃ e' th,
    run (OpAddThread name priority instructions) e = Ok () e' ∧
    heap e' = heap e ++ [th] ∧
    cpuCores e' = cpuCores e ∧ scheduler e' = scheduler e.
Proof.
  assert (pres (λ e', cpuCores e' = cpuCores e ∧ scheduler e' = scheduler e)
               (run (OpAddThread name priority instructions))) as Hpres.
  { unfold run, newThread, addThread, mapThreadToKernel, update, log.
    repeat first [pres_step | apply pres_modify; intros ? H; exact H]. }
  destruct (addThread_fresh e name priority instructions)
    as (e' & th & Hrun & Hheap & _).
  specialize (Hpres e (conj eq_refl eq_refl)). unfold wp in Hpres.
  rewrite Hrun in Hpres. destruct Hpres. by exists e', th.
Qed.

Lemma reachable_within_quantum e : reachable e → within_quantum e.
Proof.
  induction 1 as [|o e He IH].
  - intros _ _ c y th Hc. by apply elem_of_nil in Hc.
  - destruct o as [n a q m|name priority instructions|name v|name| |].
    + (* initialize *)
      intros _ _ c y th Hc Hy. simpl in Hc.
      apply list_elem_of_fmap in Hc as (k & -> & _). done.
    + (* addThread *)
      destruct (addThread_fresh_frame e name priority instructions)
        as (e' & t & Hrun & Hheap & Hcores & Hsched).
      rewrite Hrun. simpl. unfold within_quantum. rewrite Hsched, Hcores, Hheap.
      intros Hrr Hpos c y th Hc Hy Hth.
      assert (y ∈ places e) as Hin.
      { unfold places. apply gmultiset_elem_of_disj_union. left.
        apply gmultiset_elem_of_disj_union. left.
        apply gmultiset_elem_of_disj_union. right.
        apply elem_of_coresM. eauto. }
      apply (reachable_places_allocated e He) in Hin.
      rewrite lookup_app_l in Hth by done. by eapply IH.
    + (* addSemaphore *) unfold run. rewrite addSemaphore_eq. exact IH.
    + (* addMonitor *) unfold run. rewrite addMonitor_eq. exact IH.
    + (* tick *)
      pose proof (tick_same_config e) as (Hsched & _).
      unfold within_quantum. simpl. rewrite Hsched. intros Hrr Hpos.
      apply (wp_final tick
               (λ e', quantum_bound (Scheduler.timeQuantum (scheduler e)) None
                                    (heap e') (cpuCores e'))).
      apply (qb_tick (scheduler e) Hrr Hpos); [done| | |by apply IH].
      * by apply reachable_one_place.
      * by apply reachable_places_allocated.
    + (* timer *)
      pose proof (pres_final _ fireTimer e (scheduler_fireTimer (scheduler e))
                    eq_refl) as Hsched.
      unfold within_quantum. simpl. rewrite Hsched. intros Hrr Hpos.
      apply (pres_final _ fireTimer e
               (rx_fireTimer (quantum_bound _ None) (B_update_le _))).
      by apply IH.
Qed.

(** * Round-robin preemption *)




(** * Every call is a sequence of writes *)

Lemma runCore_split i :
  runCore i
  = (let* core := getCore i in setCore i (CPUCore.tick core) ;; runThread i).
Proof. reflexivity. Qed.

Lemma wp_update r f Q E e :
  (∀ th, heap e !! r = Some th →
     Q () (set_heap (λ h, <[r := f th]> h) e)) →
  (heap e !! r = None → E e) →
  wp (update r f) Q E e.
Proof.
  intros H1 H2. unfold update. apply wp_bind, wp_deref; [|done].
  intros th Hth. by apply wp_modify, H1.
Qed.

Lemma wp_call {A B} (J : SimulationEngine → Prop) (m : M A) (k : A → M B) e :
  pres J m → J e →
  (∀ a e', J e' → wp (k a) (λ _, J) J e') →
  wp (bind m k) (λ _, J) J e.
Proof.
  intros Hm He Hk. apply wp_bind.
  eapply wp_mono; [by apply Hm|..]; simpl; eauto.
Qed.

Lemma elem_of_availableCores i cs :
  i ∈ availableCores cs →
  ∃ c, cs !! i = Some c ∧ CPUCore.isIdle c = true.
Proof.
  unfold availableCores. intros ([j c] & -> & Hin)%list_elem_of_fmap.
  apply list_elem_of_filter in Hin as [Hidle Hin].
  apply list_elem_of_lookup_1 in Hin as [k Hk].
  rewrite list_lookup_imap in Hk.
  destruct (cs !! k) as [c'|] eqn:Hc'; simplify_eq/=. by exists c.
Qed.

Lemma lookup_insert_same {A} (l : list A) i x y :
  l !! i = Some x → <[i := y]> l !! i = Some y.
Proof. intros H. apply list_lookup_insert_eq. by eapply lookup_lt_Some. Qed.

Section Trace.

Variable e0 : SimulationEngine.

Let J (e : SimulationEngine) : Prop := rtc prim e0 e.

Lemma J_prim e e' : J e → prim e e' → J e'.
Proof. intros H Hp. by eapply rtc_r. Qed.

Ltac jstep := eapply J_prim; [eassumption|econstructor; eauto].

Lemma tr_log m l : pres J (log m l).
Proof. intros e H. unfold log. apply wp_modify. jstep. Qed.

Lemma tr_threadName x : pres J (threadName x).
Proof. unfold threadName. repeat pres_step. Qed.

Lemma tr_moveToReady x : pres J (moveToReady x).
Proof.
  intros e H. unfold moveToReady.
  apply wp_bind, wp_update; [|done]. intros th Hth.
  assert (J (set_heap (λ h, <[x := Thread.setState READY th]> h) e)) as H1
    by jstep.
  apply wp_bind, wp_modify.
  match goal with |- wp _ _ _ ?e2 => assert (J e2) as H2 end.
  { eapply J_prim; [exact H1|].
    eapply (prim_ready _ x); [simpl; by eapply lookup_insert_same|done]. }
  apply wp_bind, wp_deref; [|done]. intros th' _. by apply tr_log.
Qed.

Lemma tr_moveToBlocked x reason : pres J (moveToBlocked x reason).
Proof.
  intros e H. unfold moveToBlocked.
  apply wp_bind, wp_update; [|done]. intros th Hth.
  assert (J (set_heap (λ h, <[x := Thread.setState BLOCKED th]> h) e)) as H1
    by jstep.
  apply wp_bind, wp_gets. simpl. apply wp_bind.
  case_bool_decide as Hin; simpl.
  - apply wp_ret. apply wp_bind, wp_deref; [|done]. intros th' _.
    by apply tr_log.
  - apply wp_modify.
    match goal with |- wp _ _ _ ?e2 => assert (J e2) as H2 end.
    { eapply J_prim; [exact H1|].
      eapply (prim_blocked _ x); [simpl; by eapply lookup_insert_same|done..]. }
    apply wp_bind, wp_deref; [|done]. intros th' _. by apply tr_log.
Qed.

Lemma tr_moveToTerminated x : pres J (moveToTerminated x).
Proof.
  intros e H. unfold moveToTerminated.
  apply wp_bind, wp_update; [|done]. intros th Hth.
  set (th1 := Thread.setState TERMINATED th).
  set (e1 := set_heap _ e).
  assert (J e1) as H1 by (subst e1 th1; jstep).
  assert (heap e1 !! x = Some th1) as Hth1
    by (subst e1; simpl; by eapply lookup_insert_same).
  apply wp_bind, wp_gets.
  apply wp_bind, wp_update; [|done]. intros th' Hth'.
  assert (th' = th1) as -> by congruence.
  set (e2 := set_heap _ e1).
  assert (J e2) as H2.
  { eapply J_prim; [exact H1|]. subst e2.
    by eapply (prim_completion _ x). }
  apply wp_bind, wp_modify.
  match goal with |- wp _ _ _ ?e3 => assert (J e3) as H3 end.
  { eapply J_prim; [exact H2|].
    eapply (prim_terminated _ x);
      [subst e2; simpl; by eapply lookup_insert_same|done..]. }
  apply wp_bind, wp_deref; [|done]. intros th'' _. by apply tr_log.
Qed.

Lemma tr_releaseCoreOf x : pres J (releaseCoreOf x).
Proof.
  intros e H. unfold releaseCoreOf. apply wp_bind, wp_gets.
  destruct (list_find _ _) as [[i core]|] eqn:Hfind; [|done].
  apply list_find_Some in Hfind as (Hi & _ & _).
  apply wp_modify. jstep.
Qed.

Lemma tr_releaseThread i : pres J (releaseThread i).
Proof.
  intros e H. unfold releaseThread. apply wp_bind, wp_getCore; [|done].
  intros c Hc. simpl. apply wp_bind, wp_modify. apply wp_ret. jstep.
Qed.

Lemma tr_unblock x : pres J (unblock x).
Proof.
  intros e H. unfold unblock, removeFromBlocked.
  apply wp_bind, wp_modify. apply tr_moveToReady. jstep.
Qed.

Ltac tr_tail :=
  repeat first
    [ apply pres_ret | apply tr_log | apply tr_threadName
    | apply tr_unblock | apply tr_moveToBlocked | apply tr_releaseCoreOf
    | apply pres_bind; [|intros ?] ].

Ltac tr_rest H :=
  lazymatch goal with
  | |- wp ?m _ _ ?e =>
      let Ht := fresh "Ht" in
      enough (pres J m) as Ht by (by apply Ht); tr_tail
  end.

Lemma tr_executeInstruction x instruction :
  pres J (executeInstruction x instruction).
Proof.
  intros e H. unfold executeInstruction, getSemaphore, getMonitor.
  destruct (type instruction); [done|..];
    apply wp_bind, wp_gets;
    (destruct (_ ≫= _) as [p|] eqn:Hp; [|done]);
    (destruct (resource instruction) as [k|] eqn:Hk; [|done]);
    simpl in Hp.
  - destruct (Semaphore.wait x p) as [proceed p'] eqn:Hw.
    unfold putSemaphore. rewrite Hk. apply wp_bind, wp_modify.
    match goal with |- wp _ _ _ ?e1 => assert (J e1) as H1 end.
    { replace p' with (Semaphore.wait x p).2 by (by rewrite Hw). jstep. }
    destruct proceed; simpl; tr_rest H1.
  - destruct (Semaphore.signal p) as [u p'] eqn:Hw.
    unfold putSemaphore. rewrite Hk. apply wp_bind, wp_modify.
    match goal with |- wp _ _ _ ?e1 => assert (J e1) as H1 end.
    { replace p' with (Semaphore.signal p).2 by (by rewrite Hw). jstep. }
    destruct u; tr_rest H1.
  - destruct (Monitor.enter x p) as [entered p'] eqn:Hw.
    unfold putMonitor. rewrite Hk. apply wp_bind, wp_modify.
    match goal with |- wp _ _ _ ?e1 => assert (J e1) as H1 end.
    { replace p' with (Monitor.enter x p).2 by (by rewrite Hw). jstep. }
    destruct entered; simpl; tr_rest H1.
  - destruct (Monitor.exit p) as [[nt w] p'] eqn:Hw.
    unfold putMonitor. rewrite Hk. apply wp_bind, wp_modify.
    match goal with |- wp _ _ _ ?e1 => assert (J e1) as H1 end.
    { replace p' with (Monitor.exit p).2 by (by rewrite Hw). jstep. }
    destruct nt; tr_rest H1.
  - destruct (Monitor.wait x p) as [[nt blocked] p'] eqn:Hw.
    unfold putMonitor. rewrite Hk. apply wp_bind, wp_modify.
    match goal with |- wp _ _ _ ?e1 => assert (J e1) as H1 end.
    { replace p' with (Monitor.wait x p).2 by (by rewrite Hw). jstep. }
    destruct blocked, nt; simpl; tr_rest H1.
  - destruct (Monitor.signal p) as [u p'] eqn:Hw.
    unfold putMonitor. rewrite Hk. apply wp_bind, wp_modify.
    match goal with |- wp _ _ _ ?e1 => assert (J e1) as H1 end.
    { replace p' with (Monitor.signal p).2 by (by rewrite Hw). jstep. }
    destruct u; tr_rest H1.
Qed.

Lemma tr_runThread i : pres J (runThread i).
Proof.
  intros e H. unfold runThread. apply wp_bind, wp_getCore; [|done].
  intros c Hc.
  destruct (CPUCore.isIdle c) eqn:Hidle; [done|].
  destruct (CPUCore.currentThread c) as [x|] eqn:Hcur; [|done].
  apply wp_bind. unfold execute. apply wp_bind, wp_deref; [|done].
  intros th Hth. destruct (Thread.execute th) as [result th'] eqn:Hex.
  apply wp_bind, wp_modify. apply wp_ret.
  match goal with |- wp _ _ _ ?e1 => assert (J e1) as H1 end.
  { replace th' with (Thread.execute th).2 by (by rewrite Hex). jstep. }
  apply wp_call; [|done|].
  { destruct result; [apply tr_executeInstruction|apply pres_ret]. }
  intros _ e2 H2. apply wp_bind, wp_deref; [|done]. intros th2 _.
  apply wp_bind, wp_gets.
  destruct (_ || _).
  - apply wp_call; [apply tr_releaseThread|done|].
    intros _ e3 H3. by apply tr_moveToTerminated.
  - destruct (Scheduler.shouldPreempt _ _); [|done].
    apply wp_call; [apply tr_releaseThread|done|].
    intros [p|] e3 H3; [|done].
    apply wp_bind, wp_update; [|done]. intros thp Hthp.
    match goal with |- wp _ _ _ ?e4 => assert (J e4) as H4 by jstep end.
    revert H4. generalize (set_heap (λ h, <[p := Thread.set_quantum 0 thp]> h) e3).
    intros e4 H4.
    enough (pres J (moveToReady p;; let* n := threadName p in
                    log ("Thread " +:+ n +:+ " preempted") "info")) as Ht
      by (by apply Ht).
    apply pres_bind; [apply tr_moveToReady|intros _]. tr_tail.
Qed.

Lemma tr_manyToOne : pres J manyToOne.
Proof.
  intros e H. unfold manyToOne. apply wp_bind, wp_gets.
  case_decide; [|done].
  apply wp_bind, wp_gets. apply wp_when; [intros _|done].
  set (avail := availableCores (cpuCores e)).
  pose (K := λ e', J e' ∧ ∀ i c, i ∈ avail → cpuCores e' !! i = Some c →
                     CPUCore.isIdle c = true).
  enough (wp (forEach (drop 1 avail) (λ i, let* core := getCore i in
            setCore i (CPUCore.set_isIdle true core))) (λ _, K) K e) as Hwp.
  { eapply wp_mono; [exact Hwp|..]; unfold K; simpl; tauto. }
  apply wp_forEach.
  - intros i e1 Hi [H1 Hidle]. apply wp_bind, wp_getCore; [|done].
    intros c Hc. apply wp_modify.
    assert (i ∈ avail) as Hi' by (by eapply subseteq_drop).
    split; [jstep|].
    intros j c' Hj. simpl.
    destruct (decide (j = i)) as [->|Hne].
    + erewrite lookup_insert_same by done. by intros [= <-].
    + rewrite list_lookup_insert_ne by done. by apply Hidle.
  - split; [done|]. intros i c Hi Hc.
    apply elem_of_availableCores in Hi as (c' & Hc' & Hidle). congruence.
Qed.

Lemma tr_dispatchCore i : pres J (dispatchCore i).
Proof.
  intros e H. unfold dispatchCore. apply wp_bind, wp_getCore; [|done].
  intros c Hc. apply wp_bind, wp_gets.
  destruct (CPUCore.isIdle c) eqn:Hidle; [|done].
  destruct (bool_decide _); [|done]. simpl.
  apply wp_bind, wp_gets. apply wp_bind, wp_gets.
  destruct (Scheduler.selectNextThread _ _ _) as [[selected rq']|] eqn:Hsel;
    [|done].
  apply wp_bind, wp_modify.
  match goal with |- wp _ _ _ ?e1 => assert (J e1) as H1 by jstep end.
  destruct selected as [x|]; [|done].
  apply wp_bind, wp_update; [|done]. intros th Hth.
  match goal with |- wp _ _ _ ?e2 => assert (J e2) as H2 by jstep end.
  apply wp_bind. unfold assignThread.
  apply wp_bind, wp_getCore; [|done]. intros c' Hc'.
  assert (c' = c) as -> by (simpl in Hc'; congruence).
  apply wp_bind, wp_modify.
  match goal with |- wp _ _ _ ?e3 => assert (J e3) as H3 end.
  { eapply J_prim; [exact H2|].
    eapply (prim_assign _ i c x); [done|done| |];
      [simpl; by eapply lookup_insert_same|done]. }
  apply wp_update; [|done]. intros th3 Hth3.
  match goal with |- wp _ _ _ ?e4 => assert (J e4) as H4 by jstep end.
  revert H4.
  generalize (set_heap (λ h, <[x := Thread.setState RUNNING th3]> h)
    (set_cpuCores (λ cs, <[i := CPUCore.assignThread x c]> cs)
       (set_heap (λ h, <[x := Thread.set_quantum 0 th]> h)
          (set_readyQueue (λ _, rq') e)))).
  intros e4 H4.
  enough (pres J (let* n := threadName x in let* core := getCore i in
            log ("Thread " +:+ n +:+ " assigned to Core "
                 +:+ pretty (CPUCore.id core)) "info")) as Ht
    by (by apply Ht).
  apply pres_bind; [apply tr_threadName|intros n].
  apply pres_bind; [apply pres_getCore|intros core]. apply tr_log.
Qed.

End Trace.

Lemma prims_steps e e' : rtc prim e e' → rtc step e e'.
Proof.
  induction 1 as [|e1 e2 e3 Hp _ IH]; [done|].
  eapply rtc_l; [by apply step_prim|done].
Qed.

Lemma steps_writes e e' : rtc step e e' → rtc write e e'.
Proof.
  induction 1 as [|e1 e2 e3 Hp _ IH]; [done|].
  eapply rtc_l; [by left|done].
Qed.

(** A computation made of writes of the kind [R] keeps what these keep. *)
Lemma traced_pres {A} (R : relation SimulationEngine) (m : M A)
    (I : SimulationEngine → Prop) :
  (∀ e1, pres (rtc R e1) m) →
  (∀ e e', I e → R e e' → I e') →
  pres I m.
Proof.
  intros Hm HI e He.
  assert (∀ e1 e', I e1 → rtc R e1 e' → I e') as Hrtc.
  { intros e1 e' H1 Hr. induction Hr as [|e1 e2 e3 Hp _ IH]; [done|].
    apply IH. by eapply HI. }
  specialize (Hm e e (rtc_refl _ _)).
  eapply wp_mono; [exact Hm|..]; simpl; eauto.
Qed.

Lemma pres_prims_steps {A} (m : M A) :
  (∀ e1, pres (rtc prim e1) m) → ∀ e0, pres (rtc step e0) m.
Proof.
  intros Hm e0. apply (traced_pres prim); [done|].
  intros e e' He Hp. eapply rtc_r; [exact He|by apply step_prim].
Qed.

Lemma pres_prims_writes {A} (m : M A) :
  (∀ e1, pres (rtc prim e1) m) → ∀ e0, pres (rtc write e0) m.
Proof.
  intros Hm e0. apply (traced_pres prim); [done|].
  intros e e' He Hp. eapply rtc_r; [exact He|]. left. by apply step_prim.
Qed.

Section Steps.

Variable e0 : SimulationEngine.

Let J (e : SimulationEngine) : Prop := rtc step e0 e.

Lemma J_step e e' : J e → step e e' → J e'.
Proof. intros H Hp. by eapply rtc_r. Qed.

Lemma st_fireTimer : pres J fireTimer.
Proof.
  intros e H. unfold fireTimer. apply wp_bind, wp_gets.
  destruct (timers e) as [|r rest] eqn:Hts; [done|].
  apply wp_bind, wp_modify.
  match goal with |- wp _ _ _ ?e1 => assert (J e1) as H1 end.
  { eapply J_step; [exact H|]. by apply (step_timer _ r rest). }
  unfold timeoutCallback. apply wp_bind, wp_deref; [|done].
  intros th _. case_decide; [|done].
  by apply (pres_prims_steps _ (λ e1, tr_moveToReady e1 r)).
Qed.

Lemma st_addSemaphore k v : pres J (addSemaphore k v).
Proof.
  intros e H. unfold addSemaphore. apply wp_bind, wp_modify.
  apply (pres_prims_steps _ (λ e1, tr_log e1 _ _)).
  eapply J_step; [exact H|]. apply step_addSemaphore.
Qed.

Lemma st_addMonitor k : pres J (addMonitor k).
Proof.
  intros e H. unfold addMonitor. apply wp_bind, wp_modify.
  apply (pres_prims_steps _ (λ e1, tr_log e1 _ _)).
  eapply J_step; [exact H|]. apply step_addMonitor.
Qed.

End Steps.

Section Writes.

Variable e0 : SimulationEngine.

Let J (e : SimulationEngine) : Prop := rtc write e0 e.

Lemma J_ticking e e' : J e → ticking e e' → J e'.
Proof. intros H Hp. eapply rtc_r; [exact H|by right]. Qed.

Lemma wr_runCore i : pres J (runCore i).
Proof.
  intros e H. rewrite runCore_split.
  apply wp_bind, wp_getCore; [|done]. intros c Hc.
  apply wp_bind, wp_modify.
  apply (pres_prims_writes _ (λ e1, tr_runThread e1 i)).
  eapply J_ticking; [exact H|]. by apply ticking_core.
Qed.

Lemma wr_tick : pres J tick.
Proof.
  intros e H. unfold tick. apply wp_bind, wp_modify.
  match goal with |- wp _ _ _ ?e1 => assert (J e1) as H1 end.
  { eapply J_ticking; [exact H|]. apply ticking_clock. }
  apply wp_bind, wp_gets.
  set (ts := threads _).
  apply wp_bind.
  pose (K := λ e', J e' ∧ threads e' = ts).
  eapply (wp_mono _ (λ _, K) _ K).
  { apply wp_forEach; [|done].
    intros r e2 Hr [H2 Hts]. apply wp_update; [|done].
    intros th Hth. split; [|done].
    eapply J_ticking; [exact H2|]. apply ticking_thread; [|done].
    by rewrite Hts. }
  2: by intros ? [? _].
  intros _ e2 [H2 _]. clear K.
  apply wp_bind, wp_gets.
  apply wp_call; [|done|].
  { apply pres_forEach. intros i. apply wr_runCore. }
  intros _ e3 H3. apply wp_call; [|done|].
  { apply (pres_prims_writes _ tr_manyToOne). }
  intros _ e4 H4.
  enough (pres J (forEach (seq 0 (length (cpuCores e2))) dispatchCore)) as Ht
    by (by apply Ht).
  apply pres_forEach. intros i.
  apply (pres_prims_writes _ (λ e1, tr_dispatchCore e1 i)).
Qed.

End Writes.

(** The state after a call other than [tick] is reached from the state
    before it by writes that are not those of [tick]. *)
Lemma run_steps o e : o ≠ OpTick → rtc step e (final (run o e)).
Proof.
  intros Ho. destruct o as [n a q m|name priority instructions|k v|k| |].
  - apply rtc_once. apply step_initialize.
  - apply rtc_once. apply step_addThread.
  - by apply (pres_final _ _ _ (st_addSemaphore e k v)).
  - by apply (pres_final _ _ _ (st_addMonitor e k)).
  - done.
  - by apply (pres_final _ _ _ (st_fireTimer e)).
Qed.

Lemma run_writes o e : rtc write e (final (run o e)).
Proof.
  destruct o; try (by apply steps_writes, run_steps).
  by apply (pres_final _ _ _ (wr_tick e)).
Qed.

Lemma reachable_visited e : reachable e → visited e.
Proof.
  induction 1 as [|o e _ IH]; [apply rtc_refl|].
  unfold visited. etrans; [exact IH|apply run_writes].
Qed.

(** A property of the new engine that every write keeps holds of every state
    the engine is ever in. *)
Lemma visited_ind (I : SimulationEngine → Prop) :
  I newEngine →
  (∀ e e', visited e → I e → write e e' → I e') →
  ∀ e, visited e → I e.
Proof.
  intros Hnew Hstep e He.
  apply (rtc_ind_r (R := write) (λ e, I e) newEngine); [done| |done].
  intros e1 e2 He1 Hs IH. by apply (Hstep e1 e2).
Qed.

(** * The admission of a new thread, in full *)

Lemma engine_eq (e e' : SimulationEngine) :
  heap e = heap e' → nextId e = nextId e' → timers e = timers e' →
  threads e = threads e' → readyQueue e = readyQueue e' →
  blockedQueue e = blockedQueue e' →
  terminatedThreads e = terminatedThreads e' → cpuCores e = cpuCores e' →
  semaphores e = semaphores e' → monitors e = monitors e' →
  scheduler e = scheduler e' → clockTick e = clockTick e' →
  isRunning e = isRunning e' → threadingModel e = threadingModel e' →
  userThreadCount e = userThreadCount e' →
  kernelThreadCount e = kernelThreadCount e' → eventLog e = eventLog e' →
  e = e'.
Proof. destruct e, e'; simpl; intros; by subst. Qed.

Lemma set_heap_id e r th :
  heap e !! r = Some th →
  set_kernelThreadCount (λ _, kernelThreadCount e)
    (set_heap (λ h, <[r := Thread.set_kernelThreadId (Thread.kernelThreadId th) th]> h) e)
  = e.
Proof.
  intros Hth. destruct e; simpl in *. unfold set_kernelThreadCount, set_heap; simpl.
  f_equal. replace (Thread.set_kernelThreadId _ th) with th by (by destruct th).
  by apply list_insert_id.
Qed.

Lemma mapThreadToKernel_spec thread th e :
  heap e !! thread = Some th →
  ∃ kid kc,
    mapThreadToKernel thread e
      = Ok () (set_kernelThreadCount (λ _, kc)
                 (set_heap (λ h, <[thread := Thread.set_kernelThreadId kid th]> h) e)) ∧
    kernel_mapping (threadingModel e) (userThreadCount e)
      (length (cpuCores e)) (kernelThreadCount e)
      (Thread.kernelThreadId th) kid kc.
Proof.
  intros Hth. unfold mapThreadToKernel, kernel_mapping.
  erewrite bind_eq by reflexivity.
  destruct (decide (threadingModel e = "one-to-one")) as [H1|H1].
  { erewrite bind_eq by reflexivity. erewrite bind_eq by reflexivity.
    erewrite update_eq by exact Hth.
    eexists _, _. split; [reflexivity|]. rewrite H1. naive_solver. }
  destruct (decide (threadingModel e = "many-to-one")) as [H2|H2].
  { erewrite bind_eq by reflexivity. unfold when.
    exists (Some 1), (if bool_decide (kernelThreadCount e = 0) then 1
                      else kernelThreadCount e).
    split; [|rewrite H2; naive_solver].
    case_bool_decide.
    - erewrite bind_eq by reflexivity. by erewrite update_eq by exact Hth.
    - erewrite bind_eq by reflexivity. by erewrite update_eq by exact Hth. }
  destruct (decide (threadingModel e = "many-to-many")) as [H3|H3].
  { erewrite bind_eq by reflexivity. erewrite bind_eq by reflexivity.
    destruct (decide (length (cpuCores e) = 0%nat)) as [Hn|Hn].
    - exists None, (kernelThreadCount e). split.
      + by erewrite update_eq by exact Hth.
      + rewrite H3. repeat split; try done;
          rewrite ?decide_True by done; done.
    - set (kid := userThreadCount e `mod` Z.of_nat (length (cpuCores e)) + 1).
      exists (Some kid), (Z.max (kernelThreadCount e) kid). split.
      + erewrite bind_eq by (by apply update_eq).
        erewrite bind_eq by reflexivity. unfold when. simpl.
        case_bool_decide.
        * rewrite Z.max_r by lia. done.
        * rewrite Z.max_l by lia. done.
      + rewrite H3. repeat split; try done;
          rewrite ?decide_False by done; done. }
  exists (Thread.kernelThreadId th), (kernelThreadCount e).
  split; [by rewrite set_heap_id|]. naive_solver.
Qed.

Lemma addThread_spec (e : SimulationEngine) name priority instructions :
  ∃ kid kc msg,
    run (OpAddThread name priority instructions) e
    = Ok ()
        {| heap := heap e ++
             [Thread.setState NEW
                (Thread.set_kernelThreadId kid
                   (Thread.set_arrivalTime (clockTick e)
                      (Thread.make (nextId e) name priority instructions)))];
           nextId := nextId e + 1;
           timers := timers e ++ [length (heap e)];
           threads := threads e ++ [length (heap e)];
           readyQueue := readyQueue e;
           blockedQueue := blockedQueue e;
           terminatedThreads := terminatedThreads e;
           cpuCores := cpuCores e;
           semaphores := semaphores e;
           monitors := monitors e;
           scheduler := scheduler e;
           clockTick := clockTick e;
           isRunning := isRunning e;
           threadingModel := threadingModel e;
           userThreadCount := userThreadCount e + 1;
           kernelThreadCount := kc;
           eventLog := eventLog e ++
             [{| tick_ := clockTick e; message := msg; level := "success" |}] |} ∧
    kernel_mapping (threadingModel e) (userThreadCount e + 1)
      (length (cpuCores e)) (kernelThreadCount e) None kid kc.
Proof.
  unfold run, newThread, addThread.
  erewrite bind_eq by reflexivity.
  erewrite bind_eq by reflexivity.
  erewrite bind_eq; cycle 1.
  { apply update_eq. simpl. apply lookup_snoc_length. }
  do 2 (erewrite bind_eq by reflexivity).
  set (th0 := Thread.set_arrivalTime _ _).
  set (e1 := set_userThreadCount _ _).
  assert (heap e1 !! length (heap e) = Some th0) as Hth0.
  { subst e1. simpl. rewrite insert_snoc_length. apply lookup_snoc_length. }
  destruct (mapThreadToKernel_spec _ th0 e1 Hth0) as (kid & kc & Hmap & Hk).
  erewrite bind_eq by exact Hmap. subst e1.
  erewrite bind_eq; cycle 1.
  { apply update_eq. simpl. rewrite !insert_snoc_length. apply lookup_snoc_length. }
  erewrite bind_eq; cycle 1.
  { apply deref_eq. simpl. rewrite !insert_snoc_length. apply lookup_snoc_length. }
  erewrite bind_eq by reflexivity.
  eexists kid, kc, _. split; [|exact Hk].
  unfold modify. f_equal. apply engine_eq; try reflexivity.
  cbn [heap set_timers set_eventLog set_heap set_kernelThreadCount
       set_userThreadCount set_threads set_nextId].
  by rewrite !insert_snoc_length.
Qed.

Lemma initialize_eq n a q m e :
  initialize n a q m e
  = Ok ()
      {| heap := heap e; nextId := 1; timers := timers e;
         threads := []; readyQueue := []; blockedQueue := [];
         terminatedThreads := [];
         cpuCores := (λ i, CPUCore.make (Z.of_nat i)) <$> seq 0 n;
         semaphores := ∅; monitors := ∅;
         scheduler := {| Scheduler.algorithm := a; Scheduler.timeQuantum := q |};
         clockTick := 0; isRunning := false; threadingModel := m;
         userThreadCount := 0; kernelThreadCount := 0;
         eventLog := [{| tick_ := 0;
                         message := "Initialized with " +:+ pretty n +:+ " cores, "
                                    +:+ a +:+ " scheduling, " +:+ m +:+ " model";
                         level := "info" |}] |}.
Proof. reflexivity. Qed.

(** * Properties that every write keeps *)

(** The cases of a write [Hw : write e e'], with the two calls that count
    as one write replaced by the state they end in. *)
Ltac write_cases e Hw :=
  let Hs := fresh "Hs" in
  let Hp := fresh "Hp" in
  let Ht := fresh "Ht" in
  destruct Hw as [Hs|Ht];
  [ destruct Hs as [? Hp|n a q m|name priority instructions|r rest Hts|k v|k];
    [ destruct Hp
    | rewrite initialize_eq; cbn [final]
    | let kid := fresh "kid" in
      let kc := fresh "kc" in
      let msg := fresh "msg" in
      let Heq := fresh "Heq" in
      let Hk := fresh "Hk" in
      destruct (addThread_spec e name priority instructions)
        as (kid & kc & msg & Heq & Hk);
      rewrite Heq; cbn [final]; clear Heq
    | | | ]
  | destruct Ht ].

(** ** Cores *)

Lemma visited_cores_consistent e :
  visited e →
  ∀ c, c ∈ cpuCores e →
    CPUCore.isIdle c = true ↔ CPUCore.currentThread c = None.
Proof.
  apply (visited_ind (λ e, ∀ c, c ∈ cpuCores e →
    CPUCore.isIdle c = true ↔ CPUCore.currentThread c = None)).
  { intros c Hc. by apply elem_of_nil in Hc. }
  clear e. intros e e' _ HI Hw.
  assert (∀ i c', (CPUCore.isIdle c' = true ↔ CPUCore.currentThread c' = None) →
            ∀ c, c ∈ <[i := c']> (cpuCores e) →
              CPUCore.isIdle c = true ↔ CPUCore.currentThread c = None) as Hins.
  { intros i c' Hc' c [->|Hc]%list_elem_of_insert_inv; [done|by apply HI]. }
  write_cases e Hw; try exact HI.
  - apply Hins. done.
  - apply Hins. done.
  - apply Hins. simpl. split; [intros _|done].
    apply HI; [by eapply list_elem_of_lookup_2|done].
  - intros c [i [-> _]]%list_elem_of_fmap. done.
  - apply Hins.
    match goal with H : cpuCores e !! _ = Some c |- _ =>
      pose proof (HI c (list_elem_of_lookup_2 _ _ _ H)) as Hcc end.
    unfold CPUCore.tick.
    destruct (CPUCore.isIdle c) eqn:Hidle; simpl; [rewrite Hidle|]; exact Hcc.
Qed.

(** ** The blocked queue *)

Lemma visited_blocked_NoDup e : visited e → NoDup (blockedQueue e).
Proof.
  apply (visited_ind (λ e, NoDup (blockedQueue e))); [constructor|].
  clear e. intros e e' _ HI Hw.
  write_cases e Hw; try exact HI.
  - simpl. apply NoDup_app. split; [done|]. split; [|apply NoDup_singleton].
    intros x Hx ->%list_elem_of_singleton. done.
  - simpl. destruct (list_find _ _) as [[i ?]|]; [|done].
    eapply sublist_NoDup; [done|apply sublist_delete].
  - constructor.
Qed.

(** ** The event log *)

Lemma log_inv_snoc (l : list LogEntry) (c : Z) entry :
  0 ≤ c →
  (∀ a, a ∈ l → 0 ≤ tick_ a ≤ c) →
  (∀ i j a b, (i ≤ j)%nat → l !! i = Some a → l !! j = Some b →
     tick_ a ≤ tick_ b) →
  tick_ entry = c →
  (∀ a, a ∈ l ++ [entry] → 0 ≤ tick_ a ≤ c) ∧
  (∀ i j a b, (i ≤ j)%nat → (l ++ [entry]) !! i = Some a →
     (l ++ [entry]) !! j = Some b → tick_ a ≤ tick_ b).
Proof.
  intros Hc Hb Hs He. split.
  - intros a [Ha| ->%list_elem_of_singleton]%elem_of_app; [by apply Hb|lia].
  - intros i j a b Hij Hi Hj.
    apply lookup_snoc_Some in Hi as [[Hi1 Hi2]|[Hi1 <-]];
      apply lookup_snoc_Some in Hj as [[Hj1 Hj2]|[Hj1 <-]].
    + by apply (Hs i j a b).
    + rewrite He. apply Hb. by eapply list_elem_of_lookup_2.
    + lia.
    + lia.
Qed.

Lemma visited_log_inv e : visited e → log_inv e.
Proof.
  apply (visited_ind log_inv).
  { split; [done|]. split; [intros a Ha; by apply elem_of_nil in Ha|].
    intros i j a b _ Hi. done. }
  clear e. intros e e' _ HI Hw.
  destruct HI as (Hc & Hb & Hs).
  write_cases e Hw; try (by split).
  - split; [done|]. by apply log_inv_snoc.
  - split; [done|]. split.
    + intros x ->%list_elem_of_singleton. done.
    + intros [|i] [|j] x y Hij Hi Hj; simplify_eq/=; done.
  - split; [done|]. by apply log_inv_snoc.
  - split; [simpl; lia|]. split; [|done].
    intros x Hx. specialize (Hb x Hx). simpl. lia.
Qed.

(** ** Monitors and semaphores *)

Lemma mon_ok_enter r m : mon_ok m → mon_ok (Monitor.enter r m).2.
Proof.
  unfold mon_ok, Monitor.enter. destruct (Monitor.owner m) eqn:Ho; naive_solver.
Qed.

Lemma mon_ok_exit m : mon_ok m → mon_ok (Monitor.exit m).2.
Proof.
  unfold mon_ok, Monitor.exit.
  destruct (Monitor.conditionQueue m); [|done].
  destruct (Monitor.entryQueue m); done.
Qed.

Lemma mon_ok_wait r m : mon_ok m → mon_ok (Monitor.wait r m).2.
Proof.
  unfold mon_ok, Monitor.wait. case_decide; [|done].
  destruct (Monitor.entryQueue m); simpl; done.
Qed.

Lemma mon_ok_signal m : mon_ok m → mon_ok (Monitor.signal m).2.
Proof.
  unfold mon_ok, Monitor.signal. by destruct (Monitor.conditionQueue m).
Qed.

Lemma sem_ok_wait r s : sem_ok s → sem_ok (Semaphore.wait r s).2.
Proof.
  unfold sem_ok, Semaphore.wait. case_bool_decide; simpl; [|lia].
  rewrite length_app. simpl. lia.
Qed.

Lemma sem_ok_signal s : sem_ok s → sem_ok (Semaphore.signal s).2.
Proof.
  unfold sem_ok, Semaphore.signal.
  destruct (Semaphore.waitQueue s); simpl; lia.
Qed.

Lemma visited_monitors_ok e :
  visited e → ∀ k m, monitors e !! k = Some m → mon_ok m.
Proof.
  apply (visited_ind (λ e, ∀ k m, monitors e !! k = Some m → mon_ok m)); [done|].
  clear e. intros e e' _ HI Hw.
  assert (∀ k0 m', mon_ok m' →
            ∀ k m, <[k0 := m']> (monitors e) !! k = Some m → mon_ok m) as Hins.
  { intros k0 m' Hm' k m [[_ <-]|[_ Hm]]%lookup_insert_Some; [done|].
    by eapply HI. }
  write_cases e Hw; try exact HI; try done; apply Hins.
  - apply mon_ok_enter. by eapply HI.
  - apply mon_ok_exit. by eapply HI.
  - apply mon_ok_wait. by eapply HI.
  - apply mon_ok_signal. by eapply HI.
  - done.
Qed.

Lemma visited_semaphores_ok e :
  visited e → ∀ k s, semaphores e !! k = Some s → sem_ok s.
Proof.
  apply (visited_ind (λ e, ∀ k s, semaphores e !! k = Some s → sem_ok s)); [done|].
  clear e. intros e e' _ HI Hw.
  assert (∀ k0 s', sem_ok s' →
            ∀ k s, <[k0 := s']> (semaphores e) !! k = Some s → sem_ok s) as Hins.
  { intros k0 s' Hs' k s [[_ <-]|[_ Hs]]%lookup_insert_Some; [done|].
    by eapply HI. }
  write_cases e Hw; try exact HI; try done; apply Hins.
  - apply sem_ok_wait. by eapply HI.
  - apply sem_ok_signal. by eapply HI.
  - unfold sem_ok. simpl. lia.
Qed.

(** * Admission: ids, counters and kernel threads *)

Lemma same_identity_refl th : same_identity th th.
Proof. by repeat split. Qed.

Lemma same_identity_execute th : same_identity th (Thread.execute th).2.
Proof.
  unfold Thread.execute. destruct (_ !! _); [|apply same_identity_refl].
  by repeat split.
Qed.

(** A write leaves every thread object of the store in place, with the
    fields of its identity as they were. *)
Lemma write_identity e e' :
  write e e' →
  ∀ r th, heap e !! r = Some th →
    ∃ th', heap e' !! r = Some th' ∧ same_identity th th'.
Proof.
  intros Hw.
  assert (∀ r0 th0 th0', heap e !! r0 = Some th0 → same_identity th0 th0' →
            ∀ r th, heap e !! r = Some th →
              ∃ th', <[r0 := th0']> (heap e) !! r = Some th' ∧
                     same_identity th th') as Hins.
  { intros r0 th0 th0' H0 Hid r th Hr. destruct (decide (r = r0)) as [->|Hne].
    - exists th0'. split; [by eapply lookup_insert_same|]. congruence.
    - exists th. rewrite list_lookup_insert_ne by done.
      split; [done|apply same_identity_refl]. }
  assert (∀ r th, heap e !! r = Some th →
            ∃ th', heap e !! r = Some th' ∧ same_identity th th') as Hsame.
  { intros r th Hr. exists th. split; [done|apply same_identity_refl]. }
  write_cases e Hw; try exact Hsame;
    try (eapply Hins; [eassumption|]; by repeat split).
  - eapply Hins; [eassumption|]. apply same_identity_execute.
  - intros r0 th Hr. exists th.
    split; [by apply lookup_app_l_Some|apply same_identity_refl].
Qed.

Lemma prim_same_admission e e' : prim e e' → same_admission e e'.
Proof.
  destruct 1; unfold same_admission; simpl; rewrite ?length_insert; done.
Qed.

Lemma write_admission e e' :
  write e e' →
  (∃ n a q m, e' = final (initialize n a q m e)) ∨
  (∃ name priority instructions,
     e' = final (run (OpAddThread name priority instructions) e)) ∨
  same_admission e e'.
Proof.
  intros Hw.
  destruct Hw as [Hs|Ht];
    [destruct Hs as [? Hp|n a q m|name priority instructions|r rest Hts|k v|k];
       [destruct Hp|..]
    |destruct Ht];
    try (right; right; unfold same_admission; simpl;
         rewrite ?length_insert; done).
  - left. by exists n, a, q, m.
  - right. left. by exists name, priority, instructions.
Qed.

Lemma visited_admitted e : visited e → admitted e.
Proof.
  apply (visited_ind admitted).
  { repeat split; [constructor|]. intros k r Hk. done. }
  clear e. intros e e' _ (Hu & Hn & Hnd & Hid) Hw.
  pose proof (write_identity e e' Hw) as Hident.
  destruct (write_admission e e' Hw)
    as [(n & a & q & m & ->)|[(name & priority & instructions & ->)|Hsame]].
  - rewrite initialize_eq. repeat split; [constructor|]. intros k r Hk. done.
  - clear Hident Hw.
    destruct (addThread_spec e name priority instructions)
      as (kid & kc & msg & -> & Hk). cbn [final].
    assert (∀ r, r ∈ threads e → (r < length (heap e))%nat) as Halloc.
    { intros r [k Hr]%list_elem_of_lookup_1.
      destruct (Hid k r Hr) as (th & Hth & _). by eapply lookup_lt_Some. }
    unfold admitted. cbn [userThreadCount threads nextId heap].
    rewrite length_app. simpl.
    split; [lia|]. split; [lia|]. split.
    + apply NoDup_app. split; [done|]. split; [|apply NoDup_singleton].
      intros x Hx ->%list_elem_of_singleton. apply Halloc in Hx. lia.
    + intros k r [[Hk1 Hk2]|[Hk1 <-]]%lookup_snoc_Some.
      * destruct (Hid k r Hk2) as (th & Hth & Hidk). exists th.
        split; [by apply lookup_app_l_Some|done].
      * eexists. split; [apply lookup_snoc_length|]. simpl. lia.
  - destruct Hsame as (Hts & Hnx & Hus & _).
    unfold admitted. rewrite Hts, Hnx, Hus.
    repeat split; try done.
    intros k r Hr. destruct (Hid k r Hr) as (th & Hth & Hidk).
    destruct (Hident r th Hth) as (th' & Hth' & Hi).
    exists th'. split; [done|]. destruct Hi as (-> & _). done.
Qed.

Lemma visited_threads_allocated e :
  visited e → ∀ r, r ∈ threads e → (r < length (heap e))%nat.
Proof.
  intros (_ & _ & _ & Hid)%visited_admitted r [k Hr]%list_elem_of_lookup_1.
  destruct (Hid k r Hr) as (th & Hth & _). by eapply lookup_lt_Some.
Qed.

Lemma kernelCountOf_next model n len k kid kc :
  k = kernelCountOf model n len →
  kernel_mapping model (Z.of_nat len + 1) n k None kid kc →
  kc = kernelCountOf model n (S len) ∧ kid = kernelThreadOf model n len.
Proof.
  intros -> (H1 & H2 & H3 & H4). unfold kernelCountOf, kernelThreadOf in *.
  destruct (decide (model = "one-to-one")) as [E1|E1].
  { destruct (H1 E1) as [-> ->]. split; [lia|done]. }
  destruct (decide (model = "many-to-one")) as [E2|E2].
  { destruct (H2 E2) as [-> ->]. split; [|done]. case_bool_decide; lia. }
  destruct (decide (model = "many-to-many")) as [E3|E3].
  { specialize (H3 E3). destruct (decide (n = 0%nat)) as [Hn|Hn].
    - destruct H3 as [-> ->]. by rewrite !decide_True by tauto.
    - destruct H3 as [-> ->]. split; [|done].
      rewrite (decide_False (P := n = 0%nat ∨ S len = 0%nat)) by lia.
      pose proof (Z.mod_pos_bound (Z.of_nat len + 1) (Z.of_nat n)).
      destruct (decide (Z.of_nat len + 1 < Z.of_nat n)).
      + rewrite Z.mod_small by lia. case_decide; lia.
      + case_decide; lia. }
  destruct (H4 E1 E2 E3) as [-> ->]. done.
Qed.

Lemma visited_kernel_ok e : visited e → kernel_ok e.
Proof.
  apply (visited_ind kernel_ok).
  { split; [done|]. intros k r th Hk. done. }
  clear e. intros e e' He IH Hw.
  pose proof (visited_admitted e He) as (Hu & Hn & Hnd & Hid).
  pose proof (write_identity e e' Hw) as Hident.
  destruct IH as [Hc Hkid].
  destruct (write_admission e e' Hw)
    as [(n & a & q & m & ->)|[(name & priority & instructions & ->)|Hsame]].
  - rewrite initialize_eq. split.
    + cbn [final kernelThreadCount threads]. unfold kernelCountOf.
      repeat case_decide; try done; naive_solver.
    + intros k r th Hk. done.
  - clear Hident Hw.
    destruct (addThread_spec e name priority instructions)
      as (kid & kc & msg & -> & Hk). cbn [final].
    rewrite Hu in Hk.
    destruct (kernelCountOf_next _ _ _ _ _ _ Hc Hk) as [-> ->].
    unfold kernel_ok.
    cbn [kernelThreadCount threads heap threadingModel cpuCores].
    split; [by rewrite length_app, Nat.add_1_r|].
    intros k r th [[Hk1 Hk2]|[Hk1 <-]]%lookup_snoc_Some Hth.
    + destruct (Hid k r Hk2) as (th0 & Hth0 & _).
      rewrite (lookup_app_l_Some _ _ _ _ Hth0) in Hth. simplify_eq.
      by eapply Hkid.
    + rewrite lookup_snoc_length in Hth. by simplify_eq.
  - destruct Hsame as (Hts & _ & _ & Hkc & Hm & _ & Hcs & _).
    unfold kernel_ok. rewrite Hts, Hkc, Hm, Hcs. split; [done|].
    intros k r th' Hr Hth'.
    destruct (Hid k r Hr) as (th & Hth & _).
    destruct (Hident r th Hth) as (th'' & Hth'' & Hi). simplify_eq.
    destruct Hi as (_ & _ & _ & _ & _ & _ & ->). by eapply Hkid.
Qed.

(** * Calls that return *)

Lemma wp_conj {A} (m : M A) (Q1 Q2 : A → SimulationEngine → Prop)
    (E1 E2 : SimulationEngine → Prop) e :
  wp m Q1 E1 e → wp m Q2 E2 e →
  wp m (λ a e', Q1 a e' ∧ Q2 a e') (λ e', E1 e' ∧ E2 e') e.
Proof. unfold wp. by destruct (m e). Qed.

Lemma returns_threw {A} (m : M A) e : returns m e ↔ threw (m e) = false.
Proof. unfold returns, wp, threw. destruct (m e); naive_solver. Qed.

Lemma total_returns {A} (m : M A) e :
  total (length (heap e)) m → returns m e.
Proof. intros Ht. eapply wp_mono; [by apply Ht|..]; done. Qed.

(** A computation that keeps [I] and returns from every state with [I]. *)
Lemma wp_keeps_returns {A} (I : SimulationEngine → Prop) (m : M A) e :
  pres I m → I e → returns m e → wp m (λ _, I) (λ _, False) e.
Proof.
  intros Hm He Hr. eapply wp_mono; [apply (wp_conj _ _ _ _ _ _ (Hm e He) Hr)|..];
    simpl; tauto.
Qed.

Lemma total_moveToTerminated n r : (r < n)%nat → total n (moveToTerminated r).
Proof.
  intros Hr. unfold moveToTerminated.
  apply total_bind; [by apply total_update|intros _].
  apply total_bind; [apply total_gets|intros c].
  apply total_bind; [by apply total_update|intros _].
  apply total_bind; [intros ? H; apply wp_modify; exact H|intros _].
  apply total_bind; [by apply total_deref|intros ?]. apply total_log.
Qed.

Lemma selectNextThread_total s (h : list Thread.t) (rq : list nat) :
  (∀ r, r ∈ rq → (r < length h)%nat) →
  ∃ sel rq', Scheduler.selectNextThread s h rq = Some (sel, rq').
Proof.
  intros Hall. unfold Scheduler.selectNextThread.
  destruct rq as [|head rest] eqn:Hrq; [by eexists _, _|].
  repeat case_decide; try (by eexists _, _).
  rewrite <- Hrq in *.
  destruct (highestPriorityIndex_first_max h rq) as (hi & -> & _).
  - intros j Hj. destruct (lookup_lt_is_Some_2 rq j Hj) as [r Hr].
    unfold Scheduler.priorityAt. rewrite Hr. simpl.
    assert (r < length h)%nat as Hlt
      by (apply Hall; by eapply list_elem_of_lookup_2).
    destruct (lookup_lt_is_Some_2 h r Hlt) as [th ->]. by eexists.
  - by rewrite Hrq.
  - simpl. by eexists _, _.
Qed.

Lemma places_core e i c x :
  cpuCores e !! i = Some c → CPUCore.currentThread c = Some x → x ∈ places e.
Proof.
  intros Hc Hx.
  assert (x ∈ coresM (cpuCores e)) as Hin.
  { apply elem_of_coresM. exists c. split; [by eapply list_elem_of_lookup_2|done]. }
  unfold places. multiset_solver.
Qed.

Lemma places_ready e x : x ∈ readyQueue e → x ∈ places e.
Proof.
  intros Hx.
  assert (x ∈ (list_to_set_disj (readyQueue e) : gmultiset nat)) as Hin
    by (by apply elem_of_list_to_set_disj).
  unfold places. multiset_solver.
Qed.

Lemma executeInstruction_no_primitive x instruction e :
  semaphores e = ∅ → monitors e = ∅ →
  executeInstruction x instruction e = Ok () e.
Proof.
  intros Hs Hm. destruct (type instruction) eqn:Ht.
  { unfold executeInstruction. by rewrite Ht. }
  all: apply executeInstruction_unknown; unfold unknownResource;
    rewrite Ht, ?Hs, ?Hm; by destruct (resource instruction).
Qed.

Lemma returns_runThread i e :
  places_allocated e → (i < length (cpuCores e))%nat → quiet e →
  returns (runThread i) e.
Proof.
  intros Hall Hi Hq. unfold returns, runThread.
  apply wp_bind, wp_getCore; [|intros Hn%lookup_ge_None; lia].
  intros c Hc.
  destruct (CPUCore.isIdle c) eqn:Hidle; [done|].
  destruct (CPUCore.currentThread c) as [x|] eqn:Hcur; [|done].
  assert (x < length (heap e))%nat as Hx
    by (apply Hall; by eapply places_core).
  apply wp_bind. unfold execute. apply wp_bind, wp_deref;
    [|intros Hn%lookup_ge_None; lia].
  intros th Hth. destruct (Thread.execute th) as [result th'].
  apply wp_bind, wp_modify. apply wp_ret.
  set (e2 := set_heap _ e).
  assert (places_allocated e2) as Hall2.
  { intros r Hr. subst e2. simpl. rewrite length_insert. by apply Hall. }
  assert (x < length (heap e2))%nat as Hx2
    by (subst e2; simpl; by rewrite length_insert).
  apply wp_bind.
  eapply (wp_mono _ (λ _ e3, length (heap e3) = length (heap e2)
                             ∧ same_config e2 e3
                             ∧ (Scheduler.algorithm (scheduler e)
                                  ≠ "round-robin"
                                ∨ cpuCores e3 !! i = Some c))
                    _ (λ _, False)).
  { destruct Hq as [Hrr|[Hs Hm]].
    - eapply wp_mono.
      + apply wp_conj with
          (Q1 := λ _ e3, length (heap e3) = length (heap e2))
          (Q2 := λ _ e3, same_config e2 e3)
          (E1 := λ _, False) (E2 := λ _, True).
        * destruct result as [instruction|]; [|done].
          by apply total_executeInstruction.
        * assert (pres (same_config e2)
                    (match result with
                     | Some instruction => executeInstruction x instruction
                     | None => ret ()
                     end)) as Hp
            by (destruct result; [apply cfg_executeInstruction|apply pres_ret]).
          eapply wp_mono; [apply Hp, same_config_refl|done|done].
      + simpl. intros _ e3 [? ?]. split; [done|]. split; [done|by left].
      + simpl. tauto.
    - assert (match result with
              | Some instruction => executeInstruction x instruction
              | None => ret ()
              end e2 = Ok () e2) as Heq.
      { destruct result; [|done].
        by apply executeInstruction_no_primitive. }
      unfold wp. rewrite Heq. split; [done|].
      split; [apply same_config_refl|]. by right. }
  2: done.
  intros _ e3 (Hlen & (Hsched & _ & _ & _ & _ & Hcs) & Hq3).
  apply wp_bind, wp_deref; [|intros Hn%lookup_ge_None; lia].
  intros th3 Hth3. apply wp_bind, wp_gets.
  assert (i < length (cpuCores e3))%nat as Hi3
    by (rewrite Hcs; subst e2; simpl; lia).
  destruct (_ || _).
  - apply wp_bind. unfold releaseThread.
    apply wp_bind, wp_getCore; [|intros Hn%lookup_ge_None; lia].
    intros c3 _. simpl. apply wp_bind, wp_modify. apply wp_ret.
    apply total_returns. apply total_moveToTerminated. simpl. lia.
  - destruct (Scheduler.shouldPreempt _ _) eqn:Hpre; [|done].
    destruct Hq3 as [Hrr|Hc3].
    { unfold Scheduler.shouldPreempt in Hpre.
      rewrite decide_False in Hpre; [done|]. rewrite Hsched. by subst e2. }
    apply wp_bind. unfold releaseThread.
    apply wp_bind, wp_getCore; [|intros Hn%lookup_ge_None; lia].
    intros c3 Hc3'. assert (c3 = c) as -> by congruence.
    simpl. apply wp_bind, wp_modify. apply wp_ret. rewrite Hcur.
    apply total_returns. simpl.
    assert (x < length (heap e3))%nat as Hx3 by lia.
    apply total_bind; [by apply total_update|intros _].
    apply total_bind; [by apply total_moveToReady|intros _].
    apply total_bind; [by apply total_threadName|intros ?].
    apply total_log.
Qed.

Lemma returns_runCore i e :
  places_allocated e → (i < length (cpuCores e))%nat → quiet e →
  returns (runCore i) e.
Proof.
  intros Hall Hi Hrr. unfold returns. rewrite runCore_split.
  apply wp_bind, wp_getCore; [|intros Hn%lookup_ge_None; lia].
  intros c Hc. apply wp_bind, wp_modify.
  apply returns_runThread; [|simpl; by rewrite length_insert|done].
  intros r Hr. simpl. apply Hall.
  rewrite (places_set_core_same e i c (CPUCore.tick c) Hc) in Hr; [done|].
  unfold CPUCore.tick. by destruct (CPUCore.isIdle c).
Qed.

Lemma returns_manyToOne e : returns manyToOne e.
Proof.
  unfold returns, manyToOne. apply wp_bind, wp_gets.
  case_decide; [|done].
  apply wp_bind, wp_gets. apply wp_when; [intros _|done].
  eapply (wp_mono _ (λ _ e', length (cpuCores e') = length (cpuCores e))
                   _ (λ _, False)).
  { apply (wp_forEach (λ e', length (cpuCores e') = length (cpuCores e)));
      [|done].
    intros i e1 Hi%subseteq_drop H1.
    apply elem_of_availableCores in Hi as (c & Hc & _).
    apply wp_bind, wp_getCore.
    - intros c1 _. apply wp_modify. simpl. by rewrite length_insert.
    - intros Hn%lookup_ge_None. apply lookup_lt_Some in Hc. lia. }
  all: done.
Qed.

Lemma returns_dispatchCore i e :
  places_allocated e → (i < length (cpuCores e))%nat →
  returns (dispatchCore i) e.
Proof.
  intros Hall Hi. unfold returns, dispatchCore.
  apply wp_bind, wp_getCore; [|intros Hn%lookup_ge_None; lia].
  intros c Hc. apply wp_bind, wp_gets.
  destruct (_ && _); [|done].
  apply wp_bind, wp_gets. apply wp_bind, wp_gets.
  destruct (selectNextThread_total (scheduler e) (heap e) (readyQueue e))
    as (sel & rq' & Hsel).
  { intros r Hr. by apply Hall, places_ready. }
  rewrite Hsel. apply wp_bind, wp_modify.
  destruct sel as [x|]; [|done].
  assert (x < length (heap e))%nat as Hx.
  { apply Hall, places_ready.
    by apply (proj1 (selectNextThread_sub _ _ _ _ _ Hsel)). }
  assert (∀ (l : list Thread.t) k, (k < length l)%nat → l !! k = None → False)
    as Hheap by (intros l k Hk Hn%lookup_ge_None; lia).
  assert (∀ (l : list CPUCore.t) k, (k < length l)%nat → l !! k = None → False)
    as Hcore by (intros l k Hk Hn%lookup_ge_None; lia).
  apply wp_bind, wp_update; [|by apply Hheap]. intros th Hth.
  apply wp_bind. unfold assignThread.
  apply wp_bind, wp_getCore; [|by apply Hcore]. intros c1 _.
  apply wp_bind, wp_modify.
  apply wp_update; [|apply Hheap; simpl; by rewrite length_insert].
  intros th1 _.
  apply wp_bind. unfold threadName.
  apply wp_bind, wp_deref;
    [|apply Hheap; simpl; by rewrite !length_insert].
  intros th2 _. apply wp_ret.
  apply wp_bind, wp_getCore; [|apply Hcore; simpl; by rewrite length_insert].
  intros c2 _. by apply wp_modify.
Qed.

Lemma places_timer e x : x ∈ timers e → x ∈ places e.
Proof.
  intros Hx.
  assert (x ∈ (list_to_set_disj (timers e) : gmultiset nat)) as Hin
    by (by apply elem_of_list_to_set_disj).
  unfold places. multiset_solver.
Qed.

Lemma quiet_prim e e' : quiet e → prim e e' → quiet e'.
Proof.
  intros Hq Hp. destruct Hq as [Hrr|[Hs Hm]].
  - left. by destruct Hp.
  - right. destruct Hp; try done;
      match goal with
      | H : _ !! _ = Some _ |- _ =>
          rewrite ?Hs, ?Hm in H; by rewrite lookup_empty in H
      end.
Qed.

Lemma quiet_ticking e e' : quiet e → ticking e e' → quiet e'.
Proof. intros Hq Hp. by destruct Hp. Qed.

Lemma returns_tick e : reachable e → quiet e → returns tick e.
Proof.
  intros He Hq.
  pose proof (reachable_places_allocated e He) as Hall.
  pose proof (visited_threads_allocated e (reachable_visited e He)) as Hts.
  pose (J := λ e', since e e' ∧ quiet e').
  assert (∀ e', since e e' →
            places_allocated e' ∧
            length (cpuCores e') = length (cpuCores e) ∧
            threads e' = threads e ∧
            (length (heap e) ≤ length (heap e'))%nat) as Hsince.
  { intros e' Hs. split; [by eapply since_places_allocated|].
    destruct Hs as ((_ & _ & _ & Hthreads & _ & Hcs) & _ & Hle).
    split; [done|]. split; [done|by apply heap_le_length]. }
  assert (∀ {A} (m : M A) e',
            pres (since e) m → (∀ e1, pres (rtc prim e1) m) →
            J e' → returns m e' → wp m (λ _, J) (λ _, False) e') as Hpiece.
  { intros A m e' Hs Htr HJ Hr. apply wp_keeps_returns; [|done..].
    apply pres_and; [done|]. by apply (traced_pres prim), quiet_prim. }
  unfold returns, tick. apply wp_bind, wp_modify.
  set (e1 := set_clockTick _ e).
  assert (J e1) as H1.
  { split; [|eapply quiet_ticking; [exact Hq|apply ticking_clock]].
    split; [done|]. split; [done|apply heap_le_refl]. }
  apply wp_bind, wp_gets. apply wp_bind.
  eapply (wp_mono _ (λ _, J) _ (λ _, False)); [|clear H1|done].
  { apply wp_forEach; [|done]. intros r e' Hr [H' Hq'].
    destruct (Hsince e' H') as (_ & _ & Hts' & Hle).
    assert (r < length (heap e'))%nat as Hlt by (specialize (Hts r Hr); lia).
    eapply wp_mono.
    - apply wp_conj with (E1 := since e) (E2 := λ _, False).
      + by apply since_update_tick.
      + apply wp_update with (Q := λ _, quiet).
        * intros th Hth. eapply quiet_ticking; [exact Hq'|].
          apply ticking_thread; [by rewrite Hts'|done].
        * intros Hn%lookup_ge_None. lia.
    - done.
    - simpl. tauto. }
  intros _ e2 [H2 Hq2]. apply wp_bind, wp_gets.
  destruct (Hsince e2 H2) as (_ & Hn2 & _ & _).
  apply wp_bind.
  eapply (wp_mono _ (λ _, J) _ (λ _, False)); [|clear H2 Hq2|done].
  { apply wp_forEach; [|done]. intros i e' Hi%elem_of_seq [H' Hq'].
    destruct (Hsince e' H') as (Hall' & Hn' & _ & _).
    assert (i < length (cpuCores e'))%nat as Hi' by lia.
    eapply wp_mono.
    - apply wp_conj with (E1 := since e) (E2 := λ _, False).
      + by apply since_runCore.
      + rewrite runCore_split.
        apply wp_bind, wp_getCore; [|intros Hn%lookup_ge_None; lia].
        intros c Hc. apply wp_bind, wp_modify.
        set (ec := set_cpuCores _ e').
        assert (quiet ec) as Hq1
          by (eapply quiet_ticking; [exact Hq'|by apply ticking_core]).
        apply wp_keeps_returns with (I := quiet); [|done|].
        * apply (traced_pres prim); [intros; apply tr_runThread|].
          apply quiet_prim.
        * apply returns_runThread; [|subst ec; simpl; by rewrite length_insert
                                   |done].
          intros r Hr. subst ec. simpl. apply Hall'.
          rewrite (places_set_core_same e' i c (CPUCore.tick c) Hc) in Hr;
            [done|].
          unfold CPUCore.tick. by destruct (CPUCore.isIdle c).
    - done.
    - simpl. tauto. }
  intros _ e3 H3. apply wp_bind.
  eapply (wp_mono _ (λ _, J) _ (λ _, False)); [|clear H3|done].
  { apply Hpiece; [apply since_manyToOne|intros; apply tr_manyToOne|done|].
    apply returns_manyToOne. }
  intros _ e4 H4.
  eapply (wp_mono _ (λ _, J) _ (λ _, False)); [|done|done].
  apply wp_forEach; [|done]. intros i e' Hi%elem_of_seq [H' Hq'].
  destruct (Hsince e' H') as (Hall' & Hn' & _ & _).
  apply Hpiece; [apply since_dispatchCore|intros; apply tr_dispatchCore|done|].
  apply returns_dispatchCore; [done|lia].
Qed.

Lemma returns_run o e :
  reachable e → o ≠ OpTick ∨ quiet e → returns (run o) e.
Proof.
  intros He Ho. apply returns_threw.
  destruct o as [n a q m|name priority instructions|k v|k| |].
  - unfold run. by rewrite initialize_eq.
  - by destruct (addThread_spec e name priority instructions)
      as (kid & kc & msg & -> & _).
  - unfold run, addSemaphore. by erewrite bind_eq by reflexivity.
  - unfold run, addMonitor. by erewrite bind_eq by reflexivity.
  - apply returns_threw, returns_tick; [done|]. by destruct Ho.
  - unfold run, fireTimer. erewrite bind_eq by reflexivity.
    destruct (timers e) as [|r rest] eqn:Hts; [done|].
    assert (r < length (heap e))%nat as Hr.
    { apply (reachable_places_allocated e He), places_timer.
      rewrite Hts. by left. }
    destruct (lookup_lt_is_Some_2 _ _ Hr) as [th Hth].
    destruct (fireTimer_eq e r rest th Hts Hth) as (e' & Heq & _).
    unfold fireTimer in Heq. erewrite bind_eq in Heq by reflexivity.
    rewrite Hts in Heq. by rewrite Heq.
Qed.

(** * The clock, busy time and waiting time *)

Lemma wp_forEach_idx {A} (P : nat → SimulationEngine → Prop) E
    (l : list A) f e :
  (∀ k x e', l !! k = Some x → P k e' → wp (f x) (λ _, P (S k)) E e') →
  P 0%nat e → wp (forEach l f) (λ _, P (length l)) E e.
Proof.
  revert P e. induction l as [|x l IH]; intros P e Hf H0; simpl; [done|].
  apply wp_bind. eapply wp_mono; [by apply (Hf 0%nat x)| |done].
  intros [] e1 H1. apply (IH (λ k, P (S k))); [|done].
  intros k y e2 Hk. by apply (Hf (S k)).
Qed.

(** What every write of [tick] keeps, [tick] keeps from the first write on. *)
Lemma wp_tick_stable (I : SimulationEngine → Prop) e :
  (∀ e e', I e → prim e e' → I e') →
  (∀ e r th, I e → heap e !! r = Some th →
     I (set_heap (λ h, <[r := Thread.tick th]> h) e)) →
  (∀ e i c, I e → cpuCores e !! i = Some c →
     I (set_cpuCores (λ cs, <[i := CPUCore.tick c]> cs) e)) →
  I (set_clockTick (λ c, c + 1) e) →
  wp tick (λ _, I) I e.
Proof.
  intros Hprim Hthread Hcore H1. unfold tick. apply wp_bind, wp_modify.
  apply wp_bind, wp_gets. apply wp_call; [|done|].
  { apply pres_forEach. intros r e' H'. apply wp_update; [|done].
    intros th Hth. by apply Hthread. }
  intros _ e2 H2. apply wp_bind, wp_gets.
  apply wp_call; [|done|].
  { apply pres_forEach. intros i e' H'. rewrite runCore_split.
    apply wp_bind, wp_getCore; [|done]. intros c Hc.
    apply wp_bind, wp_modify.
    apply (traced_pres prim); [intros; apply tr_runThread|done|].
    by apply Hcore. }
  intros _ e3 H3. apply wp_call; [|done|].
  { apply (traced_pres prim); [intros; apply tr_manyToOne|done]. }
  intros _ e4 H4.
  enough (pres I (forEach (seq 0 (length (cpuCores e2))) dispatchCore)) as Ht
    by (by apply Ht).
  apply pres_forEach. intros i.
  apply (traced_pres prim); [intros; apply tr_dispatchCore|done].
Qed.

Lemma prim_clock e e' : prim e e' → clockTick e' = clockTick e.
Proof. by destruct 1. Qed.

Lemma step_clock e e' :
  step e e' →
  clockTick e' = clockTick e ∨
  (∃ n a q m, e' = final (initialize n a q m e)).
Proof.
  destruct 1 as [? Hp|n a q m|name priority instructions|r rest Hts|k v|k];
    try (by left).
  - left. by apply prim_clock.
  - right. by exists n, a, q, m.
  - left. by destruct (addThread_spec e name priority instructions)
      as (kid & kc & msg & -> & _).
Qed.

Lemma tick_clock e : clockTick (final (tick e)) = clockTick e + 1.
Proof.
  apply (wp_final tick (λ e', clockTick e' = clockTick e + 1)).
  apply wp_tick_stable; try done.
  intros e1 e2 H1 Hp. by rewrite (prim_clock _ _ Hp).
Qed.

Lemma run_clock o e :
  clockTick (final (run o e))
  = match o with
    | OpTick => clockTick e + 1
    | OpInitialize _ _ _ _ => 0
    | _ => clockTick e
    end.
Proof.
  destruct o as [n a q m|name priority instructions|k v|k| |].
  - unfold run. by rewrite initialize_eq.
  - by destruct (addThread_spec e name priority instructions)
      as (kid & kc & msg & -> & _).
  - done.
  - done.
  - apply tick_clock.
  - unfold run.
    unfold fireTimer. erewrite bind_eq by reflexivity.
    destruct (timers e) as [|r rest]; [done|].
    erewrite bind_eq by reflexivity. unfold timeoutCallback.
    destruct (heap e !! r) as [th|] eqn:Hth.
    + erewrite bind_eq by (by apply deref_eq). case_decide; [|done].
      destruct (moveToReady_eq r th (set_timers (λ _, rest) e) Hth)
        as (e' & -> & _ & _ & _ & _ & Hc). simpl. by rewrite Hc.
    + unfold bind, deref. simpl. by rewrite Hth.
Qed.

Lemma tick_split :
  tick = (modify (set_clockTick (λ c, c + 1)) ;;
          let* ts := gets threads in
          forEach ts (λ thread, update thread Thread.tick) ;;
          tickCores).
Proof. reflexivity. Qed.

Lemma pres_runCore_stable (I : SimulationEngine → Prop) i :
  (∀ e e', I e → prim e e' → I e') →
  (∀ e i c, I e → cpuCores e !! i = Some c →
     I (set_cpuCores (λ cs, <[i := CPUCore.tick c]> cs) e)) →
  pres I (runCore i).
Proof.
  intros Hprim Hcore e' H'. rewrite runCore_split.
  apply wp_bind, wp_getCore; [|done]. intros c Hc.
  apply wp_bind, wp_modify.
  apply (traced_pres prim); [intros; apply tr_runThread|done|].
  by apply Hcore.
Qed.

Lemma pres_tickCores (I : SimulationEngine → Prop) :
  (∀ e e', I e → prim e e' → I e') →
  (∀ e i c, I e → cpuCores e !! i = Some c →
     I (set_cpuCores (λ cs, <[i := CPUCore.tick c]> cs) e)) →
  pres I tickCores.
Proof.
  intros Hprim Hcore. unfold tickCores.
  apply pres_bind; [apply pres_gets|intros n].
  apply pres_bind.
  { apply pres_forEach. intros i. by apply pres_runCore_stable. }
  intros _. apply pres_bind.
  { apply (traced_pres prim); [intros; apply tr_manyToOne|done]. }
  intros _. apply pres_forEach. intros i.
  apply (traced_pres prim); [intros; apply tr_dispatchCore|done].
Qed.

Lemma rtc_keeps (R : relation SimulationEngine)
    (I : SimulationEngine → Prop) e e' :
  (∀ e1 e2, I e1 → R e1 e2 → I e2) → rtc R e e' → I e → I e'.
Proof. intros HI Hr. induction Hr as [|e1 e2 e3 Hs _ IH]; eauto. Qed.

(** ** Busy time *)

Lemma busy_le_insert c k e i co co' :
  cpuCores e !! i = Some co →
  CPUCore.totalBusyTime co' = CPUCore.totalBusyTime co →
  busy_le c k e → busy_le c k (set_cpuCores (λ cs, <[i := co']> cs) e).
Proof.
  intros Hi Hb H j cj. simpl. destruct (decide (j = i)) as [->|Hne].
  - erewrite lookup_insert_same by done. intros [= <-]. rewrite Hb. by apply H.
  - rewrite list_lookup_insert_ne by done. apply H.
Qed.

Lemma prim_busy_le c k e e' : busy_le c k e → prim e e' → busy_le c k e'.
Proof.
  intros H Hp. destruct Hp; try exact H; by eapply busy_le_insert.
Qed.

Lemma busy_le_weaken c k e : busy_le c k e → busy_le (c + 1) 0 e.
Proof.
  intros H j co Hj. specialize (H j co Hj). simpl. case_decide; lia.
Qed.

Lemma tick_busy e : busy_inv e → busy_inv (final (tick e)).
Proof.
  intros [Hc Hb]. set (c := clockTick e) in *.
  pose (P := λ k e', clockTick e' = c + 1 ∧ busy_le c k e').
  pose (G := λ e', clockTick e' = c + 1 ∧ busy_le (c + 1) 0 e').
  assert (∀ k e', P k e' → G e') as HPG.
  { intros k e' [? ?]. split; [done|]. by eapply busy_le_weaken. }
  assert (∀ e1 e2, G e1 → prim e1 e2 → G e2) as HGprim.
  { intros e1 e2 [? ?] Hp. split; [by rewrite (prim_clock _ _ Hp)|].
    by eapply prim_busy_le. }
  enough (wp tick (λ _, G) G e) as Hwp.
  { apply wp_final in Hwp. destruct Hwp as [Hc' Hb'].
    split; [lia|]. by rewrite Hc'. }
  rewrite tick_split. apply wp_bind, wp_modify.
  apply wp_bind, wp_gets. apply wp_bind.
  eapply (wp_mono _ (λ _, P 0%nat) _ G); [|clear Hb|done].
  { apply wp_forEach; [|by split].
    intros r e' _ H'. apply wp_update; [done|]. intros _. by eapply HPG. }
  intros _ e2 H2. unfold tickCores. apply wp_bind, wp_gets.
  apply wp_bind.
  eapply (wp_mono _ (λ _, G) _ G); [| |done].
  { eapply wp_mono; [apply (wp_forEach_idx P G); [|done]| |done].
    - intros k i e' [-> Hk]%lookup_seq [Hc' Hb']. simpl.
      rewrite runCore_split.
      apply wp_bind, wp_getCore; [|intros _; by apply (HPG k)].
      intros co Hco. apply wp_bind, wp_modify.
      eapply (wp_mono _ (λ _, P (S k)) _ (P (S k))); [|done|apply HPG].
      apply (traced_pres prim); [intros; apply tr_runThread| |].
      + intros ea eb [? ?] Hp. split; [by rewrite (prim_clock _ _ Hp)|].
        by eapply prim_busy_le.
      + split; [done|]. intros j cj. simpl.
        destruct (decide (j = k)) as [->|Hne].
        * erewrite lookup_insert_same by done. intros [= <-].
          specialize (Hb' k co Hco). rewrite decide_False in Hb' by lia.
          rewrite decide_True by lia.
          unfold CPUCore.tick. destruct (CPUCore.isIdle co); simpl; lia.
        * rewrite list_lookup_insert_ne by done. intros Hj.
          specialize (Hb' j cj Hj). repeat case_decide; lia.
    - intros ? e'. apply HPG. }
  intros _ e3 H3.
  enough (pres G (manyToOne ;; forEach (seq 0 (length (cpuCores e2)))
                    dispatchCore)) as Ht by (by apply Ht).
  apply pres_bind.
  { apply (traced_pres prim); [intros; apply tr_manyToOne|done]. }
  intros _. apply pres_forEach. intros i.
  apply (traced_pres prim); [intros; apply tr_dispatchCore|done].
Qed.

Lemma step_busy e e' : busy_inv e → step e e' → busy_inv e'.
Proof.
  intros [Hc Hb] Hs.
  destruct Hs as [? Hp|n a q m|name priority instructions|r rest Hts|k v|k];
    [| | |by split..].
  - split; [by rewrite (prim_clock _ _ Hp)|].
    rewrite (prim_clock _ _ Hp). by eapply prim_busy_le.
  - rewrite initialize_eq. split; [done|]. intros j co. simpl.
    rewrite list_lookup_fmap. destruct (seq 0 n !! j); [|done]. simpl.
    by intros [= <-].
  - destruct (addThread_spec e name priority instructions)
      as (kid & kc & msg & -> & _). by split.
Qed.

Lemma reachable_busy e : reachable e → busy_inv e.
Proof.
  induction 1 as [|o e He IH].
  { split; [done|]. intros j co Hj. done. }
  assert (o = OpTick ∨ o ≠ OpTick) as [->|Ho] by (destruct o; eauto).
  - by apply tick_busy.
  - eapply (rtc_keeps step); [apply step_busy|by apply run_steps|done].
Qed.

Lemma sum_busy (cs : list CPUCore.t) (c : Z) :
  (∀ co, co ∈ cs → 0 ≤ CPUCore.totalBusyTime co ≤ c) →
  0 ≤ foldl (λ sum core, sum + CPUCore.totalBusyTime core) 0 cs
    ≤ c * Z.of_nat (length cs).
Proof.
  intros H.
  enough (∀ s0 k, 0 ≤ s0 ≤ c * k →
            0 ≤ foldl (λ sum core, sum + CPUCore.totalBusyTime core) s0 cs
              ≤ c * (k + Z.of_nat (length cs))) as Hgen.
  { specialize (Hgen 0 0). rewrite Z.add_0_l in Hgen. apply Hgen. lia. }
  induction cs as [|co cs IH]; intros s0 k Hs0; simpl.
  - by rewrite Z.add_0_r.
  - assert (0 ≤ CPUCore.totalBusyTime co ≤ c) as Hco by (apply H; by left).
    replace (k + Z.of_nat (S (length cs)))
      with ((k + 1) + Z.of_nat (length cs)) by lia.
    apply IH; [intros; apply H; by right|lia].
Qed.

(** ** Waiting time *)

Lemma waits_le_insert c ts k e r0 th0 th0' :
  heap e !! r0 = Some th0 →
  Thread.waitTime th0' = Thread.waitTime th0 →
  Thread.arrivalTime th0' = Thread.arrivalTime th0 →
  waits_le c ts k e →
  waits_le c ts k (set_heap (λ h, <[r0 := th0']> h) e).
Proof.
  intros H0 Hw Ha H j r th Hj. simpl.
  destruct (decide (r = r0)) as [->|Hne].
  - erewrite lookup_insert_same by done. intros [= <-].
    rewrite Hw, Ha. by eapply H.
  - rewrite list_lookup_insert_ne by done. by apply H.
Qed.

Lemma prim_waits_le c ts k e e' :
  waits_le c ts k e → prim e e' → waits_le c ts k e'.
Proof.
  intros H Hp. destruct Hp; try exact H;
    try (by eapply waits_le_insert).
  eapply waits_le_insert; [done| | |done];
    unfold Thread.execute;
    by destruct (Thread.instructions _ !! Thread.currentInstruction _).
Qed.

Lemma waits_le_weaken c ts k e : waits_le c ts k e → waits_le (c + 1) ts 0 e.
Proof.
  intros H j r th Hj Hth. specialize (H j r th Hj Hth). simpl.
  case_decide; lia.
Qed.

Lemma tick_waits e :
  NoDup (threads e) → waits_inv e → waits_inv (final (tick e)).
Proof.
  intros Hnd [Hc Hb]. set (c := clockTick e) in *. set (ts := threads e) in *.
  pose (P := λ k e', clockTick e' = c + 1 ∧ threads e' = ts ∧
                     waits_le c ts k e').
  pose (G := λ e', clockTick e' = c + 1 ∧ threads e' = ts ∧
                   waits_le (c + 1) ts 0 e').
  assert (∀ k e', P k e' → G e') as HPG.
  { intros k e' (? & ? & ?). split; [done|]. split; [done|].
    by eapply waits_le_weaken. }
  assert (∀ e1 e2, G e1 → prim e1 e2 → G e2) as HGprim.
  { intros e1 e2 (? & ? & ?) Hp. split; [by rewrite (prim_clock _ _ Hp)|].
    split; [|by eapply prim_waits_le].
    destruct (prim_same_admission e1 e2 Hp) as (-> & _). done. }
  enough (wp tick (λ _, G) G e) as Hwp.
  { apply wp_final in Hwp. destruct Hwp as (Hc' & Hts' & Hb').
    split; [lia|]. by rewrite Hc', Hts'. }
  rewrite tick_split. apply wp_bind, wp_modify.
  apply wp_bind, wp_gets. apply wp_bind.
  change (threads (set_clockTick (λ c, c + 1) e)) with ts.
  eapply (wp_mono _ (λ _, G) _ G); [| |done].
  { eapply wp_mono; [apply (wp_forEach_idx P G); [|done]| |done].
    - intros k r e' Hk (Hc' & Hts' & Hb').
      apply wp_update; [|intros _; by apply (HPG k)].
      intros th Hth. split; [done|]. split; [done|].
      intros j r' th' Hj. simpl.
      destruct (decide (r' = r)) as [->|Hne].
      + assert (j = k) as -> by (by eapply NoDup_lookup).
        erewrite lookup_insert_same by done. intros [= <-].
        specialize (Hb' k r th Hk Hth). rewrite decide_False in Hb' by lia.
        rewrite decide_True by lia.
        unfold Thread.tick. cbn [Thread.waitTime Thread.arrivalTime].
        destruct (bool_decide _); lia.
      + rewrite list_lookup_insert_ne by done. intros Hth'.
        specialize (Hb' j r' th' Hj Hth').
        assert (j ≠ k) by (intros ->; congruence).
        repeat case_decide; lia.
    - intros ? e'. apply HPG. }
  intros _ e2 H2. apply pres_tickCores; [done| |done].
  intros e1 i co (? & ? & ?) Hco. by split.
Qed.

Lemma step_waits e e' : visited e → waits_inv e → step e e' → waits_inv e'.
Proof.
  intros He [Hc Hb] Hs.
  destruct Hs as [? Hp|n a q m|name priority instructions|r rest Hts|k v|k];
    [| | |by split..].
  - split; [by rewrite (prim_clock _ _ Hp)|].
    rewrite (prim_clock _ _ Hp).
    destruct (prim_same_admission e _ Hp) as (-> & _).
    by eapply prim_waits_le.
  - rewrite initialize_eq. split; [done|]. intros j r th Hj. done.
  - pose proof (visited_threads_allocated e He) as Hall.
    destruct (addThread_spec e name priority instructions)
      as (kid & kc & msg & -> & _). split; [done|].
    unfold waits_le in *. cbn [final clockTick threads heap].
    intros j r th [[Hj1 Hj2]|[Hj1 <-]]%lookup_snoc_Some Hth.
    + assert (r < length (heap e))%nat as Hr
        by (apply Hall; by eapply list_elem_of_lookup_2).
      rewrite lookup_app_l in Hth by done. by eapply Hb.
    + rewrite lookup_snoc_length in Hth. simplify_eq. simpl. lia.
Qed.

Lemma reachable_waits e : reachable e → waits_inv e.
Proof.
  induction 1 as [|o e He IH].
  { split; [done|]. intros j r th Hj. done. }
  pose proof (reachable_visited e He) as Hv.
  assert (o = OpTick ∨ o ≠ OpTick) as [->|Ho] by (destruct o; eauto).
  - apply tick_waits; [|done]. by destruct (visited_admitted e Hv) as (_ & _ & ? & _).
  - pose proof (run_steps o e Ho) as Hsteps.
    assert (visited e ∧ waits_inv e) as Hboth by done.
    enough (visited (final (run o e)) ∧ waits_inv (final (run o e))) by tauto.
    eapply (rtc_keeps step (λ e, visited e ∧ waits_inv e)); [|done|done].
    intros e1 e2 [Hv1 H1] Hs. split; [|by eapply step_waits].
    eapply rtc_r; [exact Hv1|by left].
Qed.

(** ** Arrival and turnaround time *)

Lemma visited_arrivals_ok e : visited e → arrivals_ok e.
Proof.
  apply (visited_ind arrivals_ok).
  { split; [done|]. intros r th Hr. by apply elem_of_nil in Hr. }
  clear e. intros e e' He [Hc HI] Hw.
  pose proof (visited_threads_allocated e He) as Hall.
  assert (∀ r0 th0 th0', heap e !! r0 = Some th0 →
            Thread.arrivalTime th0' = Thread.arrivalTime th0 →
            arrivals_ok (set_heap (λ h, <[r0 := th0']> h) e)) as Hins.
  { intros r0 th0 th0' H0 Hkeep. split; [done|]. intros r th Hr. simpl.
    destruct (decide (r = r0)) as [->|Hne].
    - erewrite lookup_insert_same by done. intros [= <-].
      rewrite Hkeep. by eapply HI.
    - rewrite list_lookup_insert_ne by done. by apply HI. }
  write_cases e Hw; try (by split);
    try (eapply Hins; [eassumption|];
         first [ by simpl
               | unfold Thread.execute;
                 by destruct (Thread.instructions _
                                !! Thread.currentInstruction _) ]).
  - split; [done|]. intros x th Hx. by apply elem_of_nil in Hx.
  - split; [done|]. cbn [threads heap clockTick].
    intros x th [Hx| ->%list_elem_of_singleton]%elem_of_app Hth.
    + rewrite lookup_app_l in Hth by (by apply Hall). by eapply HI.
    + rewrite lookup_snoc_length in Hth. simplify_eq. simpl. lia.
  - split; [simpl; lia|]. simpl. intros x th Hx Hth.
    specialize (HI x th Hx Hth). lia.
Qed.

Lemma visited_terminated_ok e : visited e → terminated_ok e.
Proof.
  apply (visited_ind terminated_ok).
  { intros r Hr. by apply elem_of_nil in Hr. }
  clear e. intros e e' He HI Hw.
  destruct (visited_arrivals_ok e He) as [Hc Harr].
  assert (∀ r0 th0 th0', heap e !! r0 = Some th0 →
            Thread.arrivalTime th0' = Thread.arrivalTime th0 →
            (Thread.turnaroundTime th0' = Thread.turnaroundTime th0 ∧
             Thread.completionTime th0' = Thread.completionTime th0) ∨
            (Thread.turnaroundTime th0'
               = clockTick e - Thread.arrivalTime th0' ∧
             Thread.completionTime th0' = clockTick e) →
            terminated_ok (set_heap (λ h, <[r0 := th0']> h) e)) as Hins.
  { intros r0 th0 th0' H0 Ha Hkeep r Hr.
    destruct (HI r Hr) as (th & Hth & Hturn & Hcomp & Hin). simpl.
    destruct (decide (r = r0)) as [->|Hne].
    - exists th0'. split; [by eapply lookup_insert_same|].
      assert (th = th0) as -> by congruence.
      destruct Hkeep as [[-> ->]|[-> ->]]; rewrite Ha.
      + done.
      + split; [done|]. split; [done|]. intros Hr0.
        by apply (Harr r0 th0 Hr0 H0).
    - exists th. by rewrite list_lookup_insert_ne. }
  write_cases e Hw; try exact HI;
    try (eapply Hins; [eassumption| |];
         first [ by simpl
               | left; by simpl
               | right; by simpl
               | unfold Thread.execute;
                 by destruct (Thread.instructions _
                                !! Thread.currentInstruction _)
               | left; unfold Thread.execute;
                 by destruct (Thread.instructions _
                                !! Thread.currentInstruction _) ]).
  - simpl.
    intros x [Hx| ->%list_elem_of_singleton]%elem_of_app; [by apply HI|].
    eexists. split; [eassumption|]. simpl. split; [lia|]. split; [lia|].
    intros Hr0. match goal with H : heap e !! ?y = Some ?t |- _ =>
      pose proof (Harr y t Hr0 H) end. lia.
  - intros x Hx. by apply elem_of_nil in Hx.
  - simpl. intros x Hx.
    destruct (HI x Hx) as (th & Hth & ? & ? & Hin). exists th.
    split; [by apply lookup_app_l_Some|]. split; [done|]. split; [done|].
    intros [Hx'| ->%list_elem_of_singleton]%elem_of_app; [by apply Hin|].
    apply lookup_lt_Some in Hth. lia.
  - simpl. intros x Hx.
    destruct (HI x Hx) as (th & Hth & ? & ? & ?). exists th.
    split; [done|]. split; [done|]. split; [simpl; lia|done].
Qed.

(** * Classes on their own *)

(** ** [Thread]: [execute] hands out the instructions in order *)

Lemma executeAll_spec fuel th :
  let rest := drop (Thread.currentInstruction th) (Thread.instructions th) in
  let n := length (take fuel rest) in
  (executeAll fuel th).1 = take fuel rest ∧
  Thread.instructions (executeAll fuel th).2 = Thread.instructions th ∧
  Thread.currentInstruction (executeAll fuel th).2
    = (Thread.currentInstruction th + n)%nat ∧
  Thread.remainingTime (executeAll fuel th).2
    = Thread.remainingTime th - Z.of_nat n ∧
  Thread.quantum (executeAll fuel th).2 = Thread.quantum th + Z.of_nat n ∧
  Thread.state (executeAll fuel th).2 = Thread.state th.
Proof.
  revert th. induction fuel as [|fuel IH]; intros th; simpl.
  { rewrite take_0. simpl. repeat split; lia. }
  unfold Thread.execute.
  destruct (Thread.instructions th !! Thread.currentInstruction th)
    as [instruction|] eqn:Hi.
  - set (th' := Thread.Build_t _ _ _ _ _ _ _ _ _ _ _ _ _ _ _).
    specialize (IH th'). simpl in IH.
    destruct (executeAll fuel th') as [l th''] eqn:Hrun. simpl in *.
    destruct IH as (Hl & Hins & Hcur & Hrem & Hq & Hst).
    rewrite (drop_S _ _ _ Hi). simpl.
    rewrite Hl, Hins, Hcur, Hrem, Hq, Hst.
    repeat split; lia.
  - apply lookup_ge_None in Hi. rewrite drop_ge by done. simpl.
    rewrite ?take_nil. simpl. repeat split; lia.
Qed.

(** ** [Semaphore]: the wait queue is first in, first out *)

Lemma sem_fifo os s :
  Semaphore.waitQueue s ++ semEnqueued os s
  = semReleased os s ++ Semaphore.waitQueue (semRun os s).
Proof.
  revert s. induction os as [|[thread|] os IH]; intros s.
  - simpl. by rewrite app_nil_r.
  - change (semRun (SemWait thread :: os) s)
      with (semRun os (Semaphore.wait thread s).2).
    cbn [semEnqueued semReleased].
    destruct (Semaphore.wait thread s) as [proceed s'] eqn:Hw.
    cbn [snd]. rewrite <- (IH s').
    unfold Semaphore.wait in Hw. case_bool_decide; simplify_eq; simpl; [|done].
    by rewrite <- app_assoc.
  - change (semRun (SemSignal :: os) s)
      with (semRun os (Semaphore.signal s).2).
    cbn [semEnqueued semReleased].
    destruct (Semaphore.signal s) as [released s'] eqn:Hw.
    cbn [snd]. rewrite <- app_assoc, <- (IH s').
    unfold Semaphore.signal in Hw.
    destruct (Semaphore.waitQueue s) as [|u rest]; by simplify_eq.
Qed.

(** * Properties of the engine in every reachable state *)

Lemma rtc_write_identity e e' :
  rtc write e e' →
  ∀ r th, heap e !! r = Some th →
    ∃ th', heap e' !! r = Some th' ∧ same_identity th th'.
Proof.
  induction 1 as [e|e1 e2 e3 Hw _ IH]; intros r th Hr.
  - exists th. split; [done|apply same_identity_refl].
  - destruct (write_identity e1 e2 Hw r th Hr) as (th2 & Hr2 & Hi2).
    destruct (IH r th2 Hr2) as (th3 & Hr3 & Hi3).
    exists th3. split; [done|].
    destruct Hi2 as (?&?&?&?&?&?&?), Hi3 as (?&?&?&?&?&?&?).
    repeat split; congruence.
Qed.

Lemma fireTimer_threads e : threads (final (fireTimer e)) = threads e.
Proof.
  apply (wp_final fireTimer (λ e', threads e' = threads e)).
  unfold fireTimer. apply wp_bind, wp_gets.
  destruct (timers e) as [|r rest]; [done|].
  apply wp_bind, wp_modify. unfold timeoutCallback.
  apply wp_bind, wp_deref; [|done]. intros th _.
  case_decide; [|done].
  apply (traced_pres prim); [intros; apply tr_moveToReady| |done].
  intros e1 e2 H1 Hp. by destruct (prim_same_admission e1 e2 Hp) as (-> & _).
Qed.

(** X1: in a reachable state every call other than [tick] returns, and
    [tick] returns as well unless the scheduling algorithm is round-robin
    and some semaphore or monitor is registered: no call throws for any
    other reason. *)
Theorem call_returns (e : SimulationEngine) (o : Op) :
  reachable e →
  o ≠ OpTick ∨
  Scheduler.algorithm (scheduler e) ≠ "round-robin" ∨
  (semaphores e = ∅ ∧ monitors e = ∅) →
  ∃ e', run o e = Ok () e'.
Proof.
  intros He Ho.
  assert (returns (run o) e) as Hr.
  { apply returns_run; [done|]. unfold quiet. tauto. }
  unfold returns, wp in Hr.
  destruct (run o e) as [[] e'|]; [by exists e'|done].
Qed.

Lemma call_returns_witness : ∃ e', run OpTick rrEngine = Ok () e'.
Proof.
  apply (call_returns rrEngine OpTick).
  - apply reachable_runAll. constructor.
  - right. right. split; vm_compute; reflexivity.
Defined.

(** X2: in a reachable state a core is idle exactly when it has no current
    thread. *)
Theorem core_idle_iff_no_thread (e : SimulationEngine) (i : nat)
    (c : CPUCore.t) :
  reachable e → cpuCores e !! i = Some c →
  CPUCore.isIdle c = true ↔ CPUCore.currentThread c = None.
Proof.
  intros He Hc.
  apply (visited_cores_consistent e (reachable_visited e He)).
  by eapply list_elem_of_lookup_2.
Qed.

Lemma core_idle_iff_no_thread_witness :
  ∃ c, cpuCores sampleEngine !! 0%nat = Some c ∧
       (CPUCore.isIdle c = true ↔ CPUCore.currentThread c = None).
Proof.
  eassert (cpuCores sampleEngine !! 0%nat = Some _) as Hc
    by (vm_compute; reflexivity).
  eexists. split; [exact Hc|].
  apply (core_idle_iff_no_thread sampleEngine 0%nat _); [|exact Hc].
  apply reachable_runAll. constructor.
Defined.

(** X3: in a reachable state no core has been busy for longer than the
    clock has run, so the total busy time that [getStatistics] divides by
    the total core time is between 0 and that total: the utilisation it
    reports is never above 100%. *)
Theorem utilisation_at_most_one (e : SimulationEngine) :
  reachable e →
  (∀ i c, cpuCores e !! i = Some c →
     0 ≤ CPUCore.totalBusyTime c ≤ clockTick e) ∧
  0 ≤ totalBusyTime e ≤ totalCoreTime e.
Proof.
  intros He. destruct (reachable_busy e He) as [Hc Hb].
  assert (∀ i c, cpuCores e !! i = Some c →
            0 ≤ CPUCore.totalBusyTime c ≤ clockTick e) as Hcore.
  { intros i c Hi. specialize (Hb i c Hi). by rewrite decide_False in Hb by lia. }
  split; [done|]. unfold totalBusyTime, totalCoreTime. apply sum_busy.
  intros c [i Hi]%list_elem_of_lookup_1. by eapply Hcore.
Qed.

Lemma utilisation_at_most_one_witness :
  (∀ i c, cpuCores sampleEngine !! i = Some c →
     0 ≤ CPUCore.totalBusyTime c ≤ clockTick sampleEngine) ∧
  0 ≤ totalBusyTime sampleEngine ≤ totalCoreTime sampleEngine.
Proof.
  apply (utilisation_at_most_one sampleEngine).
  apply reachable_runAll. constructor.
Defined.

(** X4: in a reachable state nobody waits to enter a registered monitor
    that has no owner. *)
Theorem free_monitor_has_no_entrants (e : SimulationEngine) (k : string)
    (m : Monitor.t) :
  reachable e → monitors e !! k = Some m →
  Monitor.owner m = None → Monitor.entryQueue m = [].
Proof.
  intros He Hm. by apply (visited_monitors_ok e (reachable_visited e He) k m).
Qed.

Lemma free_monitor_has_no_entrants_witness :
  Monitor.entryQueue <$> monitors (runAll (take 9 handoverCalls) newEngine) !! "m"
    = Some [1%nat] ∧
  Monitor.owner <$> monitors (runAll (take 10 handoverCalls) newEngine) !! "m"
    = Some (Some 1%nat) ∧
  ∃ m, monitors handoverEngine !! "m" = Some m ∧
       Monitor.owner m = None ∧ Monitor.entryQueue m = [].
Proof.
  split; [vm_compute; reflexivity|]. split; [vm_compute; reflexivity|].
  eassert (monitors handoverEngine !! "m" = Some _) as Hm
    by (vm_compute; reflexivity).
  eexists. split; [exact Hm|]. split; [vm_compute; reflexivity|].
  apply (free_monitor_has_no_entrants handoverEngine "m" _); [|exact Hm|].
  - apply reachable_runAll. constructor.
  - vm_compute. reflexivity.
Defined.

(** X5: in a reachable state the wait queue of a registered semaphore is
    no longer than the deficit of its value, [max(0, -value)]; nobody
    waits on a semaphore whose value is not negative. *)
Theorem semaphore_queue_within_deficit (e : SimulationEngine) (k : string)
    (s : Semaphore.t) :
  reachable e → semaphores e !! k = Some s →
  Z.of_nat (length (Semaphore.waitQueue s)) ≤ Z.max 0 (- Semaphore.value s) ∧
  (0 ≤ Semaphore.value s → Semaphore.waitQueue s = []).
Proof.
  intros He Hs.
  pose proof (visited_semaphores_ok e (reachable_visited e He) k s Hs) as Hok.
  unfold sem_ok in Hok. split; [done|]. intros Hv.
  destruct (Semaphore.waitQueue s); [done|]. simpl in Hok. lia.
Qed.

Lemma semaphore_queue_within_deficit_witness :
  ∃ s, semaphores strandedEngine !! "s" = Some s ∧
    Z.of_nat (length (Semaphore.waitQueue s)) ≤ Z.max 0 (- Semaphore.value s) ∧
    (0 ≤ Semaphore.value s → Semaphore.waitQueue s = []).
Proof.
  eassert (semaphores strandedEngine !! "s" = Some _) as Hs
    by (vm_compute; reflexivity).
  eexists. split; [exact Hs|].
  apply (semaphore_queue_within_deficit strandedEngine "s" _); [|exact Hs].
  apply reachable_runAll. constructor.
Defined.

(** X6: in a reachable state the blocked queue holds no thread twice. *)
Theorem blocked_queue_has_no_duplicates (e : SimulationEngine) :
  reachable e → NoDup (blockedQueue e).
Proof. intros He. by apply visited_blocked_NoDup, reachable_visited. Qed.

Lemma blocked_queue_has_no_duplicates_witness :
  NoDup (blockedQueue strandedEngine).
Proof.
  apply (blocked_queue_has_no_duplicates strandedEngine).
  apply reachable_runAll. constructor.
Defined.

(** X7: in a reachable state the entries of the event log are in the order
    of their ticks, and none is later than the clock. *)
Theorem event_log_in_clock_order (e : SimulationEngine) :
  reachable e →
  (∀ a, a ∈ eventLog e → 0 ≤ tick_ a ≤ clockTick e) ∧
  (∀ i j a b, (i ≤ j)%nat → eventLog e !! i = Some a →
     eventLog e !! j = Some b → tick_ a ≤ tick_ b).
Proof.
  intros He.
  by destruct (visited_log_inv e (reachable_visited e He)) as (_ & ? & ?).
Qed.

Lemma event_log_in_clock_order_witness :
  (∀ a, a ∈ eventLog sampleEngine → 0 ≤ tick_ a ≤ clockTick sampleEngine) ∧
  (∀ i j a b, (i ≤ j)%nat → eventLog sampleEngine !! i = Some a →
     eventLog sampleEngine !! j = Some b → tick_ a ≤ tick_ b).
Proof.
  apply (event_log_in_clock_order sampleEngine).
  apply reachable_runAll. constructor.
Defined.



(** X9: under the one-to-one model, in a reachable state, there are as many
    kernel threads as user threads, and the thread at position [k] of the
    thread list has the kernel thread [k + 1]. *)
Theorem one_to_one_kernel_threads (e : SimulationEngine) :
  reachable e → threadingModel e = "one-to-one" →
  kernelThreadCount e = userThreadCount e ∧
  ∀ k r th, threads e !! k = Some r → heap e !! r = Some th →
    Thread.kernelThreadId th = Some (Z.of_nat k + 1).
Proof.
  intros He Hm. pose proof (reachable_visited e He) as Hv.
  destruct (visited_kernel_ok e Hv) as [Hc Hk].
  destruct (visited_admitted e Hv) as (Hu & _).
  rewrite Hm in Hc, Hk. unfold kernelCountOf, kernelThreadOf in *.
  rewrite decide_True in Hc by done. split; [by rewrite Hc, Hu|].
  intros k r th Hr Hth. rewrite (Hk k r th Hr Hth). by rewrite decide_True.
Qed.

Lemma one_to_one_kernel_threads_witness :
  kernelThreadCount oneToOneEngine = userThreadCount oneToOneEngine ∧
  ∀ k r th, threads oneToOneEngine !! k = Some r →
    heap oneToOneEngine !! r = Some th →
    Thread.kernelThreadId th = Some (Z.of_nat k + 1).
Proof.
  apply (one_to_one_kernel_threads oneToOneEngine).
  - apply reachable_runAll. constructor.
  - vm_compute. reflexivity.
Defined.

(** X10: under the many-to-one model, in a reachable state, every thread of
    the engine has the kernel thread 1, and there is one kernel thread as
    soon as there is a thread. *)
Theorem many_to_one_kernel_threads (e : SimulationEngine) :
  reachable e → threadingModel e = "many-to-one" →
  kernelThreadCount e = Z.min 1 (Z.of_nat (length (threads e))) ∧
  ∀ k r th, threads e !! k = Some r → heap e !! r = Some th →
    Thread.kernelThreadId th = Some 1.
Proof.
  intros He Hm. pose proof (reachable_visited e He) as Hv.
  destruct (visited_kernel_ok e Hv) as [Hc Hk].
  rewrite Hm in Hc, Hk. unfold kernelCountOf, kernelThreadOf in *.
  rewrite decide_False, decide_True in Hc by done. split; [done|].
  intros k r th Hr Hth. rewrite (Hk k r th Hr Hth).
  by rewrite decide_False, decide_True.
Qed.

Lemma many_to_one_kernel_threads_witness :
  let e := runAll manyToOneCalls newEngine in
  kernelThreadCount e = Z.min 1 (Z.of_nat (length (threads e))) ∧
  ∀ k r th, threads e !! k = Some r → heap e !! r = Some th →
    Thread.kernelThreadId th = Some 1.
Proof.
  apply (many_to_one_kernel_threads (runAll manyToOneCalls newEngine)).
  - apply reachable_runAll. constructor.
  - vm_compute. reflexivity.
Defined.

(** X11: under the many-to-many model with [n > 0] cores, in a reachable
    state, the thread at position [k] of the thread list has the kernel
    thread [((k + 1) mod n) + 1], a number from 1 to [n] (the first thread
    gets kernel thread 2 when there are two cores or more), and the number of
    kernel threads is [min(threads + 1, n)] as soon as there is a thread. *)
Theorem many_to_many_kernel_threads (e : SimulationEngine) :
  reachable e → threadingModel e = "many-to-many" → cpuCores e ≠ [] →
  let n := Z.of_nat (length (cpuCores e)) in
  kernelThreadCount e
    = (if decide (threads e = []) then 0
       else Z.min (Z.of_nat (length (threads e)) + 1) n) ∧
  ∀ k r th, threads e !! k = Some r → heap e !! r = Some th →
    Thread.kernelThreadId th = Some ((Z.of_nat k + 1) `mod` n + 1) ∧
    1 ≤ (Z.of_nat k + 1) `mod` n + 1 ≤ n.
Proof.
  intros He Hm Hcs n. pose proof (reachable_visited e He) as Hv.
  destruct (visited_kernel_ok e Hv) as [Hc Hk].
  assert (length (cpuCores e) ≠ 0%nat) as Hn
    by (destruct (cpuCores e); [done|simpl; lia]).
  rewrite Hm in Hc, Hk. unfold kernelCountOf, kernelThreadOf in *.
  rewrite !decide_False, decide_True in Hc by done. split.
  - rewrite Hc. destruct (threads e) as [|r ts]; simpl;
      repeat case_decide; try done; try lia; naive_solver.
  - intros k r th Hr Hth. rewrite (Hk k r th Hr Hth).
    rewrite !decide_False, decide_True by done. rewrite decide_False by done.
    split; [done|].
    pose proof (Z.mod_pos_bound (Z.of_nat k + 1) n). lia.
Qed.

Lemma many_to_many_kernel_threads_witness :
  let n := Z.of_nat (length (cpuCores sampleEngine)) in
  kernelThreadCount sampleEngine
    = (if decide (threads sampleEngine = []) then 0
       else Z.min (Z.of_nat (length (threads sampleEngine)) + 1) n) ∧
  ∀ k r th, threads sampleEngine !! k = Some r →
    heap sampleEngine !! r = Some th →
    Thread.kernelThreadId th = Some ((Z.of_nat k + 1) `mod` n + 1) ∧
    1 ≤ (Z.of_nat k + 1) `mod` n + 1 ≤ n.
Proof.
  apply (many_to_many_kernel_threads sampleEngine).
  - apply reachable_runAll. constructor.
  - vm_compute. reflexivity.
  - vm_compute. discriminate.
Defined.

(** X12: in a reachable state a thread of the engine has arrived at a tick
    that is not negative and has waited for no longer than the clock has
    run since: [0 <= waitTime <= clockTick - arrivalTime]. *)
Theorem waiting_time_bounded (e : SimulationEngine) (r : nat)
    (th : Thread.t) :
  reachable e → r ∈ threads e → heap e !! r = Some th →
  0 ≤ Thread.arrivalTime th ∧
  0 ≤ Thread.waitTime th ≤ clockTick e - Thread.arrivalTime th.
Proof.
  intros He [j Hj]%list_elem_of_lookup_1 Hth.
  destruct (reachable_waits e He) as [_ Hw].
  specialize (Hw j r th Hj Hth). rewrite decide_False in Hw by lia. lia.
Qed.

Lemma waiting_time_bounded_witness :
  ∃ th, heap sampleEngine !! 0%nat = Some th ∧
    0 ≤ Thread.arrivalTime th ∧
    0 ≤ Thread.waitTime th ≤ clockTick sampleEngine - Thread.arrivalTime th.
Proof.
  eassert (heap sampleEngine !! 0%nat = Some _) as Hth
    by (vm_compute; reflexivity).
  eexists. split; [exact Hth|].
  apply (waiting_time_bounded sampleEngine 0%nat _); [| |exact Hth].
  - apply reachable_runAll. constructor.
  - vm_compute. by left.
Defined.

(** X13: in a reachable state every thread in [terminatedThreads] has
    [turnaroundTime = completionTime - arrivalTime] with a completion time
    that is not later than the clock; for a thread of the engine the
    turnaround time is not negative. *)
Theorem turnaround_is_completion_minus_arrival (e : SimulationEngine)
    (r : nat) :
  reachable e → r ∈ terminatedThreads e →
  ∃ th, heap e !! r = Some th ∧
    Thread.turnaroundTime th
      = Thread.completionTime th - Thread.arrivalTime th ∧
    Thread.completionTime th ≤ clockTick e ∧
    (r ∈ threads e → 0 ≤ Thread.turnaroundTime th).
Proof.
  intros He Hr.
  destruct (visited_terminated_ok e (reachable_visited e He) r Hr)
    as (th & Hth & Hturn & Hcomp & Hin).
  exists th. split; [done|]. split; [done|]. split; [done|].
  intros Hr'. specialize (Hin Hr'). lia.
Qed.

Lemma turnaround_is_completion_minus_arrival_witness :
  ∃ th, heap sampleEngine !! 1%nat = Some th ∧
    Thread.turnaroundTime th
      = Thread.completionTime th - Thread.arrivalTime th ∧
    Thread.completionTime th ≤ clockTick sampleEngine ∧
    (1%nat ∈ threads sampleEngine → 0 ≤ Thread.turnaroundTime th).
Proof.
  apply (turnaround_is_completion_minus_arrival sampleEngine 1%nat).
  - apply reachable_runAll. constructor.
  - vm_compute. by left.
Defined.

(** [addThread(thread)] on a thread object that exists, in full. *)
Lemma addThread_existing (e : SimulationEngine) thread th :
  heap e !! thread = Some th →
  ∃ kid kc msg,
    addThread thread e
    = Ok ()
        {| heap := <[thread :=
             Thread.setState NEW
               (Thread.set_kernelThreadId kid
                  (Thread.set_arrivalTime (clockTick e) th))]> (heap e);
           nextId := nextId e;
           timers := timers e ++ [thread];
           threads := threads e ++ [thread];
           readyQueue := readyQueue e;
           blockedQueue := blockedQueue e;
           terminatedThreads := terminatedThreads e;
           cpuCores := cpuCores e;
           semaphores := semaphores e;
           monitors := monitors e;
           scheduler := scheduler e;
           clockTick := clockTick e;
           isRunning := isRunning e;
           threadingModel := threadingModel e;
           userThreadCount := userThreadCount e + 1;
           kernelThreadCount := kc;
           eventLog := eventLog e ++
             [{| tick_ := clockTick e; message := msg; level := "success" |}] |} ∧
    kernel_mapping (threadingModel e) (userThreadCount e + 1)
      (length (cpuCores e)) (kernelThreadCount e)
      (Thread.kernelThreadId th) kid kc.
Proof.
  intros Hth. pose proof (lookup_lt_Some _ _ _ Hth) as Hlt.
  unfold addThread.
  erewrite bind_eq by reflexivity.
  erewrite bind_eq by (by apply update_eq).
  do 2 (erewrite bind_eq by reflexivity).
  set (th0 := Thread.set_arrivalTime _ _).
  set (e1 := set_userThreadCount _ _).
  assert (heap e1 !! thread = Some th0) as Hth0.
  { subst e1. simpl. by apply list_lookup_insert_eq. }
  destruct (mapThreadToKernel_spec _ th0 e1 Hth0) as (kid & kc & Hmap & Hk).
  erewrite bind_eq by exact Hmap. subst e1.
  erewrite bind_eq; cycle 1.
  { apply update_eq. simpl. apply list_lookup_insert_eq.
    by rewrite length_insert. }
  erewrite bind_eq; cycle 1.
  { apply deref_eq. simpl. apply list_lookup_insert_eq.
    by rewrite !length_insert. }
  erewrite bind_eq by reflexivity.
  eexists kid, kc, _. split; [|exact Hk].
  unfold modify. f_equal. apply engine_eq; try reflexivity.
  cbn [heap set_timers set_eventLog set_heap set_kernelThreadCount
       set_userThreadCount set_threads set_nextId].
  by rewrite !list_insert_insert_eq.
Qed.

(** X14: no call removes a thread object or changes its id, name, priority,
    instructions or burst time.  The arrival time and the kernel thread are
    written by [addThread(thread)] only, on the thread that it is given, which
    takes the clock as its arrival time; a call that constructs the thread it
    adds, and every other call, leaves the seven fields of every object that
    exists as they are. *)
Theorem thread_identity_is_kept (e : SimulationEngine) (r : nat)
    (th : Thread.t) :
  heap e !! r = Some th →
  (∀ o : Op,
     ∃ th', heap (final (run o e)) !! r = Some th' ∧
       Thread.id th' = Thread.id th ∧
       Thread.name th' = Thread.name th ∧
       Thread.priority th' = Thread.priority th ∧
       Thread.instructions th' = Thread.instructions th ∧
       Thread.burstTime th' = Thread.burstTime th ∧
       Thread.arrivalTime th' = Thread.arrivalTime th ∧
       Thread.kernelThreadId th' = Thread.kernelThreadId th) ∧
  (∀ thread : ref,
     ∃ th', heap (final (addThread thread e)) !! r = Some th' ∧
       Thread.id th' = Thread.id th ∧
       Thread.name th' = Thread.name th ∧
       Thread.priority th' = Thread.priority th ∧
       Thread.instructions th' = Thread.instructions th ∧
       Thread.burstTime th' = Thread.burstTime th ∧
       (r ≠ thread →
          Thread.arrivalTime th' = Thread.arrivalTime th ∧
          Thread.kernelThreadId th' = Thread.kernelThreadId th) ∧
       (r = thread → Thread.arrivalTime th' = clockTick e)).
Proof.
  intros Hth. split.
  { intros o. by apply (rtc_write_identity e _ (run_writes o e)). }
  intros thread. destruct (heap e !! thread) as [th0|] eqn:Hth0.
  - destruct (addThread_existing e thread th0 Hth0)
      as (kid & kc & msg & -> & _). cbn [final heap].
    destruct (decide (r = thread)) as [->|Hne].
    + simplify_eq. eexists. split.
      { apply list_lookup_insert_eq. by eapply lookup_lt_Some. }
      by repeat split.
    + exists th. rewrite list_lookup_insert_ne by done. by repeat split.
  - assert (addThread thread e = Throw e) as ->.
    { unfold addThread, bind, gets, update, bind, deref. by rewrite Hth0. }
    exists th. cbn [final]. repeat split; try done. intros ->. congruence.
Qed.

Lemma thread_identity_is_kept_witness :
  ∃ th, heap sampleEngine !! 0%nat = Some th ∧
  Thread.arrivalTime th = 0 ∧ clockTick sampleEngine = 3 ∧
  (∀ o : Op,
     ∃ th', heap (final (run o sampleEngine)) !! 0%nat = Some th' ∧
       Thread.id th' = Thread.id th ∧
       Thread.name th' = Thread.name th ∧
       Thread.priority th' = Thread.priority th ∧
       Thread.instructions th' = Thread.instructions th ∧
       Thread.burstTime th' = Thread.burstTime th ∧
       Thread.arrivalTime th' = Thread.arrivalTime th ∧
       Thread.kernelThreadId th' = Thread.kernelThreadId th) ∧
  (∀ thread : ref,
     ∃ th', heap (final (addThread thread sampleEngine)) !! 0%nat = Some th' ∧
       Thread.id th' = Thread.id th ∧
       Thread.name th' = Thread.name th ∧
       Thread.priority th' = Thread.priority th ∧
       Thread.instructions th' = Thread.instructions th ∧
       Thread.burstTime th' = Thread.burstTime th ∧
       (0%nat ≠ thread →
          Thread.arrivalTime th' = Thread.arrivalTime th ∧
          Thread.kernelThreadId th' = Thread.kernelThreadId th) ∧
       (0%nat = thread → Thread.arrivalTime th' = clockTick sampleEngine)).
Proof.
  eassert (heap sampleEngine !! 0%nat = Some _) as Hth
    by (vm_compute; reflexivity).
  eexists. split; [exact Hth|].
  split; [vm_compute; reflexivity|]. split; [vm_compute; reflexivity|].
  exact (thread_identity_is_kept sampleEngine 0%nat _ Hth).
Defined.

(** X15: [tick] advances the clock by exactly one, also when it throws;
    [initialize] sets it to 0; no other call changes it. *)
Theorem clock_moves_only_with_tick (o : Op) (e : SimulationEngine) :
  clockTick (final (run o e))
  = match o with
    | OpTick => clockTick e + 1
    | OpInitialize _ _ _ _ => 0
    | _ => clockTick e
    end.
Proof. apply run_clock. Qed.

(** X16: [initialize] (and [reset]) does not cancel the timers of pending
    admissions: when the timer of a thread that was added before fires
    afterwards, the thread enters the ready queue of the new simulation
    although it is not among the engine's threads. *)
Theorem initialize_keeps_pending_admissions (e : SimulationEngine)
    (r : nat) (rest : list nat) (th : Thread.t)
    (n : nat) (a : string) (q : Z) (m : string) :
  timers e = r :: rest → heap e !! r = Some th → Thread.state th = NEW →
  ∃ e1 e2,
    initialize n a q m e = Ok () e1 ∧
    threads e1 = [] ∧ readyQueue e1 = [] ∧ timers e1 = r :: rest ∧
    fireTimer e1 = Ok () e2 ∧
    threads e2 = [] ∧ readyQueue e2 = [r] ∧ stateOf e2 r = Some READY.
Proof.
  intros Hts Hth Hnew. rewrite initialize_eq.
  match goal with |- ∃ e1 e2, Ok () ?x = Ok () e1 ∧ _ => set (e1 := x) end.
  destruct (fireTimer_eq e1 r rest th Hts Hth) as (e2 & Heq & _ & _ & Hst).
  pose proof (fireTimer_threads e1) as Hthreads.
  rewrite decide_True in Hst by done. destruct Hst as [Hst Hrq].
  rewrite Heq in Hthreads. exists e1, e2.
  split; [done|]. split; [done|]. split; [done|]. split; [done|].
  split; [done|]. split; [done|]. by split.
Qed.

Lemma initialize_keeps_pending_admissions_witness :
  ∃ e1 e2,
    initialize 1 "fcfs" 3 "one-to-one" staleTimerEngine = Ok () e1 ∧
    threads e1 = [] ∧ readyQueue e1 = [] ∧ timers e1 = [0%nat] ∧
    fireTimer e1 = Ok () e2 ∧
    threads e2 = [] ∧ readyQueue e2 = [0%nat] ∧
    stateOf e2 0%nat = Some READY.
Proof.
  eassert (heap staleTimerEngine !! 0%nat = Some _) as Hth
    by (vm_compute; reflexivity).
  eapply (initialize_keeps_pending_admissions staleTimerEngine 0%nat []);
    [vm_compute; reflexivity|exact Hth|vm_compute; reflexivity].
Defined.

(** X17: [execute()], called over and over on a newly constructed thread,
    hands out the instructions of the thread in order, each one once; the
    thread is then complete with [remainingTime] 0, and every further call
    reports [done] and changes nothing. *)
Theorem execute_hands_out_instructions (id : Z) (name : option string)
    (priority : Z) (instructions : list Instruction) (extra : nat) :
  let th := Thread.make id name priority instructions in
  let r := executeAll (length instructions + extra) th in
  r.1 = instructions ∧
  Thread.isComplete r.2 = true ∧
  Thread.currentInstruction r.2 = length instructions ∧
  Thread.remainingTime r.2 = 0 ∧
  Thread.quantum r.2 = Z.of_nat (length instructions) ∧
  Thread.execute r.2 = (None, r.2).
Proof.
  intros th r.
  pose proof (executeAll_spec (length instructions + extra) th) as H.
  cbv zeta in H.
  change (Thread.currentInstruction th) with 0%nat in H.
  change (Thread.instructions th) with instructions in H.
  change (Thread.remainingTime th) with (Z.of_nat (length instructions)) in H.
  change (Thread.quantum th) with 0 in H.
  rewrite drop_0, take_ge in H by lia. fold r in H.
  destruct H as (Hl & Hins & Hcur & Hrem & Hq & _).
  split; [done|]. split; [|split; [done|split; [lia|split; [lia|]]]].
  - unfold Thread.isComplete. rewrite Hins, Hcur. by apply bool_decide_eq_true.
  - unfold Thread.execute. rewrite Hins, Hcur.
    by rewrite lookup_ge_None_2 by lia.
Qed.

(** X18: the wait queue of a semaphore is first in, first out: after any
    sequence of [wait] and [signal] calls, the threads that were in the queue
    followed by the threads that the calls have put there are the threads
    that the calls have handed back followed by the threads still queued,
    in this order. *)
Theorem semaphore_queue_fifo (os : list SemOp) (s : Semaphore.t) :
  Semaphore.waitQueue s ++ semEnqueued os s
  = semReleased os s ++ Semaphore.waitQueue (semRun os s).
Proof. apply sem_fifo. Qed.

(** * The page *)

Lemma length_recentLogs (l : list LogEntry) :
  length (drop (length l - 100) l) = (length l `min` 100)%nat.
Proof. rewrite length_drop. lia. Qed.

(** X19: as long as the engine's log has grown by appending and holds at most
    100 entries, [updateEventLog] makes the page show exactly the log. *)
Theorem event_log_shown_up_to_100 (l new : list LogEntry) (ui : UIManager.t) :
  UIManager.shows l ui → (length (l ++ new) ≤ 100)%nat →
  UIManager.shows (l ++ new) (UIManager.updateEventLog (l ++ new) ui).
Proof.
  intros [Hc Hn] Hlen. unfold UIManager.updateEventLog, UIManager.shows.
  replace (length (l ++ new) - 100)%nat with 0%nat by lia. rewrite drop_0.
  case_decide as Hd.
  - simpl. split; [|by left]. rewrite Hc.
    destruct Hn as [->|[-> ->]]; simpl; [|done].
    by rewrite drop_app_length.
  - split; [|by left].
    destruct Hn as [Hn|[Hn _]]; [|congruence].
    rewrite Hn in Hd. simplify_eq. rewrite length_app in Hd.
    destruct new; [by rewrite app_nil_r|simpl in Hd; lia].
Qed.

Lemma event_log_shown_up_to_100_witness :
  let e := runAll sampleCalls newEngine in
  UIManager.shows ([] ++ eventLog e)
    (UIManager.updateEventLog ([] ++ eventLog e) UIManager.make).
Proof.
  apply (event_log_shown_up_to_100 [] _ UIManager.make).
  - split; [done|by right].
  - vm_compute. lia.
Defined.

(** X20: once [updateEventLog] has run on a log of 100 entries or more, it
    shows nothing of any later log of 100 entries or more: the page stops
    following the log until [clearLog] is called. *)
Theorem event_log_display_stops_at_100 (l l' : list LogEntry)
    (ui : UIManager.t) :
  (100 ≤ length l)%nat → (100 ≤ length l')%nat →
  UIManager.updateEventLog l' (UIManager.updateEventLog l ui)
  = UIManager.updateEventLog l ui.
Proof.
  intros Hl Hl'.
  assert (UIManager.lastLogCount (UIManager.updateEventLog l ui) = Some 100%nat)
    as Hc.
  { unfold UIManager.updateEventLog. rewrite length_recentLogs.
    replace (length l `min` 100)%nat with 100%nat by lia.
    by case_decide. }
  unfold UIManager.updateEventLog at 1. rewrite length_recentLogs, Hc.
  replace (length l' `min` 100)%nat with 100%nat by lia.
  by rewrite decide_False by (by intros []).
Qed.

Lemma event_log_display_stops_at_100_witness :
  let entry := {| tick_ := 0; message := "m"; level := "info" |} in
  let l := replicate 100 entry in
  UIManager.updateEventLog (l ++ [entry])
    (UIManager.updateEventLog l UIManager.make)
  = UIManager.updateEventLog l UIManager.make.
Proof.
  intros entry l.
  apply (event_log_display_stops_at_100 l (l ++ [entry]) UIManager.make).
  - vm_compute. lia.
  - vm_compute. lia.
Defined.

Lemma prefix_inj (a b : string) (i j : nat) :
  a +:+ pretty i = a +:+ pretty j → i = j.
Proof.
  intros H. apply (inj pretty). induction a as [|c a IH]; [done|].
  simpl in H. injection H as H. by apply IH.
Qed.

Lemma numbered_names_fresh {A} prefix (m : gmap string A) :
  numbered_names prefix m → m !! (prefix +:+ pretty (size m + 1)%nat) = None.
Proof.
  intros Hn. apply eq_None_not_Some. intros Hs. apply Hn in Hs. lia.
Qed.

Lemma numbered_names_insert {A} prefix (m : gmap string A) (x : A) :
  numbered_names prefix m →
  numbered_names prefix (<[prefix +:+ pretty (size m + 1)%nat := x]> m).
Proof.
  intros Hn i Hi.
  rewrite map_size_insert_None by by apply numbered_names_fresh.
  destruct (decide (i = (size m + 1)%nat)) as [->|Hne];
    [by rewrite Nat.add_1_r|].
  rewrite lookup_insert_ne in Hi by (intros ?%prefix_inj; congruence).
  apply Hn in Hi. by apply Nat.le_le_succ_r.
Qed.

(** X21: when the names [Sem<i>] in the registry are numbered up to its
    size, as they are when only the button has given such names, the button
    registers a semaphore with value 1 under a name that was not in use: the
    registry grows by one, every semaphore that was registered is kept, and
    the names are numbered up to the new size. *)
Theorem semaphore_button_never_replaces (e : SimulationEngine) :
  numbered_names "Sem" (semaphores e) →
  ∃ e', Page.addSemaphore e = Ok () e' ∧
    size (semaphores e') = S (size (semaphores e)) ∧
    (∀ k s, semaphores e !! k = Some s → semaphores e' !! k = Some s) ∧
    (∃ k, semaphores e !! k = None ∧
          semaphores e' !! k = Some (Semaphore.make k 1)) ∧
    numbered_names "Sem" (semaphores e').
Proof.
  intros Hn. pose proof (numbered_names_fresh _ _ Hn) as Hf.
  eexists. split; [reflexivity|]. cbn [semaphores set_eventLog set_semaphores].
  split; [by rewrite map_size_insert_None|].
  split; [|split].
  - intros k s Hk. rewrite lookup_insert_ne; [done|]. congruence.
  - eexists. split; [exact Hf|]. by rewrite lookup_insert_eq.
  - by apply numbered_names_insert.
Qed.

Lemma numbered_names_empty {A} prefix :
  numbered_names prefix (∅ : gmap string A).
Proof. intros i [x Hx]. by rewrite lookup_empty in Hx. Qed.

(** A name that is not of the form [prefix<i>] does not disturb the
    numbering, whether it is new or replaces an entry. *)
Lemma numbered_names_other {A} prefix (m : gmap string A) k (x : A) :
  (∀ i : nat, k ≠ prefix +:+ pretty i) →
  numbered_names prefix m → numbered_names prefix (<[k := x]> m).
Proof.
  intros Hk Hn i Hi. rewrite lookup_insert_ne in Hi by apply Hk.
  apply Hn in Hi. etrans; [exact Hi|].
  rewrite map_size_insert. destruct (m !! k); [done|apply Nat.le_succ_diag_r].
Qed.

Lemma semaphoreButtonEngine_numbered :
  numbered_names "Sem" (semaphores semaphoreButtonEngine).
Proof.
  unfold semaphoreButtonEngine.
  do 2 (match goal with
        | |- numbered_names _ (semaphores (final (Page.addSemaphore ?e))) =>
            change (semaphores (final (Page.addSemaphore e)))
              with (<["Sem" +:+ pretty (size (semaphores e) + 1)%nat
                      := Semaphore.make
                           ("Sem" +:+ pretty (size (semaphores e) + 1)%nat) 1]>
                      (semaphores e));
            apply numbered_names_insert
        end).
  rewrite addSemaphore_eq, initialize_eq. cbn [final semaphores set_eventLog
    set_semaphores].
  apply numbered_names_other; [by intros i|apply numbered_names_empty].
Qed.

Lemma semaphore_button_never_replaces_witness :
  is_Some (semaphores semaphoreButtonEngine !! "mutex") ∧
  is_Some (semaphores semaphoreButtonEngine !! "Sem2") ∧
  is_Some (semaphores semaphoreButtonEngine !! "Sem3") ∧
  ∃ e', Page.addSemaphore semaphoreButtonEngine = Ok () e' ∧
    size (semaphores e') = S (size (semaphores semaphoreButtonEngine)) ∧
    (∀ k s, semaphores semaphoreButtonEngine !! k = Some s →
            semaphores e' !! k = Some s) ∧
    (∃ k, semaphores semaphoreButtonEngine !! k = None ∧
          semaphores e' !! k = Some (Semaphore.make k 1)) ∧
    numbered_names "Sem" (semaphores e').
Proof.
  split; [vm_compute; eauto|]. split; [vm_compute; eauto|].
  split; [vm_compute; eauto|].
  apply (semaphore_button_never_replaces semaphoreButtonEngine).
  apply semaphoreButtonEngine_numbered.
Defined.

(** X22: the same for the monitor button and the names [Mon<i>]: it
    registers a new monitor under a name that was not in use and keeps
    every monitor that was registered. *)
Theorem monitor_button_never_replaces (e : SimulationEngine) :
  numbered_names "Mon" (monitors e) →
  ∃ e', Page.addMonitor e = Ok () e' ∧
    size (monitors e') = S (size (monitors e)) ∧
    (∀ k m, monitors e !! k = Some m → monitors e' !! k = Some m) ∧
    (∃ k, monitors e !! k = None ∧
          monitors e' !! k = Some (Monitor.make k)) ∧
    numbered_names "Mon" (monitors e').
Proof.
  intros Hn. pose proof (numbered_names_fresh _ _ Hn) as Hf.
  eexists. split; [reflexivity|]. cbn [monitors set_eventLog set_monitors].
  split; [by rewrite map_size_insert_None|].
  split; [|split].
  - intros k m Hk. rewrite lookup_insert_ne; [done|]. congruence.
  - eexists. split; [exact Hf|]. by rewrite lookup_insert_eq.
  - by apply numbered_names_insert.
Qed.

Lemma monitorButtonEngine_numbered :
  numbered_names "Mon" (monitors monitorButtonEngine).
Proof.
  unfold monitorButtonEngine.
  do 2 (match goal with
        | |- numbered_names _ (monitors (final (Page.addMonitor ?e))) =>
            change (monitors (final (Page.addMonitor e)))
              with (<["Mon" +:+ pretty (size (monitors e) + 1)%nat
                      := Monitor.make
                           ("Mon" +:+ pretty (size (monitors e) + 1)%nat)]>
                      (monitors e));
            apply numbered_names_insert
        end).
  rewrite addMonitor_eq, initialize_eq. cbn [final monitors set_eventLog
    set_monitors].
  apply numbered_names_other; [by intros i|apply numbered_names_empty].
Qed.

Lemma monitor_button_never_replaces_witness :
  is_Some (monitors monitorButtonEngine !! "table") ∧
  is_Some (monitors monitorButtonEngine !! "Mon2") ∧
  is_Some (monitors monitorButtonEngine !! "Mon3") ∧
  ∃ e', Page.addMonitor monitorButtonEngine = Ok () e' ∧
    size (monitors e') = S (size (monitors monitorButtonEngine)) ∧
    (∀ k m, monitors monitorButtonEngine !! k = Some m →
            monitors e' !! k = Some m) ∧
    (∃ k, monitors monitorButtonEngine !! k = None ∧
          monitors e' !! k = Some (Monitor.make k)) ∧
    numbered_names "Mon" (monitors e').
Proof.
  split; [vm_compute; eauto|]. split; [vm_compute; eauto|].
  split; [vm_compute; eauto|].
  apply (monitor_button_never_replaces monitorButtonEngine).
  apply monitorButtonEngine_numbered.
Defined.

(** * [tick] and the pending timers *)

Lemma tb_ret {A} (a : A) : timer_blind (ret a).
Proof. done. Qed.

Lemma tb_throw {A} : timer_blind (@throw A).
Proof. done. Qed.

Lemma tb_gets {A} (f : SimulationEngine → A) :
  (∀ ts e, f (set_timers (λ _, ts) e) = f e) → timer_blind (gets f).
Proof. intros Hf ts e. unfold gets. by rewrite Hf. Qed.

Lemma tb_modify g :
  (∀ ts e, g (set_timers (λ _, ts) e) = set_timers (λ _, ts) (g e)) →
  timer_blind (modify g).
Proof. intros Hg ts e. unfold modify. by rewrite Hg. Qed.

Lemma tb_bind {A B} (m : M A) (k : A → M B) :
  timer_blind m → (∀ a, timer_blind (k a)) → timer_blind (bind m k).
Proof.
  intros Hm Hk ts e. unfold bind. rewrite Hm.
  destruct (m e) as [a e'|e']; simpl; [apply Hk|done].
Qed.

Lemma tb_when (b : bool) m : timer_blind m → timer_blind (when b m).
Proof. intros Hm. destruct b; [done|apply tb_ret]. Qed.

Lemma tb_forEach {A} (l : list A) f :
  (∀ x, timer_blind (f x)) → timer_blind (forEach l f).
Proof.
  intros Hf. induction l as [|x l IH]; [apply tb_ret|].
  simpl. apply tb_bind; [apply Hf|done].
Qed.

Lemma tb_deref r : timer_blind (deref r).
Proof. intros ts e. unfold deref. simpl. by destruct (heap e !! r). Qed.

Lemma tb_getCore i : timer_blind (getCore i).
Proof. intros ts e. unfold getCore. simpl. by destruct (cpuCores e !! i). Qed.

(** Breaks a goal [timer_blind m] down along the shape of [m]. *)
Ltac tb_step :=
  lazymatch goal with
  | |- timer_blind (ret _) => apply tb_ret
  | |- timer_blind throw => apply tb_throw
  | |- timer_blind (gets _) => apply tb_gets; reflexivity
  | |- timer_blind (modify _) => apply tb_modify; reflexivity
  | |- timer_blind (deref _) => apply tb_deref
  | |- timer_blind (getCore _) => apply tb_getCore
  | |- timer_blind (bind _ _) => apply tb_bind; [|intros ?]
  | |- timer_blind (when _ _) => apply tb_when
  | |- timer_blind (forEach _ _) => apply tb_forEach; intros ?
  | |- timer_blind (match ?x with _ => _ end) => destruct x
  end.

Create HintDb timer_blind.

Ltac tb := repeat first [ tb_step | solve [auto with timer_blind] ].

Lemma tb_update r f : timer_blind (update r f).
Proof. unfold update. tb. Qed.

Lemma tb_setCore i c : timer_blind (setCore i c).
Proof. unfold setCore. tb. Qed.

Lemma tb_log m l : timer_blind (log m l).
Proof. unfold log. tb. Qed.

Lemma tb_threadName r : timer_blind (threadName r).
Proof. unfold threadName. tb. Qed.

#[local] Hint Resolve tb_update tb_setCore tb_log tb_threadName : timer_blind.

Lemma tb_moveToReady r : timer_blind (moveToReady r).
Proof. unfold moveToReady. tb. Qed.

Lemma tb_moveToBlocked r reason : timer_blind (moveToBlocked r reason).
Proof. unfold moveToBlocked. tb. Qed.

Lemma tb_moveToTerminated r : timer_blind (moveToTerminated r).
Proof. unfold moveToTerminated. tb. Qed.

Lemma tb_releaseCoreOf r : timer_blind (releaseCoreOf r).
Proof. unfold releaseCoreOf. tb. Qed.

Lemma tb_removeFromBlocked r : timer_blind (removeFromBlocked r).
Proof. unfold removeFromBlocked. tb. Qed.

Lemma tb_getSemaphore i : timer_blind (getSemaphore i).
Proof. unfold getSemaphore. tb. Qed.

Lemma tb_getMonitor i : timer_blind (getMonitor i).
Proof. unfold getMonitor. tb. Qed.

Lemma tb_putSemaphore i s : timer_blind (putSemaphore i s).
Proof. unfold putSemaphore. tb. Qed.

Lemma tb_putMonitor i m : timer_blind (putMonitor i m).
Proof. unfold putMonitor. tb. Qed.

#[local] Hint Resolve tb_moveToReady tb_moveToBlocked tb_moveToTerminated
  tb_releaseCoreOf tb_removeFromBlocked tb_getSemaphore tb_getMonitor
  tb_putSemaphore tb_putMonitor : timer_blind.

Lemma tb_unblock r : timer_blind (unblock r).
Proof. unfold unblock. tb. Qed.

#[local] Hint Resolve tb_unblock : timer_blind.

Lemma tb_executeInstruction r i : timer_blind (executeInstruction r i).
Proof. unfold executeInstruction. tb. Qed.

Lemma tb_execute r : timer_blind (execute r).
Proof. unfold execute. tb. Qed.

Lemma tb_releaseThread i : timer_blind (releaseThread i).
Proof. unfold releaseThread. tb. Qed.

Lemma tb_assignThread i r : timer_blind (assignThread i r).
Proof. unfold assignThread. tb. Qed.

#[local] Hint Resolve tb_executeInstruction tb_execute tb_releaseThread
  tb_assignThread : timer_blind.

Lemma tb_runCore i : timer_blind (runCore i).
Proof. unfold runCore. tb. Qed.

Lemma tb_manyToOne : timer_blind manyToOne.
Proof. unfold manyToOne. tb. Qed.

Lemma tb_dispatchCore i : timer_blind (dispatchCore i).
Proof. unfold dispatchCore. tb. Qed.

#[local] Hint Resolve tb_runCore tb_manyToOne tb_dispatchCore : timer_blind.

Lemma tb_tick : timer_blind tick.
Proof. unfold tick. tb. Qed.

Lemma tb_addSemaphore name v : timer_blind (addSemaphore name v).
Proof. unfold addSemaphore. tb. Qed.

Lemma tb_addMonitor name : timer_blind (addMonitor name).
Proof. unfold addMonitor. tb. Qed.

Lemma tb_timeoutCallback r : timer_blind (timeoutCallback r).
Proof. unfold timeoutCallback. tb. Qed.

(** What a timer-blind computation keeps of a thread that nothing refers to,
    it keeps of a thread that only timers refer to. *)
Lemma awaits_pres {A} (m : M A) T :
  timer_blind m → pres (frozen T (Some NEW)) m → pres (awaits_timer T) m.
Proof.
  intros Htb Hp e He. unfold awaits_timer in *.
  specialize (Hp _ He). unfold wp in *. rewrite Htb in Hp.
  by destruct (m e).
Qed.

Lemma tick_awaits T e : awaits_timer T e → awaits_timer T (final (tick e)).
Proof.
  intros He. apply (wp_final tick (awaits_timer T)).
  apply awaits_pres; [apply tb_tick|apply fz_tick|done].
Qed.

(** * Threads that wait for their timer *)

(** No write makes a thread object [NEW] that was not. *)
Lemma write_new e e' :
  write e e' →
  ∀ r th, heap e !! r = Some th →
    ∃ th', heap e' !! r = Some th' ∧
      (Thread.state th' = NEW → Thread.state th = NEW).
Proof.
  intros Hw.
  assert (∀ r0 th0 th0', heap e !! r0 = Some th0 →
            (Thread.state th0' = NEW → Thread.state th0 = NEW) →
            ∀ r th, heap e !! r = Some th →
              ∃ th', <[r0 := th0']> (heap e) !! r = Some th' ∧
                     (Thread.state th' = NEW → Thread.state th = NEW)) as Hins.
  { intros r0 th0 th0' H0 Hid r th Hr. destruct (decide (r = r0)) as [->|Hne].
    - exists th0'. split; [by eapply lookup_insert_same|]. by simplify_eq.
    - exists th. by rewrite list_lookup_insert_ne by done. }
  assert (∀ r th, heap e !! r = Some th →
            ∃ th', heap e !! r = Some th' ∧
              (Thread.state th' = NEW → Thread.state th = NEW)) as Hsame.
  { intros r th Hr. by exists th. }
  write_cases e Hw; try exact Hsame;
    try (eapply Hins; [eassumption|]; done).
  - eapply Hins; [eassumption|]. unfold Thread.execute.
    by destruct (Thread.instructions _ !! Thread.currentInstruction _).
  - intros r0 th Hr. exists th. split; [by apply lookup_app_l_Some|done].
Qed.

Lemma rtc_write_new e e' :
  rtc write e e' →
  ∀ r th, heap e !! r = Some th →
    ∃ th', heap e' !! r = Some th' ∧
      (Thread.state th' = NEW → Thread.state th = NEW).
Proof.
  induction 1 as [e|e1 e2 e3 Hw _ IH]; intros r th Hr.
  - by exists th.
  - destruct (write_new e1 e2 Hw r th Hr) as (th2 & Hr2 & Hi2).
    destruct (IH r th2 Hr2) as (th3 & Hr3 & Hi3).
    exists th3. split; [done|]. tauto.
Qed.

(** A call leaves a thread [NEW] only if it was, or if the call has
    constructed it. *)
Lemma run_new o e T :
  stateOf (final (run o e)) T = Some NEW →
  stateOf e T = Some NEW ∨ (length (heap e) ≤ T)%nat.
Proof.
  intros Hst. destruct (heap e !! T) as [th|] eqn:Hth.
  - left. destruct (rtc_write_new _ _ (run_writes o e) T th Hth)
      as (th' & Hth' & Hnew).
    unfold stateOf in *. rewrite Hth' in Hst. rewrite Hth. simpl in *.
    f_equal. apply Hnew. congruence.
  - right. by apply lookup_ge_None.
Qed.

Lemma awaits_timer_set_timers T ts e :
  awaits_timer T (set_timers (λ _, ts) e) ↔ awaits_timer T e.
Proof. done. Qed.

(** In a reachable state nothing but pending timer callbacks refers to a
    thread that is [NEW]. *)
Lemma reachable_awaits e T :
  reachable e → stateOf e T = Some NEW → awaits_timer T e.
Proof.
  intros He. revert T. induction He as [|o e He IH]; intros T Hst; [done|].
  destruct (run_new o e T Hst) as [Hold|Hfresh].
  - specialize (IH T Hold).
    destruct o as [n a q m|name priority instructions|k v|k| |].
    + change (run (OpInitialize n a q m) e) with (initialize n a q m e) in *.
      rewrite initialize_eq in *. cbn [final] in *. destruct IH as [Hs Hun].
      split; [exact Hst|]. unfold unreferenced. simpl.
      split; [apply not_elem_of_nil|]. split; [apply not_elem_of_nil|].
      split; [by intros c [i [-> _]]%list_elem_of_fmap|].
      split; intros ? ? Hl; by rewrite lookup_empty in Hl.
    + destruct (addThread_spec e name priority instructions)
        as (kid & kc & msg & Heq & _).
      rewrite Heq in *. cbn [final] in *.
      destruct IH as [Hs (Hrq & _ & Hun)].
      split; [exact Hst|]. split; [exact Hrq|].
      split; [apply not_elem_of_nil|exact Hun].
    + apply wp_final.
      apply awaits_pres; [apply tb_addSemaphore|apply fz_addSemaphore|done].
    + apply wp_final.
      apply awaits_pres; [apply tb_addMonitor|apply fz_addMonitor|done].
    + apply wp_final.
      apply awaits_pres; [apply tb_tick|apply fz_tick|done].
    + change (run OpTimeout e) with (fireTimer e) in *.
      destruct (timers e) as [|x rest] eqn:Hts.
      { unfold fireTimer, bind, gets. by rewrite Hts. }
      destruct (decide (x = T)) as [->|Hne].
      * exfalso. unfold stateOf in Hold.
        destruct (heap e !! T) as [th|] eqn:Hth; [|done].
        destruct (fireTimer_eq e T rest th Hts Hth) as (e' & Heq & _ & _ & Hr).
        rewrite Heq in Hst. cbn [final] in Hst.
        simpl in Hold. rewrite decide_True in Hr by congruence.
        destruct Hr as [Hr _]. congruence.
      * apply wp_final. unfold fireTimer. apply wp_bind, wp_gets.
        rewrite Hts. apply wp_bind, wp_modify.
        apply awaits_pres; [apply tb_timeoutCallback| |done].
        unfold timeoutCallback. apply pres_bind; [apply pres_deref|intros th].
        case_decide; [by apply fz_moveToReady|apply pres_ret].
  - pose proof (reachable_fresh_frozen e He T Hfresh) as [Hnone Hun].
    destruct o as [n a q m|name priority instructions|k v|k| |];
      try (exfalso;
           match type of Hst with
           | stateOf (final (run ?o _)) _ = _ =>
               pose proof (frozen_run T None o e ltac:(done)
                             (conj Hnone Hun)) as [Hn _]
           end; congruence).
    destruct (addThread_spec e name priority instructions)
      as (kid & kc & msg & Heq & _).
    rewrite Heq in *. cbn [final] in *.
    destruct Hun as (Hrq & _ & Hun').
    split; [exact Hst|]. split; [exact Hrq|].
    split; [apply not_elem_of_nil|exact Hun'].
Qed.

(** C8, as the code has it: [addThread] of a new thread leaves it [NEW] with
    the current clock tick as arrival time and registers a timer callback,
    without touching the clock or the ready queue; when the event loop runs
    the callback, a thread that is still [NEW] becomes [READY] at the tail of
    the ready queue and the clock is not involved; [tick] runs no callback:
    it leaves the pending timers as they are, and in a reachable state it
    leaves every [NEW] thread [NEW], out of the ready queue and off the
    cores. *)
Theorem C8_admission_waits_for_timer
    (e : SimulationEngine) name priority instructions :
  (∃ e' th,
     run (OpAddThread name priority instructions) e = Ok () e' ∧
     heap e' !! length (heap e) = Some th ∧
     Thread.state th = NEW ∧
     Thread.arrivalTime th = clockTick e ∧
     clockTick e' = clockTick e ∧
     timers e' = timers e ++ [length (heap e)] ∧
     readyQueue e' = readyQueue e) ∧
  (∀ r rest th, timers e = r :: rest → heap e !! r = Some th →
     ∃ e', fireTimer e = Ok () e' ∧ timers e' = rest ∧
       clockTick e' = clockTick e ∧
       if decide (Thread.state th = NEW)
       then stateOf e' r = Some READY ∧ readyQueue e' = readyQueue e ++ [r]
       else heap e' = heap e ∧ readyQueue e' = readyQueue e) ∧
  timers (final (tick e)) = timers e ∧
  (reachable e → ∀ T, stateOf e T = Some NEW →
     stateOf (final (tick e)) T = Some NEW ∧
     (T ∉ readyQueue (final (tick e))) ∧
     ∀ c, c ∈ cpuCores (final (tick e)) → CPUCore.currentThread c ≠ Some T).
Proof.
  split; [|split; [|split]].
  - destruct (addThread_fresh e name priority instructions)
      as (e' & th & Hrun & Hheap & ?).
    exists e', th. split; [done|]. split; [|done].
    rewrite Hheap. apply lookup_snoc_length.
  - intros r rest th. apply fireTimer_eq.
  - by destruct (tick_same_config e) as (_ & _ & ? & _).
  - intros He T Hnew.
    destruct (tick_awaits T e (reachable_awaits e T He Hnew))
      as (Hst & Hrq & _ & Hcores & _).
    split; [exact Hst|]. split; [exact Hrq|exact Hcores].
Qed.

Lemma C8_admission_waits_for_timer_witness :
  let e := admissionEngine in
  (∃ e' th,
     run (OpAddThread None 5 [computeI]) e = Ok () e' ∧
     heap e' !! length (heap e) = Some th ∧
     Thread.state th = NEW ∧
     Thread.arrivalTime th = clockTick e ∧
     clockTick e' = clockTick e ∧
     timers e' = timers e ++ [length (heap e)] ∧
     readyQueue e' = readyQueue e) ∧
  (∀ r rest th, timers e = r :: rest → heap e !! r = Some th →
     ∃ e', fireTimer e = Ok () e' ∧ timers e' = rest ∧
       clockTick e' = clockTick e ∧
       if decide (Thread.state th = NEW)
       then stateOf e' r = Some READY ∧ readyQueue e' = readyQueue e ++ [r]
       else heap e' = heap e ∧ readyQueue e' = readyQueue e) ∧
  timers (final (tick e)) = timers e ∧
  timers e = [1%nat] ∧ stateOf e 0%nat = Some RUNNING ∧
  stateOf e 1%nat = Some NEW ∧
  stateOf (final (tick e)) 1%nat = Some NEW ∧
  (1%nat ∉ readyQueue (final (tick e))) ∧
  ∀ c, c ∈ cpuCores (final (tick e)) → CPUCore.currentThread c ≠ Some 1%nat.
Proof.
  intros e.
  destruct (C8_admission_waits_for_timer e None 5 [computeI])
    as (H1 & H2 & H3 & H4).
  split; [exact H1|]. split; [exact H2|]. split; [exact H3|].
  split; [vm_compute; reflexivity|]. split; [vm_compute; reflexivity|].
  split; [vm_compute; reflexivity|].
  apply H4; [|vm_compute; reflexivity].
  apply reachable_runAll. constructor.
Defined.
